(** * Name variants of the ACK [names] package

    A shallow embedding of [names.New], [goName] and [normalizeInitialisms]
    (package [github.com/aws-controllers-k8s/pkg/names]) together with the
    pieces of the Go standard library, of [github.com/iancoleman/strcase] and
    of [github.com/dlclark/regexp2] that these functions call.

    Go strings are byte sequences: they are modelled by [string], whose
    characters ([ascii]) are the bytes.  Go [int] values (indices, counts, the
    [-1] of "not found" and of "no limit") are modelled by [Z]. *)

From Stdlib Require Import ZArith List Bool Ascii String Lia.
Import ListNotations.

Open Scope string_scope.
Open Scope Z_scope.

(** ** Results of fallible calls *)

(** The [error] values that can reach [normalizeInitialisms]; all of them are
    created by [regexp2]. *)
Inductive error : Type :=
| ErrStartAtTooLarge   (* "startAt must be less than the length of the input string" *)
| ErrStartAtNotAligned (* "startAt must align to the start of a valid rune in the input string" *)
| ErrCountTooSmall.    (* "Count too small" *)

(** A Go [(T, error)] result.  For [goName] and [New], which do not return an
    error but [panic(err)], [Err e] stands for the panic. *)
Inductive Res (A : Type) : Type :=
| Ok (a : A)
| Err (e : error).
Arguments Ok {A} a.
Arguments Err {A} e.

Definition bind {A B : Type} (r : Res A) (f : A -> Res B) : Res B :=
  match r with
  | Ok a => f a
  | Err e => Err e
  end.

Notation "x <- c1 ;; c2" := (bind c1 (fun x => c2))
  (at level 61, c1 at next level, right associativity).

(** ** Bytes *)

Definition byte_val (c : ascii) : Z := Z.of_N (N_of_ascii c).
Definition byte_of (z : Z) : ascii := ascii_of_N (Z.to_N z).

Definition in_range (lo hi : Z) (z : Z) : bool := (lo <=? z) && (z <=? hi).

Definition isCap (v : ascii) : bool := in_range 65 90 (byte_val v).
Definition isLow (v : ascii) : bool := in_range 97 122 (byte_val v).
Definition isNum (v : ascii) : bool := in_range 48 57 (byte_val v).

(** [v += 'a'; v -= 'A'] and [v += 'A'; v -= 'a'] on a [byte]. *)
Definition lowerByte (v : ascii) : ascii := byte_of ((byte_val v + 97 - 65) mod 256).
Definition upperByte (v : ascii) : ascii := byte_of ((byte_val v + 65 - 97) mod 256).

Definition len (s : string) : Z := Z.of_nat (String.length s).

Fixpoint rev_onto (s acc : string) : string :=
  match s with
  | EmptyString => acc
  | String c s' => rev_onto s' (String c acc)
  end.

Definition rev_string (s : string) : string := rev_onto s "".

Fixpoint drop (n : nat) (s : string) : string :=
  match n, s with
  | O, _ => s
  | S n', EmptyString => EmptyString
  | S n', String _ s' => drop n' s'
  end.

(** ** Package [strings] of the Go standard library *)

Module strings.

Fixpoint index_from (i : Z) (s substr : string) : Z :=
  if prefix substr s then i
  else match s with
       | EmptyString => -1
       | String _ s' => index_from (i + 1) s' substr
       end.

(** [strings.Index]: byte offset of the first instance of [substr], or -1. *)
Definition Index (s substr : string) : Z := index_from 0 s substr.

(** The scan of [strings.Replace] for a non-empty [old]: [skip] counts the
    bytes of a replaced instance of [old] that are still to be passed over,
    [n] the replacements still allowed (negative: no limit). *)
Fixpoint replace_scan (old new : string) (n : Z) (skip : nat) (s : string) : string :=
  match s with
  | EmptyString => EmptyString
  | String c s' =>
      match skip with
      | S k => replace_scan old new n k s'
      | O =>
          if n =? 0 then s
          else if prefix old s
               then new ++ replace_scan old new (n - 1) (pred (String.length old)) s'
               else String c (replace_scan old new n 0 s')
      end
  end.

(** [strings.Replace(s, old, new, n)]: the first [n] non-overlapping
    instances of [old] replaced by [new], all of them when [n < 0].  Every
    [old] passed by package [names] is non-empty; for an empty [old] (where
    Go inserts [new] around every rune) the model returns [s]. *)
Definition Replace (s old new : string) (n : Z) : string :=
  match old with
  | EmptyString => s
  | String _ _ => replace_scan old new n 0 s
  end.

Fixpoint mem_byte (c : ascii) (cutset : string) : bool :=
  match cutset with
  | EmptyString => false
  | String d cutset' => Ascii.eqb c d || mem_byte c cutset'
  end.

Fixpoint TrimLeft (s cutset : string) : string :=
  match s with
  | EmptyString => EmptyString
  | String c s' => if mem_byte c cutset then TrimLeft s' cutset else s
  end.

(** [strings.TrimRight]: the string without its trailing bytes in [cutset];
    a byte goes when it is in [cutset] and all that follows it goes. *)
Fixpoint TrimRight (s cutset : string) : string :=
  match s with
  | EmptyString => EmptyString
  | String c s' =>
      match TrimRight s' cutset with
      | EmptyString => if mem_byte c cutset then EmptyString else String c EmptyString
      | String d r => String c (String d r)
      end
  end.

(** [strings.Trim] for a cutset of ASCII bytes (package [names] only
    passes ["_"]). *)
Definition Trim (s cutset : string) : string :=
  TrimRight (TrimLeft s cutset) cutset.

Fixpoint map_bytes (f : ascii -> ascii) (s : string) : string :=
  match s with
  | EmptyString => EmptyString
  | String c s' => String (f c) (map_bytes f s')
  end.

(** [strings.ToLower].  Exact on ASCII input, where Go maps the bytes
    ['A'..'Z']; bytes of non-ASCII runes are kept, the Unicode case tables
    are not part of the model. *)
Definition ToLower (s : string) : string :=
  map_bytes (fun c => if isCap c then lowerByte c else c) s.

(** The white space of [unicode.IsSpace], as UTF-8 byte sequences. *)
Definition spaces : list (list Z) :=
  [ [9]; [10]; [11]; [12]; [13]; [32];
    [194; 133]; [194; 160]; [225; 154; 128];
    [226; 128; 128]; [226; 128; 129]; [226; 128; 130]; [226; 128; 131];
    [226; 128; 132]; [226; 128; 133]; [226; 128; 134]; [226; 128; 135];
    [226; 128; 136]; [226; 128; 137]; [226; 128; 138];
    [226; 128; 168]; [226; 128; 169]; [226; 128; 175];
    [226; 129; 159]; [227; 128; 128] ]%Z.

Fixpoint bytes_to_string (l : list Z) : string :=
  match l with
  | [] => EmptyString
  | b :: l' => String (byte_of b) (bytes_to_string l')
  end.

(** Length of the white-space rune that starts [s] (or, with [rev_enc], of
    the reversed encoding of one), 0 when there is none. *)
Definition space_prefix (rev_enc : bool) (s : string) : nat :=
  fold_right
    (fun sp acc =>
       let enc := bytes_to_string (if rev_enc then rev sp else sp) in
       if prefix enc s then String.length enc else acc)
    O spaces.

Fixpoint trim_space_left (rev_enc : bool) (skip : nat) (s : string) : string :=
  match s with
  | EmptyString => EmptyString
  | String _ s' =>
      match skip with
      | S k => trim_space_left rev_enc k s'
      | O =>
          match space_prefix rev_enc s with
          | O => s
          | S k => trim_space_left rev_enc k s'
          end
      end
  end.

(** [strings.TrimSpace]: leading and trailing white space removed. *)
Definition TrimSpace (s : string) : string :=
  rev_string (trim_space_left true 0 (rev_string (trim_space_left false 0 s))).

(** The scan of [strings.Split] for a non-empty [sep]: the piece that starts
    at the head of [s] and the pieces after it.  [skip] counts the bytes of
    an instance of [sep] that are still to be passed over. *)
Fixpoint split_scan (sep : string) (skip : nat) (s : string) : string * list string :=
  match s with
  | EmptyString => (EmptyString, [])
  | String c s' =>
      match skip with
      | S k => split_scan sep k s'
      | O =>
          if prefix sep s
          then
            let r := split_scan sep (pred (String.length sep)) s' in
            (EmptyString, fst r :: snd r)
          else
            let r := split_scan sep 0 s' in
            (String c (fst r), snd r)
      end
  end.

(** [strings.Split(s, sep)]: the pieces of [s] between the non-overlapping
    instances of [sep], at least one piece.  Package [fieldpath] only passes
    ["."]; for an empty [sep] (where Go splits after every rune) the model
    returns [[s]]. *)
Definition Split (s sep : string) : list string :=
  match sep with
  | EmptyString => [s]
  | String _ _ => let r := split_scan sep 0 s in fst r :: snd r
  end.

(** [strings.Join(elems, sep)] *)
Fixpoint Join (elems : list string) (sep : string) : string :=
  match elems with
  | [] => EmptyString
  | [a] => a
  | a :: rest => a ++ sep ++ Join rest sep
  end.

End strings.

(** ** UTF-8 ([unicode/utf8]) *)

(** A rune is a Unicode code point. *)
Definition rune : Type := Z.

Module utf8.

Definition RuneError : rune := 65533.

(** For the first byte of a multi-byte sequence: the length of the sequence
    and the range accepted for its second byte (the tables [first] and
    [acceptRanges] of the Go decoder). *)
Definition first (b0 : Z) : option (nat * Z * Z) :=
  if in_range 194 223 b0 then Some (2%nat, 128, 191)
  else if b0 =? 224 then Some (3%nat, 160, 191)
  else if in_range 225 236 b0 then Some (3%nat, 128, 191)
  else if b0 =? 237 then Some (3%nat, 128, 159)
  else if in_range 238 239 b0 then Some (3%nat, 128, 191)
  else if b0 =? 240 then Some (4%nat, 144, 191)
  else if in_range 241 243 b0 then Some (4%nat, 128, 191)
  else if b0 =? 244 then Some (4%nat, 128, 143)
  else None.

Definition cont (b : Z) : bool := in_range 128 191 b.

(** [utf8.DecodeRuneInString]: the first rune of [s] and its width in bytes;
    [(RuneError, 1)] for an invalid or truncated encoding. *)
Definition DecodeRuneInString (s : string) : rune * nat :=
  match s with
  | EmptyString => (RuneError, 0%nat)
  | String c0 t0 =>
      let b0 := byte_val c0 in
      if b0 <? 128 then (b0, 1%nat)
      else
        match first b0, t0 with
        | Some (sz, lo, hi), String c1 t1 =>
            let b1 := byte_val c1 in
            if negb (in_range lo hi b1) then (RuneError, 1%nat)
            else if Nat.eqb sz 2
            then (Z.lor (Z.shiftl (Z.land b0 31) 6) (Z.land b1 63), 2%nat)
            else
              match t1 with
              | String c2 t2 =>
                  let b2 := byte_val c2 in
                  if negb (cont b2) then (RuneError, 1%nat)
                  else if Nat.eqb sz 3
                  then (Z.lor (Z.shiftl (Z.land b0 15) 12)
                          (Z.lor (Z.shiftl (Z.land b1 63) 6) (Z.land b2 63)), 3%nat)
                  else
                    match t2 with
                    | String c3 _ =>
                        let b3 := byte_val c3 in
                        if negb (cont b3) then (RuneError, 1%nat)
                        else (Z.lor (Z.shiftl (Z.land b0 7) 18)
                                (Z.lor (Z.shiftl (Z.land b1 63) 12)
                                   (Z.lor (Z.shiftl (Z.land b2 63) 6) (Z.land b3 63))),
                              4%nat)
                    | EmptyString => (RuneError, 1%nat)
                    end
              | EmptyString => (RuneError, 1%nat)
              end
        | _, _ => (RuneError, 1%nat)
        end
  end.

(** [for strIdx, r := range s]: every rune of [s] with the byte offset it
    starts at.  [skip] counts the bytes of the current rune still to pass. *)
Fixpoint range_from (skip : nat) (strIdx : Z) (s : string) : list (Z * rune) :=
  match s with
  | EmptyString => []
  | String _ s' =>
      match skip with
      | S k => range_from k (strIdx + 1) s'
      | O =>
          let (r, w) := DecodeRuneInString s in
          (strIdx, r) :: range_from (pred w) (strIdx + 1) s'
      end
  end.

Definition range (s : string) : list (Z * rune) := range_from 0 0 s.

(** [utf8.AppendRune]: the UTF-8 encoding of [r]. *)
Definition EncodeRune (r : rune) : string :=
  let r := if (r <? 0) || (1114111 <? r) || in_range 55296 57343 r
           then RuneError else r in
  if r <? 128 then String (byte_of r) ""
  else if r <? 2048
  then String (byte_of (Z.lor 192 (Z.shiftr r 6)))
         (String (byte_of (Z.lor 128 (Z.land r 63))) "")
  else if r <? 65536
  then String (byte_of (Z.lor 224 (Z.shiftr r 12)))
         (String (byte_of (Z.lor 128 (Z.land (Z.shiftr r 6) 63)))
            (String (byte_of (Z.lor 128 (Z.land r 63))) ""))
  else String (byte_of (Z.lor 240 (Z.shiftr r 18)))
         (String (byte_of (Z.lor 128 (Z.land (Z.shiftr r 12) 63)))
            (String (byte_of (Z.lor 128 (Z.land (Z.shiftr r 6) 63)))
               (String (byte_of (Z.lor 128 (Z.land r 63))) ""))).

End utf8.

(** [[]rune(s)] *)
Definition runes_of_string (s : string) : list rune := map snd (utf8.range s).

(** [string(rs)] for a rune slice [rs] *)
Fixpoint string_of_runes (rs : list rune) : string :=
  match rs with
  | [] => EmptyString
  | r :: rs' => utf8.EncodeRune r ++ string_of_runes rs'
  end.

(** ** Package [regexp2] *)

(** Modelled from the spec: package [github.com/dlclark/regexp2] (the
    context-sensitive matcher of the spec: a pattern with lookahead
    exclusions, a search for the first match and for the next one, and a
    replacement of the matches from a position on) is a dependency whose
    source is not under src/.  The model follows the library's API as package
    [names] uses it.  The library converts its input to a rune slice and runs
    a backtracking matcher over it: the position of a match
    ([match.Group.Capture.Index]) counts runes, while the [startAt] argument
    of [Replace] is a byte offset into the input string, which the library
    converts to a rune index and rejects when no rune starts there.  The
    patterns of package [names] use literal characters, character classes,
    concatenation, alternation, groups, negative lookahead and the inline
    option [(?i)]. *)
Module regexp2.

Inductive regex : Type :=
| Eps
| Chr (c : rune)                     (* a literal character *)
| ChrI (c : rune)                    (* a lower-case ASCII letter under [(?i)] *)
| Cls (ranges : list (rune * rune))  (* [...]: a union of ranges *)
| Cat (r1 r2 : regex)
| Alt (r1 r2 : regex)                (* r1|r2, r1 tried first *)
| NotAhead (r : regex)               (* (?!r) *)
| Group (r : regex).                 (* (r) *)

Definition fold_case (x : rune) : rune :=
  if in_range 65 90 x then x + 32 else x.

Definition in_class (ranges : list (rune * rune)) (x : rune) : bool :=
  existsb (fun lh => in_range (fst lh) (snd lh) x) ranges.

(** Backtracking match of [r] at the start of [s]; the continuation [k]
    receives the text left after [r] and decides the rest of the match.  The
    result is the text left after the whole match. *)
Fixpoint bt (r : regex) (s : list rune)
  (k : list rune -> option (list rune)) : option (list rune) :=
  match r with
  | Eps => k s
  | Chr c =>
      match s with
      | x :: s' => if x =? c then k s' else None
      | [] => None
      end
  | ChrI c =>
      match s with
      | x :: s' => if fold_case x =? c then k s' else None
      | [] => None
      end
  | Cls ranges =>
      match s with
      | x :: s' => if in_class ranges x then k s' else None
      | [] => None
      end
  | Cat r1 r2 => bt r1 s (fun s1 => bt r2 s1 k)
  | Alt r1 r2 =>
      match bt r1 s k with
      | Some e => Some e
      | None => bt r2 s k
      end
  | NotAhead r1 =>
      match bt r1 s Some with
      | Some _ => None
      | None => k s
      end
  | Group r1 => bt r1 s k
  end.

(** Length of the match of [r] that starts at the head of [s], if any. *)
Definition match_at (r : regex) (s : list rune) : option nat :=
  match bt r s Some with
  | Some rest => Some (List.length s - List.length rest)%nat
  | None => None
  end.

(** A successful match: the rune slice searched, and the position and length
    (in runes) of the capture ([match.Group.Capture.Index] and [.Length]). *)
Record Match : Type := mkMatch {
  text : list rune;
  Index : Z;
  Length : Z
}.

Definition textpos (m : Match) : Z := Index m + Length m.

(** Leftmost match at or after the head of [s], which is at position [i]. *)
Fixpoint scan (r : regex) (i : Z) (s : list rune) : option (Z * Z) :=
  match match_at r s with
  | Some n => Some (i, Z.of_nat n)
  | None =>
      match s with
      | [] => None
      | _ :: s' => scan r (i + 1) s'
      end
  end.

(** [re.run(false, startAt, text)]; a negative [startAt] means the start. *)
Definition run (re : regex) (startAt : Z) (txt : list rune) : option Match :=
  let startAt := if startAt <? 0 then 0 else startAt in
  if Z.of_nat (List.length txt) <? startAt then None
  else
    match scan re startAt (skipn (Z.to_nat startAt) txt) with
    | Some (i, n) => Some (mkMatch txt i n)
    | None => None
    end.

(** [re.FindStringMatch(s)].  No match timeout is configured by
    [MustCompile], so the call returns no error. *)
Definition FindStringMatch (re : regex) (s : string) : Res (option Match) :=
  Ok (run re (-1) (runes_of_string s)).

(** [re.FindNextMatch(m)] for a non-nil [m]: the search goes on in the text
    of [m], after [m] (one further after an empty match). *)
Definition FindNextMatch (re : regex) (m : Match) : Res (option Match) :=
  let startAt := textpos m in
  if Length m =? 0 then
    if textpos m =? Z.of_nat (List.length (text m)) then Ok None
    else Ok (run re (startAt + 1) (text m))
  else Ok (run re startAt (text m)).

Fixpoint rune_index (its : list (Z * rune)) (startAt : Z) (i runeIdx : Z) : Z :=
  match its with
  | [] => runeIdx
  | (strIdx, _) :: its' =>
      rune_index its' startAt (i + 1) (if strIdx =? startAt then i else runeIdx)
  end.

(** [re.getRunesAndStart(s, startAt)]: the runes of [s] and the rune index
    that the BYTE offset [startAt] corresponds to, -1 when no rune starts at
    that offset. *)
Definition getRunesAndStart (s : string) (startAt : Z) : list rune * Z :=
  if startAt <? 0 then (runes_of_string s, 0)
  else
    let its := utf8.range s in
    let runeIdx := rune_index its startAt 0 (-1) in
    let runeIdx := if startAt =? len s then Z.of_nat (List.length its) else runeIdx in
    (map snd its, runeIdx).

(** [re.FindStringMatchStartingAt(s, startAt)] *)
Definition FindStringMatchStartingAt (re : regex) (s : string) (startAt : Z)
  : Res (option Match) :=
  if len s <? startAt then Err ErrStartAtTooLarge
  else
    let (r, startAt) := getRunesAndStart s startAt in
    if startAt =? -1 then Err ErrStartAtNotAligned
    else Ok (run re startAt r).

(** The loop of [replace] over the text [s] that follows the search position:
    each match found is replaced by [repl], the text between matches is
    copied, until [count] replacements are done ([count < 0]: no limit).
    [skip] counts the runes of the last match still to pass. *)
Fixpoint replace_loop (re : regex) (repl : string) (count : Z) (skip : nat)
  (s : list rune) : string :=
  match s with
  | [] =>
      match skip, match_at re [] with
      | O, Some _ => if count =? 0 then "" else repl
      | _, _ => ""
      end
  | x :: s' =>
      match skip with
      | S k => replace_loop re repl count k s'
      | O =>
          if count =? 0 then string_of_runes s
          else
            match match_at re s with
            | Some O => repl ++ utf8.EncodeRune x ++ replace_loop re repl (count - 1) 0 s'
            | Some (S n) => repl ++ replace_loop re repl (count - 1) n s'
            | None => utf8.EncodeRune x ++ replace_loop re repl count 0 s'
            end
      end
  end.

(** [re.Replace(input, replacement, startAt, count)] for a replacement
    without [$] substitutions (package [names] passes none).  [startAt] is a
    byte offset into [input]. *)
Definition Replace (re : regex) (input replacement : string) (startAt count : Z)
  : Res string :=
  if count <? -1 then Err ErrCountTooSmall
  else if count =? 0 then Ok ""
  else
    m <- FindStringMatchStartingAt re input startAt ;;
    match m with
    | None => Ok input
    | Some m =>
        let start := Z.to_nat (snd (getRunesAndStart input startAt)) in
        Ok (string_of_runes (firstn start (text m))
            ++ replace_loop re replacement count 0 (skipn start (text m)))
    end.

(** *** Pattern syntax *)

Fixpoint lit (s : string) : regex :=
  match s with
  | EmptyString => Eps
  | String c EmptyString => Chr (byte_val c)
  | String c s' => Cat (Chr (byte_val c)) (lit s')
  end.

Fixpoint lit_i (s : string) : regex :=
  match s with
  | EmptyString => Eps
  | String c EmptyString => ChrI (byte_val c)
  | String c s' => Cat (ChrI (byte_val c)) (lit_i s')
  end.

(** [[c1c2...]]: a class of single characters *)
Fixpoint one_of (s : string) : list (rune * rune) :=
  match s with
  | EmptyString => []
  | String c s' => (byte_val c, byte_val c) :: one_of s'
  end.

Fixpoint alts (l : list string) : regex :=
  match l with
  | [] => Eps
  | [s] => lit s
  | s :: l' => Alt (lit s) (alts l')
  end.

Fixpoint seq (l : list regex) : regex :=
  match l with
  | [] => Eps
  | [r] => r
  | r :: l' => Cat r (seq l')
  end.

End regexp2.

(** ** Package [strcase] *)

(** Modelled from the spec: package [github.com/iancoleman/strcase] (the
    spec's Word Boundary Caser, [toPascal] / [toLowerCamel] and the snake
    re-casting of the orchestrator) is a dependency whose source is not under
    src/.  The model is the library's byte loop: letters and digits are kept,
    every other byte is dropped, the byte after a delimiter ([_], space, [-],
    [.]) or a digit is upper-cased, the first byte is upper-cased (Pascal) or
    lower-cased (lowerCamel); [ToSnake] lower-cases and puts a delimiter where
    the kind of character changes.  It is checked below against every row of
    the table of [TestNames]. *)
Module strcase.

(** The acronym table of the library: a string that is exactly ["ID"] is
    read as ["id"]. *)
Definition uppercaseAcronym (s : string) : option string :=
  if String.eqb s "ID" then Some "id" else None.

Definition is_sep (v : ascii) : bool :=
  strings.mem_byte v "_ -.".

(** The loop of [toCamelInitCase]; [first] holds at index 0. *)
Fixpoint camel_loop (capNext first : bool) (s : string) : string :=
  match s with
  | EmptyString => EmptyString
  | String v s' =>
      let vIsCap := isCap v in
      let vIsLow := isLow v in
      let v' :=
        if capNext then (if vIsLow then upperByte v else v)
        else if first then (if vIsCap then lowerByte v else v)
        else v in
      if vIsCap || vIsLow then String v' (camel_loop false false s')
      else if isNum v then String v' (camel_loop true false s')
      else camel_loop (is_sep v) false s'
  end.

Definition toCamelInitCase (s : string) (initCase : bool) : string :=
  let s := strings.TrimSpace s in
  if String.eqb s "" then s
  else
    let s := match uppercaseAcronym s with
             | Some a => a
             | None => s
             end in
    camel_loop initCase true s.

(** [strcase.ToCamel]: the spec's [toPascal]. *)
Definition ToCamel (s : string) : string := toCamelInitCase s true.

(** [strcase.ToLowerCamel]: the spec's [toLowerCamel]. *)
Definition ToLowerCamel (s : string) : string := toCamelInitCase s false.

(** The loop of [ToScreamingDelimited]; [prev] is the byte before [s]. *)
Fixpoint delimited_loop (delimiter : ascii) (ignore : string) (screaming : bool)
  (prev : option ascii) (s : string) : string :=
  match s with
  | EmptyString => EmptyString
  | String v0 s' =>
      let vIsCap := isCap v0 in
      let vIsLow := isLow v0 in
      let v :=
        if vIsLow && screaming then upperByte v0
        else if vIsCap && negb screaming then lowerByte v0
        else v0 in
      let rest := delimited_loop delimiter ignore screaming (Some v0) s' in
      let plain :=
        if is_sep v && negb (strings.mem_byte v ignore)
        then String delimiter rest
        else String v rest in
      match s' with
      | EmptyString => plain
      | String next _ =>
          let vIsNum := isNum v in
          let nextIsCap := isCap next in
          let nextIsLow := isLow next in
          let nextIsNum := isNum next in
          if (vIsCap && (nextIsLow || nextIsNum))
             || (vIsLow && (nextIsCap || nextIsNum))
             || (vIsNum && (nextIsCap || nextIsLow))
          then
            let prevIgnore :=
              negb (String.eqb ignore "")
              && match prev with
                 | Some p => strings.mem_byte p ignore
                 | None => false
                 end in
            if prevIgnore then plain
            else
              let prevIsCap := match prev with
                               | Some p => isCap p
                               | None => false
                               end in
              let tail :=
                String v (if vIsLow || vIsNum || nextIsNum
                          then String delimiter rest else rest) in
              if vIsCap && nextIsLow && prevIsCap
              then String delimiter tail
              else tail
          else plain
      end
  end.

Definition ToScreamingDelimited (s : string) (delimiter : ascii) (ignore : string)
  (screaming : bool) : string :=
  delimited_loop delimiter ignore screaming None (strings.TrimSpace s).

Definition ToDelimited (s : string) (delimiter : ascii) : string :=
  ToScreamingDelimited s delimiter "" false.

(** [strcase.ToSnake] *)
Definition ToSnake (s : string) : string := ToDelimited s "_"%char.

End strcase.

(** ** Package [strutil] *)

Module strutil.

(** [InStrings]: is [subject] an element of [collection]? *)
Fixpoint InStrings (subject : string) (collection : list string) : bool :=
  match collection with
  | [] => false
  | item :: collection' =>
      if String.eqb subject item then true else InStrings subject collection'
  end.

(** [InStringPs]: is [subject] what one of the pointers of [collection]
    points to?  A nil pointer is [None]; dereferencing it panics, and the
    panic is the result [None]. *)
Fixpoint InStringPs (subject : string) (collection : list (option string))
  : option bool :=
  match collection with
  | [] => Some false
  | None :: _ => None
  | Some item :: collection' =>
      if String.eqb subject item then Some true else InStringPs subject collection'
  end.

End strutil.

(** ** Package [names] *)

Module names.

Import regexp2.

(** [nonAlphaNumRegexp.ReplaceAllString(s, repl)] for the pattern
    [[^a-zA-Z0-9]+]: every maximal run of bytes that are not ASCII letters or
    digits is replaced by [repl].  (The bytes of a non-ASCII or invalid rune
    are all at least 128, so runs of runes and runs of bytes coincide.) *)
Definition isAlphaNum (c : ascii) : bool := isLow c || isCap c || isNum c.

Fixpoint replace_runs (repl : string) (in_run : bool) (s : string) : string :=
  match s with
  | EmptyString => EmptyString
  | String c s' =>
      if isAlphaNum c then String c (replace_runs repl false s')
      else if in_run then replace_runs repl true s'
           else repl ++ replace_runs repl true s'
  end.

Definition nonAlphaNumRegexp_ReplaceAllString (s repl : string) : string :=
  replace_runs repl false s.

Record initialismTranslator : Type := mkTrx {
  (* CamelCased initialism, e.g. Tls *)
  camel : string;
  (* Uppercase representation of the initialism *)
  upper : string;
  (* Lowercase representation of the initialism *)
  lower : string;
  (* Regular expression matching the initialism within a subject string;
     [None] is Go's nil *)
  re : option regex
}.

(** The ordered rule table.  Each pattern is given in a comment before the
    rule it belongs to. *)
Definition initialisms : list initialismTranslator :=
  [
    (* (?![U|u])Ids *)
    mkTrx "Ids" "IDs" "ids"
      (Some (seq [NotAhead (Cls (one_of "U|u")); lit "Ids"]));
    (* Id(?!entifier|le|entity|empotency) *)
    mkTrx "Id" "ID" "id"
      (Some (seq [lit "Id"; NotAhead (alts ["entifier"; "le"; "entity"; "empotency"])]));
    (* Dbi *)
    mkTrx "Dbi" "DBI" "dbi"
      (Some (lit "Dbi"));
    (* Db(?!i) *)
    mkTrx "Db" "DB" "db"
      (Some (seq [lit "Db"; NotAhead (lit "i")]));
    (* DB *)
    mkTrx "Db" "DB" "db"
      (Some (lit "DB"));
    (* CACert *)
    mkTrx "CACert" "CACert" "caCert"
      (Some (lit "CACert"));
    (* M[dD]5Of *)
    mkTrx "MD5Of" "MD5Of" "md5Of"
      (Some (seq [lit "M"; Cls (one_of "dD"); lit "5Of"]));
    (* Ipc *)
    mkTrx "Ipc" "IPC" "ipc"
      (Some (lit "Ipc"));
    mkTrx "IPAddress" "IPAddress" "ip_address" None;
    (* I[Pp]v4 *)
    mkTrx "IPv4" "IPv4" "ipv4"
      (Some (seq [lit "I"; Cls (one_of "Pp"); lit "v4"]));
    (* I[Pp]v6 *)
    mkTrx "IPv6" "IPv6" "ipv6"
      (Some (seq [lit "I"; Cls (one_of "Pp"); lit "v6"]));
    (* Ip(?!art|am) *)
    mkTrx "Ip" "IP" "ip"
      (Some (seq [lit "Ip"; NotAhead (alts ["art"; "am"])]));
    mkTrx "IPSet" "IPSet" "ip_set" None;
    (* Amis *)
    mkTrx "Amis" "AMIs" "amis"
      (Some (lit "Amis"));
    (* Ami *)
    mkTrx "Ami" "AMI" "ami"
      (Some (lit "Ami"));
    mkTrx "Acl" "ACL" "acl" None;
    mkTrx "Acm" "ACM" "acm" None;
    mkTrx "AIML" "AIML" "aiml" None;
    mkTrx "Acp" "ACP" "acp" None;
    mkTrx "Api" "API" "api" None;
    mkTrx "Arn" "ARN" "arn" None;
    mkTrx "Asn" "ASN" "asn" None;
    mkTrx "Awsvpc" "AWSVPC" "awsVPC" None;
    mkTrx "Aws" "AWS" "aws" None;
    mkTrx "Az" "AZ" "az" None;
    mkTrx "Bgp" "BGP" "bgp" None;
    mkTrx "Cors" "CORS" "cors" None;
    mkTrx "Cidr" "CIDR" "cidr" None;
    mkTrx "Cname" "CNAME" "cname" None;
    mkTrx "Cpu" "CPU" "cpu" None;
    mkTrx "Crl" "CRL" "crl" None;
    mkTrx "Cps" "CPS" "cps" None;
    mkTrx "Csr" "CSR" "csr" None;
    mkTrx "Dhcp" "DHCP" "dhcp" None;
    mkTrx "Dns" "DNS" "dns" None;
    mkTrx "Dpd" "DPD" "dpd" None;
    mkTrx "Ebs" "EBS" "ebs" None;
    mkTrx "Ec2" "EC2" "ec2" None;
    (* (?!S|s|D|d)[Ee]cr(?!et|ease) *)
    mkTrx "Ecr" "ECR" "ecr"
      (Some (seq [NotAhead (alts ["S"; "s"; "D"; "d"]); Cls (one_of "Ee"); lit "cr"; NotAhead (alts ["et"; "ease"])]));
    mkTrx "Ecs" "ECS" "ecs" None;
    (* Edi(?!t) *)
    mkTrx "Edi" "EDI" "edi"
      (Some (seq [lit "Edi"; NotAhead (lit "t")]));
    mkTrx "Efs" "EFS" "efs" None;
    mkTrx "Eks" "EKS" "eks" None;
    (* Ena(?!bl) *)
    mkTrx "Ena" "ENA" "ena"
      (Some (seq [lit "Ena"; NotAhead (lit "bl")]));
    mkTrx "Ecmp" "ECMP" "ecmp" None;
    mkTrx "Fifo" "FIFO" "fifo" None;
    mkTrx "Fpga" "FPGA" "fpga" None;
    mkTrx "Gid" "GID" "gid" None;
    mkTrx "Gpu" "GPU" "gpu" None;
    mkTrx "Grpc" "GRPC" "grpc" None;
    mkTrx "Html" "HTML" "html" None;
    (* (HTTP((?!S[A-Z]))|Http(?!s)) *)
    mkTrx "Http" "HTTP" "http"
      (Some (Group (Alt (seq [lit "HTTP"; Group (NotAhead (seq [lit "S"; Cls [(65, 90)]]))]) (seq [lit "Http"; NotAhead (lit "s")]))));
    mkTrx "Https" "HTTPS" "https" None;
    mkTrx "Iam" "IAM" "iam" None;
    mkTrx "Icmp" "ICMP" "icmp" None;
    (* Io(?!ps) *)
    mkTrx "Io" "IO" "io"
      (Some (seq [lit "Io"; NotAhead (lit "ps")]));
    mkTrx "Iops" "IOPS" "iops" None;
    mkTrx "Ipam" "IPAM" "ipam" None;
    mkTrx "Ja3" "JA3" "ja3" None;
    mkTrx "Json" "JSON" "json" None;
    mkTrx "Jwt" "JWT" "jwt" None;
    mkTrx "Kms" "KMS" "kms" None;
    mkTrx "Ldap" "LDAP" "ldap" None;
    mkTrx "Mfa" "MFA" "mfa" None;
    (* Mibps *)
    mkTrx "Mibps" "MiBps" "miBps"
      (Some (lit "Mibps"));
    (* Nat(?!i) *)
    mkTrx "Nat" "NAT" "nat"
      (Some (seq [lit "Nat"; NotAhead (lit "i")]));
    (* Oid(?!c) *)
    mkTrx "Oid" "OID" "oid"
      (Some (seq [lit "Oid"; NotAhead (lit "c")]));
    (* OID(?!C) *)
    mkTrx "OID" "OID" "oid"
      (Some (seq [lit "OID"; NotAhead (lit "C")]));
    mkTrx "Oidc" "OIDC" "oidc" None;
    mkTrx "Ocsp" "OCSP" "ocsp" None;
    mkTrx "Pca" "PCA" "pca" None;
    mkTrx "Pid" "PID" "pid" None;
    (* Ramdisk *)
    mkTrx "Ramdisk" "RAMDisk" "ramDisk"
      (Some (lit "Ramdisk"));
    (* Ram *)
    mkTrx "Ram" "RAM" "ram"
      (Some (lit "Ram"));
    mkTrx "Rfc" "RFC" "rfc" None;
    mkTrx "Sasl" "SASL" "sasl" None;
    mkTrx "Scram" "SCRAM" "scram" None;
    mkTrx "Sdk" "SDK" "sdk" None;
    mkTrx "Sha256" "SHA256" "sha256" None;
    mkTrx "Sns" "SNS" "sns" None;
    mkTrx "Sqli" "SQLI" "sqli" None;
    mkTrx "Sql" "SQL" "sql" None;
    mkTrx "Sqs" "SQS" "sqs" None;
    mkTrx "Sriov" "SRIOV" "sriov" None;
    mkTrx "Sse" "SSE" "sse" None;
    mkTrx "Ssl" "SSL" "ssl" None;
    mkTrx "Tcp" "TCP" "tcp" None;
    mkTrx "Tde" "TDE" "tde" None;
    mkTrx "Tpm" "TPM" "tpm" None;
    mkTrx "Tls" "TLS" "tls" None;
    (* (?!Thro)((?i)ttl)(?!ing|e) *)
    mkTrx "Ttl" "TTL" "ttl"
      (Some (seq [NotAhead (lit "Thro"); Group (lit_i "ttl"); NotAhead (alts ["ing"; "e"])]));
    mkTrx "Udp" "UDP" "udp" None;
    (* (?!sec)uri(?!ty)|(Uri) *)
    mkTrx "Uri" "URI" "uri"
      (Some (Alt (seq [NotAhead (lit "sec"); lit "uri"; NotAhead (lit "ty")]) (Group (lit "Uri"))));
    mkTrx "Url" "URL" "url" None;
    mkTrx "Uuid" "UUID" "uuid" None;
    (* Uids *)
    mkTrx "Uids" "UIDs" "uids"
      (Some (lit "Uids"));
    (* Uid *)
    mkTrx "Uid" "UID" "uid"
      (Some (lit "Uid"));
    (* U(I|i)(?!D|d) *)
    mkTrx "Ui" "UI" "ui"
      (Some (seq [lit "U"; Group (alts ["I"; "i"]); NotAhead (alts ["D"; "d"])]));
    mkTrx "Vlan" "VLAN" "vlan" None;
    mkTrx "Vpc" "VPC" "vpc" None;
    mkTrx "Vpn" "VPN" "vpn" None;
    mkTrx "Vgw" "VGW" "vgw" None;
    mkTrx "Waf" "WAF" "waf" None;
    mkTrx "Xml" "XML" "xml" None;
    mkTrx "Xss" "XSS" "xss" None;
    mkTrx "Yaml" "YAML" "yaml" None
  ].

Definition goKeywords : list string :=
  [ "break"; "case"; "chan"; "const"; "continue"; "default";
    "defer"; "else"; "fallthrough"; "for"; "func"; "go";
    "goto"; "if"; "import"; "interface"; "map"; "package";
    "range"; "return"; "select"; "struct"; "switch"; "type";
    "var" ].

(** Names contains variations of a name *)
Record Names : Type := mkNames {
  Original : string;
  Camel : string;
  CamelLower : string;
  Lower : string;
  Snake : string;
  SnakeStripped : string
}.

(** What one iteration of the loop of [normalizeInitialisms] does: go on to
    the next rule with a new [result] ([continue], or the end of the body),
    or leave the function with a [return]. *)
Inductive flow : Type :=
| Continue (result : string)
| Return (r : Res string).

(** The end of the matcher branch (lines 376-383): everything from
    [startFrom] on is replaced. *)
Definition replaceFrom (initTrx : initialismTranslator) (r : regex) (snake : bool)
  (result : string) (startFrom : Z) : flow :=
  let toReplace := if snake then "_" ++ lower initTrx ++ "_" else upper initTrx in
  match Replace r result toReplace startFrom (-1) with
  | Err e => Return (Err e)
  | Ok result => Continue result
  end.

(** Lines 312-318: with [lowerFirst], an upper-case form that starts the
    string is lower-cased. *)
Definition lowerLeadingUpper (initTrx : initialismTranslator) (lowerFirst : bool)
  (result : string) : string :=
  if lowerFirst && (strings.Index result (upper initTrx) =? 0)
  then strings.Replace result (upper initTrx) (lower initTrx) 1
  else result.

(** Lines 324-344: the CamelCased form is replaced by the upper-case form,
    except for a first occurrence that starts the string when [lowerFirst]
    is set. *)
Definition replaceCamel (initTrx : initialismTranslator) (lowerFirst snake : bool)
  (result : string) : string :=
  let pos := strings.Index result (camel initTrx) in
  if pos =? -1 then result
  else if pos =? 0 then
    let result :=
      if lowerFirst
      then strings.Replace result (camel initTrx) (lower initTrx) 1
      else result in
    let toReplace := upper initTrx in
    let toReplace := if snake then "_" ++ toReplace ++ "_" else toReplace in
    strings.Replace result (camel initTrx) toReplace (-1)
  else
    let toReplace := upper initTrx in
    let toReplace := if snake then "_" ++ toReplace ++ "_" else toReplace in
    strings.Replace result (camel initTrx) toReplace (-1).

(** The body of the loop over [initialisms]. *)
Definition applyInitialism (initTrx : initialismTranslator) (lowerFirst snake : bool)
  (result : string) : flow :=
  match re initTrx with
  | None =>
      if snake then
        let toReplace := "_" ++ lower initTrx ++ "_" in
        let result := strings.Replace result (lower initTrx) toReplace (-1) in
        let result := strings.Replace result (upper initTrx) toReplace (-1) in
        Continue result
      else
        let result := lowerLeadingUpper initTrx lowerFirst result in
        Continue (replaceCamel initTrx lowerFirst snake result)
  | Some r =>
      match FindStringMatch r result with
      | Err e => Return (Err e)
      | Ok None => Continue result
      | Ok (Some match_) =>
          let startFrom := Index match_ in
          if lowerFirst && (startFrom =? 0) then
            (* the match starts the string: only this first occurrence is
               lower-cased *)
            match Replace r result (lower initTrx) 0 1 with
            | Err e => Return (Err e)
            | Ok result =>
                match FindNextMatch r match_ with
                | Err _ => Return (Ok "")
                | Ok None => Continue result
                | Ok (Some match_) => replaceFrom initTrx r snake result (Index match_)
                end
            end
          else replaceFrom initTrx r snake result startFrom
      end
  end.

(** [for _, initTrx := range initialisms { ... }] *)
Fixpoint applyInitialisms (rules : list initialismTranslator) (lowerFirst snake : bool)
  (result : string) : flow :=
  match rules with
  | [] => Continue result
  | initTrx :: rules' =>
      match applyInitialism initTrx lowerFirst snake result with
      | Continue result => applyInitialisms rules' lowerFirst snake result
      | Return r => Return r
      end
  end.

(** The snake-mode cleanup at the end of [normalizeInitialisms]. *)
Definition snakeCleanup (result : string) : string :=
  let result := strings.Replace result "__" "_" (-1) in
  strings.Trim result "_".

(** normalizeInitialisms takes a subject string and adapts the string
    according to the Go best practice naming convention for initialisms. *)
Definition normalizeInitialisms (original : string) (lowerFirst snake : bool)
  : Res string :=
  match applyInitialisms initialisms lowerFirst snake original with
  | Return r => r
  | Continue result =>
      Ok (if snake then snakeCleanup result else result)
  end.

(** The last step of [goName]: a Go keyword gets an underscore appended. *)
Definition guard (result : string) : string :=
  if strutil.InStrings result goKeywords then result ++ "_" else result.

(** [goName]; [Err e] is [panic(err)]. *)
Definition goName (original : string) (lowerFirst snake : bool) : Res string :=
  let result := original in
  let result := if negb lowerFirst then strcase.ToCamel result else result in
  result <- normalizeInitialisms result lowerFirst snake ;;
  result <- (if lowerFirst
             then normalizeInitialisms (strcase.ToLowerCamel result) lowerFirst snake
             else Ok result) ;;
  let result := if snake then strcase.ToSnake result else result in
  Ok (guard result).

(** New returns a Names containing variations of a supplied name *)
Definition New (original : string) : Res Names :=
  camel_ <- goName original false false ;;
  camelLower <- goName original true false ;;
  snake_ <- goName original false true ;;
  snake2 <- goName original false true ;;
  Ok {| Original := original;
        Camel := camel_;
        CamelLower := camelLower;
        Lower := strings.ToLower original;
        Snake := snake_;
        SnakeStripped := nonAlphaNumRegexp_ReplaceAllString snake2 "" |}.

(** *** The table of [TestNames] *)

Record testCase : Type := mkCase {
  tc_original : string;
  expectCamel : string;
  expectCamelLower : string;
  expectSnake : string;
  expectSnakeStripped : string
}.

Definition testCases : list testCase :=
  [
    mkCase "AIML" "AIML" "aiml" "aiml" "aiml";
    mkCase "Ami" "AMI" "ami" "ami" "ami";
    mkCase "Acm" "ACM" "acm" "acm" "acm";
    mkCase "AmiLaunchIndex" "AMILaunchIndex" "amiLaunchIndex" "ami_launch_index" "amilaunchindex";
    mkCase "Amis" "AMIs" "amis" "amis" "amis";
    mkCase "AmiType" "AMIType" "amiType" "ami_type" "amitype";
    mkCase "AwsVpcConfiguration" "AWSVPCConfiguration" "awsVPCConfiguration" "aws_vpc_configuration" "awsvpcconfiguration";
    mkCase "AWSVpcConfiguration" "AWSVPCConfiguration" "awsVPCConfiguration" "aws_vpc_configuration" "awsvpcconfiguration";
    mkCase "AWSVPCConfiguration" "AWSVPCConfiguration" "awsVPCConfiguration" "aws_vpc_configuration" "awsvpcconfiguration";
    mkCase "AwsvpcConfiguration" "AWSVPCConfiguration" "awsVPCConfiguration" "aws_vpc_configuration" "awsvpcconfiguration";
    mkCase "CacheSecurityGroup" "CacheSecurityGroup" "cacheSecurityGroup" "cache_security_group" "cachesecuritygroup";
    mkCase "Camila" "Camila" "camila" "camila" "camila";
    mkCase "AuthorizerResultTtlInSeconds" "AuthorizerResultTTLInSeconds" "authorizerResultTTLInSeconds" "authorizer_result_ttl_in_seconds" "authorizerresultttlinseconds";
    mkCase "DbInstanceId" "DBInstanceID" "dbInstanceID" "db_instance_id" "dbinstanceid";
    mkCase "DBInstanceId" "DBInstanceID" "dbInstanceID" "db_instance_id" "dbinstanceid";
    mkCase "DBInstanceID" "DBInstanceID" "dbInstanceID" "db_instance_id" "dbinstanceid";
    mkCase "DBInstanceIdentifier" "DBInstanceIdentifier" "dbInstanceIdentifier" "db_instance_identifier" "dbinstanceidentifier";
    mkCase "DbiResourceId" "DBIResourceID" "dbiResourceID" "dbi_resource_id" "dbiresourceid";
    mkCase "DpdTimeoutAction" "DPDTimeoutAction" "dpdTimeoutAction" "dpd_timeout_action" "dpdtimeoutaction";
    mkCase "Dynamic" "Dynamic" "dynamic" "dynamic" "dynamic";
    mkCase "Ecmp" "ECMP" "ecmp" "ecmp" "ecmp";
    mkCase "EdiPartyName" "EDIPartyName" "ediPartyName" "edi_party_name" "edipartyname";
    mkCase "Editable" "Editable" "editable" "editable" "editable";
    mkCase "Ena" "ENA" "ena" "ena" "ena";
    mkCase "Ecr" "ECR" "ecr" "ecr" "ecr";
    mkCase "Ecs" "ECS" "ecs" "ecs" "ecs";
    mkCase "Examine" "Examine" "examine" "examine" "examine";
    mkCase "Family" "Family" "family" "family" "family";
    mkCase "FifoTopic" "FIFOTopic" "fifoTopic" "fifo_topic" "fifotopic";
    mkCase "HttpsPort" "HTTPSPort" "httpsPort" "https_port" "httpsport";
    mkCase "HTTPSPort" "HTTPSPort" "httpsPort" "https_port" "httpsport";
    mkCase "Id" "ID" "id" "id" "id";
    mkCase "ID" "ID" "id" "id" "id";
    mkCase "Idle" "Idle" "idle" "idle" "idle";
    mkCase "IdempotencyToken" "IdempotencyToken" "idempotencyToken" "idempotency_token" "idempotencytoken";
    mkCase "Identifier" "Identifier" "identifier" "identifier" "identifier";
    mkCase "IoPerformance" "IOPerformance" "ioPerformance" "io_performance" "ioperformance";
    mkCase "Iops" "IOPS" "iops" "iops" "iops";
    mkCase "IPAddressType" "IPAddressType" "ipAddressType" "ip_address_type" "ipaddresstype";
    mkCase "IPSetType" "IPSetType" "ipSetType" "ip_set_type" "ipsettype";
    mkCase "Ip" "IP" "ip" "ip" "ip";
    mkCase "IPv4" "IPv4" "ipv4" "ipv_4" "ipv4";
    mkCase "Ipv4" "IPv4" "ipv4" "ipv_4" "ipv4";
    mkCase "IPv6" "IPv6" "ipv6" "ipv_6" "ipv6";
    mkCase "Ipv6" "IPv6" "ipv6" "ipv_6" "ipv6";
    mkCase "Ipam" "IPAM" "ipam" "ipam" "ipam";
    mkCase "Ipc" "IPC" "ipc" "ipc" "ipc";
    mkCase "Ja3" "JA3" "ja3" "ja_3" "ja3";
    mkCase "Frame" "Frame" "frame" "frame" "frame";
    mkCase "KeyId" "KeyID" "keyID" "key_id" "keyid";
    mkCase "KeyID" "KeyID" "keyID" "key_id" "keyid";
    mkCase "KeyIdentifier" "KeyIdentifier" "keyIdentifier" "key_identifier" "keyidentifier";
    mkCase "LdapServerMetadata" "LDAPServerMetadata" "ldapServerMetadata" "ldap_server_metadata" "ldapservermetadata";
    mkCase "MaxIdleConnectionsPercent" "MaxIdleConnectionsPercent" "maxIdleConnectionsPercent" "max_idle_connections_percent" "maxidleconnectionspercent";
    mkCase "MultipartUpload" "MultipartUpload" "multipartUpload" "multipart_upload" "multipartupload";
    mkCase "Nat" "NAT" "nat" "nat" "nat";
    mkCase "NatGateway" "NATGateway" "natGateway" "nat_gateway" "natgateway";
    mkCase "NativeAuditFieldsIncluded" "NativeAuditFieldsIncluded" "nativeAuditFieldsIncluded" "native_audit_fields_included" "nativeauditfieldsincluded";
    mkCase "NumberOfAmiToKeep" "NumberOfAMIToKeep" "numberOfAMIToKeep" "number_of_ami_to_keep" "numberofamitokeep";
    mkCase "OID" "OID" "oid" "oid" "oid";
    mkCase "Oid" "OID" "oid" "oid" "oid";
    mkCase "Oidc" "OIDC" "oidc" "oidc" "oidc";
    mkCase "OIDC" "OIDC" "oidc" "oidc" "oidc";
    mkCase "Package" "Package" "package_" "package_" "package";
    mkCase "Param" "Param" "param" "param" "param";
    mkCase "Pid" "PID" "pid" "pid" "pid";
    mkCase "Pca" "PCA" "pca" "pca" "pca";
    mkCase "Uid" "UID" "uid" "uid" "uid";
    mkCase "Uids" "UIDs" "uids" "uids" "uids";
    mkCase "Gids" "GIDs" "gids" "gids" "gids";
    mkCase "Grpc" "GRPC" "grpc" "grpc" "grpc";
    mkCase "Ram" "RAM" "ram" "ram" "ram";
    mkCase "RamdiskId" "RAMDiskID" "ramDiskID" "ram_disk_id" "ramdiskid";
    mkCase "RamDiskId" "RAMDiskID" "ramDiskID" "ram_disk_id" "ramdiskid";
    mkCase "RepositoryUriTest" "RepositoryURITest" "repositoryURITest" "repository_uri_test" "repositoryuritest";
    mkCase "RequestedAmiVersion" "RequestedAMIVersion" "requestedAMIVersion" "requested_ami_version" "requestedamiversion";
    mkCase "SaslScram512Auth" "SASLSCRAM512Auth" "saslSCRAM512Auth" "sasl_scram_512_auth" "saslscram512auth";
    mkCase "Secret" "Secret" "secret" "secret" "secret";
    mkCase "Secrets" "Secrets" "secrets" "secrets" "secrets";
    mkCase "Sns" "SNS" "sns" "sns" "sns";
    mkCase "Sqli" "SQLI" "sqli" "sqli" "sqli";
    mkCase "Sql" "SQL" "sql" "sql" "sql";
    mkCase "Sqs" "SQS" "sqs" "sqs" "sqs";
    mkCase "SriovNetSupport" "SRIOVNetSupport" "sriovNetSupport" "sriov_net_support" "sriovnetsupport";
    mkCase "SSEKMSKeyID" "SSEKMSKeyID" "sseKMSKeyID" "sse_kms_key_id" "ssekmskeyid";
    mkCase "Tpm" "TPM" "tpm" "tpm" "tpm";
    mkCase "TTL" "TTL" "ttl" "ttl" "ttl";
    mkCase "Throttle" "Throttle" "throttle" "throttle" "throttle";
    mkCase "Throttling" "Throttling" "throttling" "throttling" "throttling";
    mkCase "UUID" "UUID" "uuid" "uuid" "uuid";
    mkCase "Vlan" "VLAN" "vlan" "vlan" "vlan";
    mkCase "Xss" "XSS" "xss" "xss" "xss";
    mkCase "MiBps" "MiBps" "miBps" "mi_bps" "mibps";
    mkCase "LastDecreaseDateTime" "LastDecreaseDateTime" "lastDecreaseDateTime" "last_decrease_date_time" "lastdecreasedatetime";
    mkCase "NumberOfDecreasesToday" "NumberOfDecreasesToday" "numberOfDecreasesToday" "number_of_decreases_today" "numberofdecreasestoday"
  ].

Definition passes (tc : testCase) : bool :=
  match New (tc_original tc) with
  | Ok n =>
      String.eqb (expectCamel tc) (Camel n)
      && String.eqb (expectCamelLower tc) (CamelLower n)
      && String.eqb (expectSnake tc) (Snake n)
      && String.eqb (expectSnakeStripped tc) (SnakeStripped n)
  | Err _ => false
  end.

End names.

(** ** Package [scalar] *)

Module scalar.

Section Scalar.

(** A type that satisfies the constraint [Scalar], with its [==] and its
    zero value.  A pointer [*s] is [None] when nil, [Some v] when it points
    to [v]. *)
Variable s : Type.
Variable eqb : s -> s -> bool.
Variable zero : s.

(** EqualPStrict returns true if two given scalar pointers are strictly
    equal, meaning that they either have the same nility or the same value. *)
Definition EqualPStrict (x y : option s) : bool :=
  match x with
  | None => match y with None => true | Some _ => false end
  | Some vx =>
      match y with
      | None => false
      | Some vy => eqb vx vy
      end
  end.

(** EqualP returns true if two given scalars represent the same value: as
    EqualPStrict, but also true if one of the parameters is nil and the other
    points to the zero value. *)
Definition EqualP (x y : option s) : bool :=
  match x with
  | None =>
      match y with
      | None => true
      | Some vy => eqb vy zero
      end
  | Some vx =>
      match y with
      | None => eqb vx zero
      | Some vy => eqb vx vy
      end
  end.

End Scalar.

End scalar.

(** ** Package [util] *)

Module util.

(** EnsureSemverPrefix takes a semver string and tries to append the 'v'
    prefix if it's missing: all leading 'v' are trimmed, then one is put in
    front ([fmt.Sprintf("v%s", s)]). *)
Definition EnsureSemverPrefix (s : string) : string :=
  let s := strings.TrimLeft s "v" in
  "v" ++ s.

(** GetSDKVersion returns the version to use from the flag. *)
Definition GetSDKVersion (awsSDKGoVersion : string) : string := awsSDKGoVersion.

End util.

(** ** Package [fieldpath] *)

Module fieldpath.

(** A Go [[]string]: a window of [slen] elements, which can grow to [scap],
    on the backing array [sarr] of the heap, from index [soff] of it.  The
    nil slice has length and capacity 0. *)
Record slice : Type := mkSlice {
  sarr : nat;
  soff : nat;
  slen : nat;
  scap : nat
}.

(** The backing arrays that have been allocated, by number. *)
Definition heap : Type := list (list string).

Definition nil_slice : slice := mkSlice 0 0 0 0.

Definition backing (h : heap) (s : slice) : list string := nth (sarr s) h [].

(** The elements of a slice. *)
Definition elems (h : heap) (s : slice) : list string :=
  firstn (slen s) (skipn (soff s) (backing h s)).

(** [s[i]], for [i] below the length *)
Definition get (h : heap) (s : slice) (i : nat) : string :=
  nth (soff s + i) (backing h s) EmptyString.

(** [s[lo:hi]], for [lo <= hi <= cap(s)] *)
Definition reslice (s : slice) (lo hi : nat) : slice :=
  mkSlice (sarr s) (soff s + lo) (hi - lo) (scap s - lo).

Fixpoint set_nth (i : nat) (x : string) (l : list string) : list string :=
  match l, i with
  | [], _ => []
  | _ :: l', O => x :: l'
  | y :: l', S i' => y :: set_nth i' x l'
  end.

Fixpoint set_array (a : nat) (arr : list string) (h : heap) : heap :=
  match h, a with
  | [], _ => []
  | _ :: h', O => arr :: h'
  | b :: h', S a' => b :: set_array a' arr h'
  end.

Section Append.

(** The capacity that [append] chooses for a new backing array, from the old
    capacity and the length needed; Go leaves it to the implementation, and
    only promises that it is large enough. *)
Variable growcap : nat -> nat -> nat.

(** [append(s, x)]: within the capacity the element is written into the
    backing array of [s]; otherwise a new array is allocated and the elements
    are copied. *)
Definition append (h : heap) (s : slice) (x : string) : heap * slice :=
  if Nat.ltb (slen s) (scap s) then
    (set_array (sarr s) (set_nth (soff s + slen s) x (backing h s)) h,
     mkSlice (sarr s) (soff s) (S (slen s)) (scap s))
  else
    let newcap := growcap (scap s) (S (slen s)) in
    let arr := (elems h s ++ x :: repeat EmptyString (newcap - S (slen s)))%list in
    ((h ++ [arr])%list, mkSlice (List.length h) 0 (S (slen s)) newcap).

End Append.

(** Path provides a JSONPath-like struct and field-member "route" to a
    particular field within a resource.  The methods have a pointer receiver:
    a method that assigns to [p.parts] returns the new value of [*p]. *)
Record Path : Type := mkPath { parts : slice }.

(** String returns the dotted-notation representation of the Path *)
Definition String_ (h : heap) (p : Path) : string :=
  strings.Join (elems h (parts p)) ".".

(** Pop removes the last part from the Path and returns it. *)
Definition Pop (h : heap) (p : Path) : string * Path :=
  if Nat.ltb 0 (slen (parts p)) then
    (get h (parts p) (slen (parts p) - 1),
     mkPath (reslice (parts p) 0 (slen (parts p) - 1)))
  else (EmptyString, p).

(** At returns the part of the Path at the supplied index, or empty string
    if index exceeds boundary. *)
Definition At (h : heap) (p : Path) (index : Z) : string :=
  let n := Z.of_nat (slen (parts p)) in
  if (index <? 0) || (n =? 0) || (n - 1 <? index) then EmptyString
  else get h (parts p) (Z.to_nat index).

(** Front returns the first part of the Path or empty string if the Path has
    no parts. *)
Definition Front (h : heap) (p : Path) : string :=
  if Nat.eqb (slen (parts p)) 0 then EmptyString else get h (parts p) 0.

(** PopFront removes the first part of the Path and returns it. *)
Definition PopFront (h : heap) (p : Path) : string * Path :=
  if Nat.ltb 0 (slen (parts p)) then
    (get h (parts p) 0, mkPath (reslice (parts p) 1 (slen (parts p))))
  else (EmptyString, p).

(** Back returns the last part of the Path or empty string if the Path has
    no parts. *)
Definition Back (h : heap) (p : Path) : string :=
  if Nat.eqb (slen (parts p)) 0 then EmptyString
  else get h (parts p) (slen (parts p) - 1).

(** PushBack adds a new part to the end of the Path. *)
Definition PushBack (growcap : nat -> nat -> nat) (h : heap) (p : Path)
  (part : string) : heap * Path :=
  let r := append growcap h (parts p) part in
  (fst r, mkPath (snd r)).

(** Copy returns a new Path that is a copy of this Path: a new struct with
    the same slice. *)
Definition Copy (p : Path) : Path := mkPath (parts p).

(** CopyAt returns a new Path that is a copy of this Path up to the supplied
    index; [None] is nil. *)
Definition CopyAt (p : Path) (index : Z) : option Path :=
  let n := Z.of_nat (slen (parts p)) in
  if (index <? 0) || (n =? 0) || (n - 1 <? index) then None
  else Some (mkPath (reslice (parts p) 0 (Z.to_nat index + 1))).

(** Empty returns true if there are no parts to the Path *)
Definition Empty (p : Path) : bool := Nat.eqb (slen (parts p)) 0.

(** Size returns the Path number of parts *)
Definition Size (p : Path) : Z := Z.of_nat (slen (parts p)).

(** [for i, s := range subjectSplit { if p.parts[i] != s { return false } }] *)
Fixpoint prefix_loop (h : heap) (s : slice) (i : nat) (subjectSplit : list string)
  : bool :=
  match subjectSplit with
  | [] => true
  | x :: rest =>
      if negb (String.eqb (get h s i) x) then false
      else prefix_loop h s (S i) rest
  end.

(** HasPrefix returns true if the supplied string, delimited on ".", matches
    p.parts up to the length of the supplied string. *)
Definition HasPrefix (h : heap) (p : Path) (subject : string) : bool :=
  let subjectSplit := strings.Split subject "." in
  if Nat.ltb (slen (parts p)) (List.length subjectSplit) then false
  else prefix_loop h (parts p) 0 subjectSplit.

Section Fold.

(** [strings.EqualFold]: equality of two strings under Unicode simple case
    folding.  The folding tables are not part of the model. *)
Variable EqualFold : string -> string -> bool.

(** [for i, s := range subjectSplit {
       if !strings.EqualFold(p.parts[i], s) { return false } }] *)
Fixpoint prefix_fold_loop (h : heap) (s : slice) (i : nat)
  (subjectSplit : list string) : bool :=
  match subjectSplit with
  | [] => true
  | x :: rest =>
      if negb (EqualFold (get h s i) x) then false
      else prefix_fold_loop h s (S i) rest
  end.

(** HasPrefixFold is the same as HasPrefix but uses case-insensitive
    comparisons *)
Definition HasPrefixFold (h : heap) (p : Path) (subject : string) : bool :=
  let subjectSplit := strings.Split subject "." in
  if Nat.ltb (slen (parts p)) (List.length subjectSplit) then false
  else prefix_fold_loop h (parts p) 0 subjectSplit.

End Fold.

(** FromString returns a new Path from a dotted-notation string; the slice
    that [strings.Split] returns fills its backing array. *)
Definition FromString (h : heap) (dotted : string) : heap * Path :=
  let a := strings.Split dotted "." in
  ((h ++ [a])%list,
   mkPath (mkSlice (List.length h) 0 (List.length a) (List.length a))).

End fieldpath.

(** * Definitions used in the statements *)

Import names.
Import regexp2.

(** [s] without the bytes that are not ASCII letters or digits. *)
Fixpoint keepAlphaNum (s : string) : string :=
  match s with
  | EmptyString => EmptyString
  | String c s' => if isAlphaNum c then String c (keepAlphaNum s') else keepAlphaNum s'
  end.

(** What [goName] computes before the keyword guard. *)
Definition casing (original : string) (lowerFirst snake : bool) : Res string :=
  let result := if lowerFirst then original else strcase.ToCamel original in
  result <- normalizeInitialisms result lowerFirst snake ;;
  result <- (if lowerFirst
             then normalizeInitialisms (strcase.ToLowerCamel result) lowerFirst snake
             else Ok result) ;;
  Ok (if snake then strcase.ToSnake result else result).

(** The [i]-th rule of the table. *)
Definition rule (i : nat) : initialismTranslator :=
  nth i initialisms (mkTrx "" "" "" None).

(** [initTrx.re.FindStringMatch(s)] for the [i]-th rule, when it has a
    matcher. *)
Definition FindStringMatch_rule (i : nat) (s : string) : Res (option regexp2.Match) :=
  match re (rule i) with
  | Some r => regexp2.FindStringMatch r s
  | None => Ok None
  end.

(** The formula of the spec: the Pascal form is normalized first, re-cast by
    [ToLowerCamel], and normalized again with [lowerFirst]. *)
Definition spec_LowerCamel (raw : string) : Res string :=
  pascal <- normalizeInitialisms (strcase.ToCamel raw) false false ;;
  recast <- normalizeInitialisms (strcase.ToLowerCamel pascal) true false ;;
  Ok (guard recast).

(** What [goName] does for [lowerFirst]: the first pass of the normalizer
    runs on the raw name itself, with [lowerFirst] set. *)
Definition code_LowerCamel (raw : string) : Res string :=
  first_pass <- normalizeInitialisms raw true false ;;
  recast <- normalizeInitialisms (strcase.ToLowerCamel first_pass) true false ;;
  Ok (guard recast).

(** The formula of the spec: the guard applied to the snake-mode normalizer
    output, with no further re-casting. *)
Definition spec_Snake (raw : string) : Res string :=
  r <- normalizeInitialisms (strcase.ToCamel raw) false true ;;
  Ok (guard r).

(** What [goName] does for [snake]: the normalizer output goes through
    [strcase.ToSnake] before the guard. *)
Definition code_Snake (raw : string) : Res string :=
  r <- normalizeInitialisms (strcase.ToCamel raw) false true ;;
  Ok (guard (strcase.ToSnake r)).

(** The name "éId": the two bytes of U+00E9, then "Id". *)
Definition e_acute_Id : string := String "195" (String "169" "Id").

(** The runes of an ASCII literal. *)
Definition lit_runes (w : string) : list rune :=
  map byte_val (list_ascii_of_string w).

(** Does [rs] start with the runes [w]? *)
Fixpoint starts_with (w rs : list rune) : bool :=
  match w, rs with
  | [], _ => true
  | _ :: _, [] => false
  | c :: w', x :: rs' => (x =? c) && starts_with w' rs'
  end.



(** Every byte of [s] is below 128. *)
Fixpoint is_ascii (s : string) : bool :=
  match s with
  | EmptyString => true
  | String c s' => (byte_val c <? 128) && is_ascii s'
  end.

(** Every rune of [rs] is an ASCII character. *)
Definition runes_ascii (rs : list rune) : bool :=
  forallb (fun r => (0 <=? r) && (r <? 128)) rs.

(** The bytes of [s], as runes. *)
Fixpoint byte_runes (s : string) : list rune :=
  match s with
  | EmptyString => []
  | String c s' => byte_val c :: byte_runes s'
  end.

(** [rs] with the offsets [i], [i + 1], ... *)
Fixpoint enum (i : Z) (rs : list rune) : list (Z * rune) :=
  match rs with
  | [] => []
  | r :: rs' => (i, r) :: enum (i + 1) rs'
  end.

(** The number of runes that every match of [r] has, when all its matches
    have the same length. *)
Fixpoint width (r : regex) : option nat :=
  match r with
  | Eps => Some 0%nat
  | Chr _ | ChrI _ | Cls _ => Some 1%nat
  | Cat r1 r2 =>
      match width r1, width r2 with
      | Some w1, Some w2 => Some (w1 + w2)%nat
      | _, _ => None
      end
  | Alt r1 r2 =>
      match width r1, width r2 with
      | Some w1, Some w2 => if Nat.eqb w1 w2 then Some w1 else None
      | _, _ => None
      end
  | NotAhead _ => Some 0%nat
  | Group r1 => width r1
  end.

(** What the proof needs of a rule: ASCII forms, and a matcher all of whose
    matches are as long as the lower-case form. *)
Definition well_formed_rule (t : initialismTranslator) : bool :=
  is_ascii (lower t) && is_ascii (upper t)
  && match re t with
     | None => true
     | Some r =>
         match width r with
         | Some w => Nat.eqb w (String.length (lower t))
         | None => false
         end
     end.

(** The last byte of a string. *)
Fixpoint last_byte (s : string) : option ascii :=
  match s with
  | EmptyString => None
  | String c EmptyString => Some c
  | String _ s' => last_byte s'
  end.

(** The first byte of a string. *)
Definition first_byte (s : string) : option ascii :=
  match s with
  | EmptyString => None
  | String c _ => Some c
  end.

(** Every byte of [s] satisfies [P]. *)
Fixpoint all_bytes (P : ascii -> bool) (s : string) : bool :=
  match s with
  | EmptyString => true
  | String c s' => P c && all_bytes P s'
  end.

(** The delimiter of snake case. *)
Definition is_delim (c : ascii) : bool := Ascii.eqb c "_".

(** The bytes of a Go identifier: ASCII letters, digits and the underscore. *)
Definition is_ident_byte (c : ascii) : bool := isAlphaNum c || is_delim c.

(** The bytes of a snake-case name: lower-case ASCII letters, digits and the
    underscore. *)
Definition is_snake_byte (c : ascii) : bool := isLow c || isNum c || is_delim c.

(** No two adjacent delimiters in [s]. *)
Fixpoint no_double_delim (s : string) : bool :=
  match s with
  | String a (String b _ as s') =>
      negb (is_delim a && is_delim b) && no_double_delim s'
  | _ => true
  end.

(** No three adjacent delimiters in [s]. *)
Fixpoint no_triple_delim (s : string) : bool :=
  match s with
  | String a (String b (String c _) as s') =>
      negb (is_delim a && is_delim b && is_delim c) && no_triple_delim s'
  | _ => true
  end.

(** The forms of a rule that a pass of the normalizer can write, given its
    mode, are made of bytes that satisfy [P]. *)
Definition forms_ok (P : ascii -> bool) (lowerFirst snake : bool)
  (t : initialismTranslator) : bool :=
  if snake then P "_"%char && all_bytes P (lower t)
  else all_bytes P (upper t) && (if lowerFirst then all_bytes P (lower t) else true).

(** One pass of [strings.Replace(s, "__", "_", -1)]. *)
Definition collapse (s : string) : string := strings.replace_scan "__" "_" (-1) 0 s.

(** The runes of [rs] are ASCII characters whose bytes satisfy [P]. *)
Definition runes_sat (P : ascii -> bool) (rs : list rune) : bool :=
  forallb (fun r => (0 <=? r) && (r <? 128) && P (byte_of r)) rs.

(** (?![U|u])Ids, the matcher of the "Ids" rule, and its part after the
    lookahead *)
Definition idsRe : regex := Cat (NotAhead (Cls (one_of "U|u"))) (lit "Ids").

Definition idsCore : regex := lit "Ids".

(** (?!S|s|D|d)[Ee]cr(?!et|ease), the matcher of the "Ecr" rule, and its
    part after the first lookahead *)
Definition ecrCore : regex :=
  Cat (Cls (one_of "Ee")) (Cat (lit "cr") (NotAhead (Alt (lit "et") (lit "ease")))).

Definition ecrRe : regex :=
  Cat (NotAhead (Alt (lit "S") (Alt (lit "s") (Alt (lit "D") (lit "d"))))) ecrCore.

(** (?!Thro)((?i)ttl)(?!ing|e), the matcher of the "Ttl" rule, and its part
    after the first lookahead *)
Definition ttlCore : regex :=
  Cat (Group (lit_i "ttl")) (NotAhead (Alt (lit "ing") (lit "e"))).

Definition ttlRe : regex := Cat (NotAhead (lit "Thro")) ttlCore.

(** (?!sec)uri(?!ty)|(Uri), the matcher of the "Uri" rule, and the same
    without the first lookahead *)
Definition uriCore : regex := Cat (lit "uri") (NotAhead (lit "ty")).

Definition uriRe : regex :=
  Alt (Cat (NotAhead (lit "sec")) uriCore) (Group (lit "Uri")).

Definition uriRe_without_lookahead : regex := Alt uriCore (Group (lit "Uri")).

(** The number of bytes [c] in [s]. *)
Fixpoint count_byte (c : ascii) (s : string) : nat :=
  match s with
  | EmptyString => O
  | String d s' => if Ascii.eqb d c then S (count_byte c s') else count_byte c s'
  end.

(** A slice fits the heap: its capacity lies inside its backing array and
    its length inside its capacity. *)
Definition slice_ok (h : fieldpath.heap) (s : fieldpath.slice) : Prop :=
  (fieldpath.soff s + fieldpath.scap s <= List.length (fieldpath.backing h s))%nat
  /\ (fieldpath.slen s <= fieldpath.scap s)%nat.

(** The parts of a Path. *)
Definition parts_of (h : fieldpath.heap) (p : fieldpath.Path) : list string :=
  fieldpath.elems h (fieldpath.parts p).

(** A capacity policy like that of the Go runtime for small slices: twice
    the old capacity, or the length needed when that is more. *)
Definition double_cap (oldcap needed : nat) : nat := Nat.max needed (2 * oldcap).

(** The rule [t] finds nothing to replace in [s]. *)
Definition rule_idle (lowerFirst snake : bool) (s : string)
  (t : initialismTranslator) : bool :=
  match names.re t with
  | None =>
      if snake
      then (strings.Index s (lower t) =? -1) && (strings.Index s (upper t) =? -1)
      else (strings.Index s (camel t) =? -1)
           && negb (lowerFirst && (strings.Index s (upper t) =? 0))
  | Some r =>
      match FindStringMatch r s with
      | Ok None => true
      | _ => false
      end
  end.

(** The letters and digits of [s], in order, the letters in lower case:
    what a name spells, whatever its casing and its delimiters. *)
Fixpoint letters (s : string) : string :=
  match s with
  | EmptyString => EmptyString
  | String c s' =>
      if isAlphaNum c
      then String (if isCap c then lowerByte c else c) (letters s')
      else letters s'
  end.

(** What the one character [x] spells. *)
Definition letter_of (x : rune) : string := letters (String (byte_of x) "").

(** What every match of [r] spells, when all its matches spell the same. *)
Fixpoint word_of (r : regex) : option string :=
  match r with
  | Eps => Some EmptyString
  | Chr c => Some (letter_of c)
  | ChrI c => Some (letter_of c)
  | Cls ranges =>
      match ranges with
      | [] => None
      | (lo, _) :: _ =>
          if forallb (fun lh => (fst lh =? snd lh)
                                && String.eqb (letter_of (fst lh)) (letter_of lo))
               ranges
          then Some (letter_of lo) else None
      end
  | Cat r1 r2 =>
      match word_of r1, word_of r2 with
      | Some w1, Some w2 => Some (w1 ++ w2)
      | _, _ => None
      end
  | Alt r1 r2 =>
      match word_of r1, word_of r2 with
      | Some w1, Some w2 => if String.eqb w1 w2 then Some w1 else None
      | _, _ => None
      end
  | NotAhead _ => Some EmptyString
  | Group r1 => word_of r1
  end.

(** The three forms of a rule spell the same word, and so does whatever its
    matcher matches. *)
Definition same_letters (t : initialismTranslator) : bool :=
  String.eqb (letters (lower t)) (letters (upper t))
  && match names.re t with
     | None => String.eqb (letters (camel t)) (letters (upper t))
     | Some r =>
         match word_of r with
         | Some w => String.eqb w (letters (upper t))
         | None => false
         end
     end.

(** * Properties *)

(** ** Facts about [strings.Index] and [strings.Replace] *)

Section StringsFacts.

Variables old new : string.

Lemma index_from_bounds (s : string) (i : Z) :
  strings.index_from i s old = -1 \/ i <= strings.index_from i s old.
Proof.
  revert i; induction s as [|c s IH]; intros i; cbn [strings.index_from].
  - destruct (prefix old ""); [right; lia | left; reflexivity].
  - destruct (prefix old (String c s)); [right; lia|].
    destruct (IH (i + 1)) as [H|H]; [left; exact H | right; lia].
Qed.

Lemma index_from_absent (s : string) (i : Z) :
  0 <= i -> strings.index_from i s old = -1 ->
  strings.replace_scan old new (-1) 0 s = s.
Proof.
  revert i; induction s as [|c s IH]; intros i Hi H;
    cbn [strings.index_from strings.replace_scan] in *.
  - reflexivity.
  - change (-1 =? 0) with false; cbv iota.
    destruct (prefix old (String c s)); [lia|].
    f_equal. apply (IH (i + 1)); [lia | exact H].
Qed.

(** Without an instance of [old], [Replace] returns its argument. *)
Lemma Replace_absent (s : string) :
  strings.Index s old = -1 -> strings.Replace s old new (-1) = s.
Proof.
  unfold strings.Index, strings.Replace; intros H.
  pose proof (index_from_absent s 0 ltac:(lia) H) as R.
  destruct old; [reflexivity | exact R].
Qed.

Lemma Index_zero_prefix (s : string) :
  strings.Index s old = 0 -> prefix old s = true.
Proof.
  unfold strings.Index.
  destruct s as [|c s]; cbn [strings.index_from].
  - destruct (prefix old ""); [reflexivity | discriminate].
  - destruct (prefix old (String c s)); [reflexivity|].
    intros H. destruct (index_from_bounds s (0 + 1)) as [H'|H']; lia.
Qed.

Lemma replace_scan_done (k : nat) (s : string) :
  strings.replace_scan old new 0 k s = drop k s.
Proof.
  revert k; induction s as [|c s IH]; intros [|k]; simpl; auto.
Qed.

(** The first of the instances of [old], when it starts [s], is what
    [Replace] with a count of 1 replaces. *)
Lemma Replace_first_prefix (s : string) :
  old <> "" -> prefix old s = true ->
  strings.Replace s old new 1 = new ++ drop (String.length old) s.
Proof.
  intros Hne Hp. unfold strings.Replace.
  pose proof replace_scan_done as D.
  destruct old as [|o old']; [congruence|].
  destruct s as [|c s]; [discriminate Hp|].
  cbn [strings.replace_scan]. rewrite Hp.
  change (1 =? 0) with false. cbv iota.
  change (1 - 1) with 0. rewrite D. reflexivity.
Qed.

End StringsFacts.

(** ** Removing what is not a letter or a digit *)

Lemma replace_runs_empty (b : bool) (s : string) :
  replace_runs "" b s = keepAlphaNum s.
Proof.
  revert b; induction s as [|c s IH]; intros b; simpl; [reflexivity|].
  destruct (isAlphaNum c); [now rewrite IH|].
  destruct b; simpl; apply IH.
Qed.

Lemma keepAlphaNum_sound (s : string) (c : ascii) :
  In c (list_ascii_of_string (keepAlphaNum s)) -> isAlphaNum c = true.
Proof.
  induction s as [|d s IH]; simpl; [tauto|].
  destruct (isAlphaNum d) eqn:E; simpl; [|exact IH].
  intros [<-|H]; [exact E | exact (IH H)].
Qed.

(** ** The repository's test table *)

(** Every row of the table of [TestNames] holds of the model. *)
Lemma TestNames : forallb passes testCases = true.
Proof. vm_compute. reflexivity. Qed.

(** ** The orchestrator *)

Lemma goName_casing (original : string) (lowerFirst snake : bool) :
  goName original lowerFirst snake =
  (result <- casing original lowerFirst snake ;; Ok (guard result)).
Proof.
  unfold goName, casing.
  destruct lowerFirst; simpl;
    match goal with
    | |- context [normalizeInitialisms ?a ?b ?c] =>
        destruct (normalizeInitialisms a b c) as [r1|e1]; simpl; [|reflexivity]
    end; try reflexivity.
  destruct (normalizeInitialisms (strcase.ToLowerCamel r1) true snake); reflexivity.
Qed.

(** The fields of a value returned by [New]. *)
Lemma New_fields (original : string) (n : Names) :
  New original = Ok n ->
  goName original false false = Ok (Camel n)
  /\ goName original true false = Ok (CamelLower n)
  /\ goName original false true = Ok (Snake n)
  /\ SnakeStripped n = nonAlphaNumRegexp_ReplaceAllString (Snake n) ""
  /\ Lower n = strings.ToLower original
  /\ Original n = original.
Proof.
  unfold New.
  destruct (goName original false false) as [c|e]; simpl; [|discriminate].
  destruct (goName original true false) as [cl|e]; simpl; [|discriminate].
  destruct (goName original false true) as [sn|e]; simpl; [|discriminate].
  intros H; injection H as <-; simpl. repeat split.
Qed.

Lemma InStrings_In (subject : string) (collection : list string) :
  strutil.InStrings subject collection = true <-> In subject collection.
Proof.
  induction collection as [|item l IH]; simpl.
  - split; [discriminate | tauto].
  - destruct (String.eqb_spec subject item) as [->|Hne].
    + split; auto.
    + rewrite IH. split; [auto | intros [H|H]; [congruence | exact H]].
Qed.

(** ** C1: the lower-camel variant *)

(** C1 (as stated) fails: for "DbInstanceId" [New] gives the CamelLower
    "dbInstanceID" that [TestNames] expects, the formula of the spec gives
    "dBInstanceID". *)
Lemma C1_formula_fails_on_DbInstanceId :
  exists n, New "DbInstanceId" = Ok n
            /\ CamelLower n = "dbInstanceID"
            /\ spec_LowerCamel "DbInstanceId" = Ok "dBInstanceID"
            /\ Ok (CamelLower n) <> spec_LowerCamel "DbInstanceId".
Proof.
  eexists. split; [vm_compute; reflexivity|].
  split; [vm_compute; reflexivity|].
  split; [vm_compute; reflexivity|].
  vm_compute. discriminate.
Qed.

(** C1 (amended): for every raw name for which [New] returns, CamelLower is
    guard(normalize(toLowerCamel(normalize(raw, lowerFirst=true, snake=false)),
    lowerFirst=true, snake=false)): both passes of the normalizer run with
    lowerFirst=true, and the first runs on the raw name, not on its Pascal
    form. *)
Theorem C1_lower_camel_two_pass (raw : string) (n : Names) :
  New raw = Ok n -> Ok (CamelLower n) = code_LowerCamel raw.
Proof.
  intros H. apply New_fields in H. destruct H as (_ & H & _).
  rewrite <- H. unfold goName, code_LowerCamel. simpl.
  destruct (normalizeInitialisms raw true false) as [r1|e]; simpl; [|reflexivity].
  destruct (normalizeInitialisms (strcase.ToLowerCamel r1) true false); reflexivity.
Qed.

Lemma C1_lower_camel_two_pass_at_DbInstanceId :
  exists n, New "DbInstanceId" = Ok n
            /\ Ok (CamelLower n) = code_LowerCamel "DbInstanceId".
Proof.
  eexists. split; [vm_compute; reflexivity|].
  apply (C1_lower_camel_two_pass "DbInstanceId"). vm_compute. reflexivity.
Defined.

(** ** C2: the snake variant *)

(** C2 (as stated) fails: for "DbInstanceId" [New] gives the Snake
    "db_instance_id", the formula of the spec gives "db_Instance_id". *)
Lemma C2_formula_fails_on_DbInstanceId :
  exists n, New "DbInstanceId" = Ok n
            /\ Snake n = "db_instance_id"
            /\ spec_Snake "DbInstanceId" = Ok "db_Instance_id"
            /\ Ok (Snake n) <> spec_Snake "DbInstanceId".
Proof.
  eexists. split; [vm_compute; reflexivity|].
  split; [vm_compute; reflexivity|].
  split; [vm_compute; reflexivity|].
  vm_compute. discriminate.
Qed.

(** C2 (amended): for every raw name for which [New] returns, Snake is
    guard(toSnake(normalize(toPascal(raw), lowerFirst=false, snake=true))):
    after the normalizer's own delimiter cleanup the string is re-cast by the
    generic snake transform [strcase.ToSnake], and then guarded. *)
Theorem C2_snake_recast (raw : string) (n : Names) :
  New raw = Ok n -> Ok (Snake n) = code_Snake raw.
Proof.
  intros H. apply New_fields in H. destruct H as (_ & _ & H & _).
  rewrite <- H. unfold goName, code_Snake. simpl.
  destruct (normalizeInitialisms (strcase.ToCamel raw) false true); reflexivity.
Qed.

Lemma C2_snake_recast_at_DbInstanceId :
  exists n, New "DbInstanceId" = Ok n
            /\ Ok (Snake n) = code_Snake "DbInstanceId".
Proof.
  eexists. split; [vm_compute; reflexivity|].
  apply (C2_snake_recast "DbInstanceId"). vm_compute. reflexivity.
Defined.

(** ** C3: the snake-mode cleanup *)

(** C3 (evaluation at the failing input): in snake mode the rules turn
    "AWSVPCIPAddress" into "__aws__vpc___ip_address_" ("IPAddress" and
    "AWSVPC" are delimited first, then "aws" and "VPC" inside the latter);
    the single pass of [Replace "__" "_"] leaves two of the three adjacent
    underscores, so the result of the normalizer, and the Snake variant of
    [New], contain "__".  The same happens to three underscores of the
    input. *)
Theorem C3_cleanup_leaves_double_delimiter :
  applyInitialisms initialisms false true "AWSVPCIPAddress"
  = Continue "__aws__vpc___ip_address_"
  /\ snakeCleanup "__aws__vpc___ip_address_" = "aws_vpc__ip_address"
  /\ normalizeInitialisms "AWSVPCIPAddress" false true = Ok "aws_vpc__ip_address"
  /\ strings.Index "aws_vpc__ip_address" "__" = 7
  /\ (exists n, New "AWSVPCIPAddress" = Ok n /\ Snake n = "aws_vpc__ip_address")
  /\ normalizeInitialisms "a___b" false true = Ok "a__b".
Proof.
  repeat split; try (vm_compute; reflexivity).
  eexists; split; vm_compute; reflexivity.
Qed.

(** What the cleanup does achieve: no delimiter at either end. *)
Lemma TrimLeft_first (s cutset : string) (c : ascii) :
  first_byte (strings.TrimLeft s cutset) = Some c ->
  strings.mem_byte c cutset = false.
Proof.
  induction s as [|d s IH]; cbn [strings.TrimLeft]; [discriminate|].
  destruct (strings.mem_byte d cutset) eqn:E; [exact IH|].
  intros H; injection H as <-. exact E.
Qed.

Lemma TrimRight_first (s cutset : string) (c : ascii) :
  first_byte (strings.TrimRight s cutset) = Some c -> first_byte s = Some c.
Proof.
  destruct s as [|d s]; cbn [strings.TrimRight]; [discriminate|].
  destruct (strings.TrimRight s cutset).
  - destruct (strings.mem_byte d cutset); [discriminate | exact (fun H => H)].
  - exact (fun H => H).
Qed.

Lemma TrimRight_last (s cutset : string) (c : ascii) :
  last_byte (strings.TrimRight s cutset) = Some c ->
  strings.mem_byte c cutset = false.
Proof.
  induction s as [|d s IH]; cbn [strings.TrimRight]; [discriminate|].
  destruct (strings.TrimRight s cutset) as [|e r].
  - destruct (strings.mem_byte d cutset) eqn:E; [discriminate|].
    intros H; injection H as <-. exact E.
  - exact IH.
Qed.

Lemma applyInitialism_return (t : initialismTranslator) (lowerFirst snake : bool)
  (s : string) (r : Res string) :
  applyInitialism t lowerFirst snake s = Return r ->
  r = Ok "" \/ exists e, r = Err e.
Proof.
  unfold applyInitialism, replaceFrom.
  repeat match goal with
         | |- context [match ?x with _ => _ end] => destruct x
         end;
    intros H; try discriminate; inversion H; subst; eauto.
Qed.

Lemma applyInitialisms_return (rules : list initialismTranslator)
  (lowerFirst snake : bool) (s : string) (r : Res string) :
  applyInitialisms rules lowerFirst snake s = Return r ->
  r = Ok "" \/ exists e, r = Err e.
Proof.
  revert s; induction rules as [|t rules IH]; intros s; cbn [applyInitialisms];
    [discriminate|].
  destruct (applyInitialism t lowerFirst snake s) as [s'|r'] eqn:E.
  - apply IH.
  - intros H; injection H as <-. exact (applyInitialism_return _ _ _ _ _ E).
Qed.

(** In snake mode the result of the normalizer neither starts nor ends with
    a delimiter. *)
Lemma normalizeInitialisms_snake_trimmed (s r : string) (lowerFirst : bool) :
  normalizeInitialisms s lowerFirst true = Ok r ->
  first_byte r <> Some "_"%char /\ last_byte r <> Some "_"%char.
Proof.
  unfold normalizeInitialisms.
  destruct (applyInitialisms initialisms lowerFirst true s) as [s'|r'] eqn:E.
  - intros H; injection H as <-. unfold snakeCleanup, strings.Trim. split.
    + intros H. apply TrimRight_first in H. apply TrimLeft_first in H.
      discriminate H.
    + intros H. apply TrimRight_last in H. discriminate H.
  - intros ->. apply applyInitialisms_return in E.
    destruct E as [E|[e E]]; [|discriminate].
    injection E as ->. split; discriminate.
Qed.

(** ** C5: rule order *)


(** ** C7: the stripped snake variant *)

(** C7: for every raw name for which [New] returns, SnakeStripped is Snake
    without the bytes that are not ASCII letters or digits; no byte of
    SnakeStripped is anything else (so no underscore is left, that of the
    keyword guard included). *)
Theorem C7_snake_stripped (raw : string) (n : Names) :
  New raw = Ok n ->
  SnakeStripped n = keepAlphaNum (Snake n)
  /\ forall c, In c (list_ascii_of_string (SnakeStripped n)) -> isAlphaNum c = true.
Proof.
  intros H. apply New_fields in H. destruct H as (_ & _ & _ & H & _).
  assert (E : SnakeStripped n = keepAlphaNum (Snake n)).
  { rewrite H. apply replace_runs_empty. }
  split; [exact E|].
  rewrite E. intros c. apply keepAlphaNum_sound.
Qed.

Lemma C7_snake_stripped_at_Package :
  exists n, New "Package" = Ok n
            /\ Snake n = "package_"
            /\ SnakeStripped n = "package"
            /\ SnakeStripped n = keepAlphaNum (Snake n).
Proof.
  eexists. split; [vm_compute; reflexivity|].
  split; [reflexivity|]. split; [reflexivity|].
  apply (C7_snake_stripped "Package"). vm_compute. reflexivity.
Defined.

(** ** C8: the reserved-word guard *)

(** C8: [guard] appends one underscore to a Go keyword and returns every
    other string unchanged; [goName] applies it last, to the output of the
    casing pipeline; New("Package") has CamelLower "package_" and Snake
    "package_". *)
Theorem C8_reserved_word_guard :
  (forall s, In s goKeywords -> guard s = s ++ "_")
  /\ (forall s, ~ In s goKeywords -> guard s = s)
  /\ (forall raw lowerFirst snake,
         goName raw lowerFirst snake =
         (s <- casing raw lowerFirst snake ;; Ok (guard s)))
  /\ (exists n, New "Package" = Ok n
                /\ CamelLower n = "package_" /\ Snake n = "package_").
Proof.
  split; [|split; [|split]].
  - intros s H. unfold guard.
    apply InStrings_In in H. rewrite H. reflexivity.
  - intros s H. unfold guard.
    destruct (strutil.InStrings s goKeywords) eqn:E; [|reflexivity].
    apply InStrings_In in E. contradiction.
  - exact goName_casing.
  - eexists. split; [vm_compute; reflexivity|]. split; reflexivity.
Qed.

Lemma C8_reserved_word_guard_at_package :
  In "package" goKeywords /\ guard "package" = "package_".
Proof.
  assert (H : In "package" goKeywords).
  { apply InStrings_In. vm_compute. reflexivity. }
  split; [exact H|].
  exact (proj1 C8_reserved_word_guard "package" H).
Defined.

(** ** C9: totality *)

(** C9 (evaluation at the failing input): with [lowerFirst], the "Id" rule
    matches "éId" at rune index 1; [goName] passes that rune index to
    [Replace], which reads it as a byte offset; byte 1 is inside the encoding
    of "é", [Replace] returns an error and [goName] panics. *)
Theorem C9_New_panics_on_non_ascii :
  (exists m, FindStringMatch_rule 1 e_acute_Id = Ok (Some m) /\ regexp2.Index m = 1)
  /\ applyInitialism (rule 1) true false e_acute_Id = Return (Err ErrStartAtNotAligned)
  /\ goName e_acute_Id true false = Err ErrStartAtNotAligned
  /\ New e_acute_Id = Err ErrStartAtNotAligned.
Proof.
  split; [eexists; split; vm_compute; reflexivity|].
  repeat split; vm_compute; reflexivity.
Qed.

(** ** The matcher of the "Id" rule *)

Section Matcher.

Import regexp2.

(** A literal matches exactly where the text starts with it. *)
Lemma bt_lit (w : string) (rs : list rune) (k : list rune -> option (list rune)) :
  bt (lit w) rs k =
  if starts_with (lit_runes w) rs then k (skipn (String.length w) rs) else None.
Proof.
  revert rs k; induction w as [|c w IH]; intros rs k; [reflexivity|].
  destruct w as [|d w].
  - destruct rs as [|x rs]; [reflexivity|]. cbn.
    rewrite andb_true_r. reflexivity.
  - change (lit (String c (String d w)))
      with (Cat (Chr (byte_val c)) (lit (String d w))).
    cbn [bt]. destruct rs as [|x rs]; [reflexivity|].
    rewrite IH.
    change (starts_with (lit_runes (String c (String d w))) (x :: rs))
      with ((x =? byte_val c) && starts_with (lit_runes (String d w)) rs).
    destruct (x =? byte_val c); reflexivity.
Qed.



End Matcher.

(** ** C10: a leading upper-case form *)

(** C10: in non-snake mode with [lowerFirst], when the working string starts
    with the upper-case form of a matcher-less rule, the rule replaces that
    one leading occurrence by the lower-case form before it looks for the
    CamelCased form, and the result is just that when the CamelCased form
    does not occur.  New("AIML") has CamelLower "aiml" and New("SSEKMSKeyID")
    has CamelLower "sseKMSKeyID". *)
Theorem C10_leading_upper_form_lowered :
  (forall (t : initialismTranslator) (s : string),
      re t = None -> upper t <> "" -> strings.Index s (upper t) = 0 ->
      let s' := lower t ++ drop (String.length (upper t)) s in
      lowerLeadingUpper t true s = s'
      /\ applyInitialism t true false s = Continue (replaceCamel t true false s')
      /\ (strings.Index s' (camel t) = -1 ->
          applyInitialism t true false s = Continue s'))
  /\ (exists n, New "AIML" = Ok n /\ CamelLower n = "aiml")
  /\ (exists n, New "SSEKMSKeyID" = Ok n /\ CamelLower n = "sseKMSKeyID").
Proof.
  split.
  - intros t s Hre Hne Hidx s'.
    assert (E : lowerLeadingUpper t true s = s').
    { unfold lowerLeadingUpper. rewrite Hidx. simpl.
      apply Replace_first_prefix; [exact Hne|].
      apply Index_zero_prefix. exact Hidx. }
    assert (A : applyInitialism t true false s
                = Continue (replaceCamel t true false s')).
    { unfold applyInitialism. rewrite Hre, E. reflexivity. }
    split; [exact E|]. split; [exact A|].
    intros Habs. rewrite A. unfold replaceCamel. rewrite Habs. reflexivity.
  - split; eexists; split; vm_compute; reflexivity.
Qed.

Lemma C10_leading_upper_form_lowered_at_SSEKMSKeyID :
  applyInitialism (mkTrx "Sse" "SSE" "sse" None) true false "SSEKMSKeyID"
  = Continue "sseKMSKeyID".
Proof.
  refine (proj2 (proj2 (proj1 C10_leading_upper_form_lowered
                          (mkTrx "Sse" "SSE" "sse" None) "SSEKMSKeyID"
                          eq_refl _ _)) _).
  - simpl. discriminate.
  - vm_compute. reflexivity.
  - vm_compute. reflexivity.
Defined.

(** ** C4: the leading-word exception *)



(** ** C6: the exclusions of the "Id" rule *)



(** ** Where [New] does return

    The panic above needs a rune that takes more than one byte.  On ASCII
    names byte offsets and rune indices agree, every [Replace] gets an offset
    inside its input, and [New] returns.  The variants computed without
    [lowerFirst] go through [strcase.ToCamel] first, which drops every byte
    that is not an ASCII letter or digit: they are computed for every
    string. *)

Lemma is_ascii_app (a b : string) :
  is_ascii (a ++ b) = is_ascii a && is_ascii b.
Proof.
  induction a as [|c a IH]; simpl; [reflexivity|].
  rewrite IH. apply andb_assoc.
Qed.

Lemma byte_val_range (c : ascii) : 0 <= byte_val c < 256.
Proof.
  unfold byte_val. pose proof (N_ascii_bounded c). lia.
Qed.

Lemma byte_val_byte_of (z : Z) : 0 <= z < 256 -> byte_val (byte_of z) = z.
Proof.
  intros H. unfold byte_val, byte_of.
  rewrite N_ascii_embedding by lia. lia.
Qed.

Section ReplacePreservesAscii.

Variables old new : string.
Hypothesis new_ascii : is_ascii new = true.

Lemma replace_scan_ascii (s : string) (n : Z) (k : nat) :
  is_ascii s = true -> is_ascii (strings.replace_scan old new n k s) = true.
Proof.
  revert n k; induction s as [|c s IH]; intros n k Hs; [reflexivity|].
  cbn [strings.replace_scan].
  pose proof Hs as Hs'. simpl in Hs'. apply andb_true_iff in Hs'.
  destruct Hs' as [Hc Hrest].
  destruct k as [|k]; [|now apply IH].
  destruct (n =? 0); [exact Hs|].
  destruct (prefix old (String c s)).
  - rewrite is_ascii_app, new_ascii. now apply IH.
  - simpl. rewrite Hc. now apply IH.
Qed.

Lemma strings_Replace_ascii (s : string) (n : Z) :
  is_ascii s = true -> is_ascii (strings.Replace s old new n) = true.
Proof.
  intros Hs. unfold strings.Replace.
  pose proof (replace_scan_ascii s n 0 Hs) as R.
  destruct old; [exact Hs | exact R].
Qed.

End ReplacePreservesAscii.

(** The output of the caser only has letters and digits. *)
Lemma upperByte_ascii (v : ascii) :
  isLow v = true -> (byte_val (upperByte v) <? 128) = true.
Proof.
  unfold isLow, in_range, upperByte. intros H.
  apply andb_true_iff in H. destruct H as [H1 H2].
  apply Z.leb_le in H1, H2.
  rewrite Z.mod_small by lia. rewrite byte_val_byte_of by lia.
  apply Z.ltb_lt. lia.
Qed.

Lemma lowerByte_ascii (v : ascii) :
  isCap v = true -> (byte_val (lowerByte v) <? 128) = true.
Proof.
  unfold isCap, in_range, lowerByte. intros H.
  apply andb_true_iff in H. destruct H as [H1 H2].
  apply Z.leb_le in H1, H2.
  rewrite Z.mod_small by lia. rewrite byte_val_byte_of by lia.
  apply Z.ltb_lt. lia.
Qed.

Lemma in_range_ascii (lo hi : Z) (v : ascii) :
  hi < 128 -> in_range lo hi (byte_val v) = true -> (byte_val v <? 128) = true.
Proof.
  unfold in_range. intros Hhi H. apply andb_true_iff in H.
  destruct H as [_ H]. apply Z.leb_le in H. apply Z.ltb_lt. lia.
Qed.

Lemma camel_loop_ascii (s : string) (capNext first : bool) :
  is_ascii (strcase.camel_loop capNext first s) = true.
Proof.
  revert capNext first; induction s as [|v s IH]; intros capNext first;
    [reflexivity|].
  cbn [strcase.camel_loop].
  assert (V : isCap v || isLow v || isNum v = true ->
              (byte_val
                 (if capNext then if isLow v then upperByte v else v
                  else if first then if isCap v then lowerByte v else v else v)
               <? 128) = true).
  { intros K.
    assert (Hv : (byte_val v <? 128) = true).
    { apply orb_true_iff in K. destruct K as [K|K];
        [apply orb_true_iff in K; destruct K as [K|K]|];
        revert K; apply in_range_ascii; lia. }
    destruct capNext.
    - destruct (isLow v) eqn:E; [now apply upperByte_ascii | exact Hv].
    - destruct first; [|exact Hv].
      destruct (isCap v) eqn:E; [now apply lowerByte_ascii | exact Hv]. }
  destruct (isCap v || isLow v) eqn:E1.
  - simpl. rewrite V, IH; [reflexivity | reflexivity].
  - destruct (isNum v) eqn:E2; [|apply IH].
    simpl. rewrite V, IH; [reflexivity | apply orb_true_r].
Qed.

Lemma toCamelInitCase_ascii (s : string) (initCase : bool) :
  is_ascii (strcase.toCamelInitCase s initCase) = true.
Proof.
  unfold strcase.toCamelInitCase.
  destruct (String.eqb_spec (strings.TrimSpace s) "") as [->|_]; [reflexivity|].
  apply camel_loop_ascii.
Qed.

Section AsciiMatching.

Import regexp2.

(** In an ASCII string every byte is a rune. *)
Lemma range_from_ascii (s : string) (i : Z) :
  is_ascii s = true -> utf8.range_from 0 i s = enum i (byte_runes s).
Proof.
  revert i; induction s as [|c s IH]; intros i Hs; [reflexivity|].
  simpl in Hs. apply andb_true_iff in Hs. destruct Hs as [Hc Hs].
  cbn [utf8.range_from utf8.DecodeRuneInString byte_runes enum].
  rewrite Hc. cbn [pred]. rewrite IH by exact Hs. reflexivity.
Qed.

Lemma map_snd_enum (rs : list rune) (i : Z) : map snd (enum i rs) = rs.
Proof.
  revert i; induction rs as [|r rs IH]; intros i; simpl; [|rewrite IH]; reflexivity.
Qed.

Lemma length_enum (rs : list rune) (i : Z) :
  List.length (enum i rs) = List.length rs.
Proof.
  revert i; induction rs as [|r rs IH]; intros i; simpl; [|rewrite IH]; reflexivity.
Qed.

Lemma length_byte_runes (s : string) :
  List.length (byte_runes s) = String.length s.
Proof.
  induction s as [|c s IH]; simpl; [|rewrite IH]; reflexivity.
Qed.

Lemma runes_of_ascii (s : string) :
  is_ascii s = true -> runes_of_string s = byte_runes s.
Proof.
  intros Hs. unfold runes_of_string, utf8.range.
  rewrite range_from_ascii by exact Hs. apply map_snd_enum.
Qed.

Lemma byte_runes_ascii (s : string) :
  is_ascii s = true -> runes_ascii (byte_runes s) = true.
Proof.
  induction s as [|c s IH]; simpl; [reflexivity|].
  intros H. apply andb_true_iff in H. destruct H as [Hc Hs].
  rewrite Hc, (IH Hs). pose proof (byte_val_range c).
  replace (0 <=? byte_val c) with true by (symmetry; apply Z.leb_le; lia).
  reflexivity.
Qed.

(** A byte offset inside an ASCII string is the rune index. *)
Lemma rune_index_enum (rs : list rune) (startAt i acc : Z) :
  rune_index (enum i rs) startAt i acc =
  if (i <=? startAt) && (startAt <? i + Z.of_nat (List.length rs))
  then startAt else acc.
Proof.
  revert i acc; induction rs as [|r rs IH]; intros i acc.
  - simpl. destruct (i <=? startAt) eqn:E1; destruct (startAt <? i + 0) eqn:E2;
      try reflexivity.
    apply Z.leb_le in E1. apply Z.ltb_lt in E2. lia.
  - cbn [enum rune_index]. rewrite IH.
    destruct (i =? startAt) eqn:E.
    + apply Z.eqb_eq in E. subst i.
      replace (startAt + 1 <=? startAt) with false by (symmetry; apply Z.leb_gt; lia).
      replace (startAt <=? startAt) with true by (symmetry; apply Z.leb_le; lia).
      replace (startAt <? startAt + Z.of_nat (List.length (r :: rs))) with true
        by (symmetry; apply Z.ltb_lt; cbn [List.length]; lia).
      reflexivity.
    + apply Z.eqb_neq in E.
      destruct (i + 1 <=? startAt) eqn:E1;
        destruct (startAt <? i + 1 + Z.of_nat (List.length rs)) eqn:E2;
        destruct (i <=? startAt) eqn:E3;
        destruct (startAt <? i + Z.of_nat (List.length (r :: rs))) eqn:E4;
        try reflexivity; exfalso;
        rewrite ?Z.leb_le, ?Z.leb_gt, ?Z.ltb_lt, ?Z.ltb_ge in *;
        cbn [List.length] in *; lia.
Qed.

Lemma getRunesAndStart_ascii (s : string) (startAt : Z) :
  is_ascii s = true -> 0 <= startAt <= len s ->
  getRunesAndStart s startAt = (byte_runes s, startAt).
Proof.
  intros Hs Hk. unfold getRunesAndStart, utf8.range.
  replace (startAt <? 0) with false by (symmetry; apply Z.ltb_ge; lia).
  rewrite range_from_ascii by exact Hs.
  rewrite map_snd_enum, rune_index_enum, length_enum, length_byte_runes.
  fold (len s).
  destruct (startAt =? len s) eqn:E.
  - apply Z.eqb_eq in E. now rewrite E.
  - apply Z.eqb_neq in E.
    replace (0 <=? startAt) with true by (symmetry; apply Z.leb_le; lia).
    replace (startAt <? 0 + len s) with true by (symmetry; apply Z.ltb_lt; lia).
    reflexivity.
Qed.

Lemma FindStringMatchStartingAt_ascii (re : regex) (s : string) (startAt : Z) :
  is_ascii s = true -> 0 <= startAt <= len s ->
  FindStringMatchStartingAt re s startAt = Ok (run re startAt (byte_runes s)).
Proof.
  intros Hs Hk. unfold FindStringMatchStartingAt.
  replace (len s <? startAt) with false by (symmetry; apply Z.ltb_ge; lia).
  rewrite getRunesAndStart_ascii by assumption.
  replace (startAt =? -1) with false by (symmetry; apply Z.eqb_neq; lia).
  reflexivity.
Qed.

(** *** The text written by [Replace] *)

Lemma EncodeRune_ascii (r : rune) :
  0 <= r < 128 -> utf8.EncodeRune r = String (byte_of r) "".
Proof.
  intros H. unfold utf8.EncodeRune, in_range.
  replace (r <? 0) with false by (symmetry; apply Z.ltb_ge; lia).
  replace (1114111 <? r) with false by (symmetry; apply Z.ltb_ge; lia).
  replace (55296 <=? r) with false by (symmetry; apply Z.leb_gt; lia).
  cbn [orb andb].
  replace (r <? 128) with true by (symmetry; apply Z.ltb_lt; lia).
  reflexivity.
Qed.

Lemma runes_ascii_cons (r : rune) (rs : list rune) :
  runes_ascii (r :: rs) = true -> 0 <= r < 128 /\ runes_ascii rs = true.
Proof.
  unfold runes_ascii. cbn [forallb]. intros H.
  apply andb_true_iff in H. destruct H as [H1 H2].
  apply andb_true_iff in H1. destruct H1 as [H0 H1].
  apply Z.leb_le in H0. apply Z.ltb_lt in H1. auto.
Qed.

Lemma string_of_runes_ascii (rs : list rune) :
  runes_ascii rs = true ->
  is_ascii (string_of_runes rs) = true
  /\ String.length (string_of_runes rs) = List.length rs.
Proof.
  induction rs as [|r rs IH]; intros H; [split; reflexivity|].
  apply runes_ascii_cons in H. destruct H as [Hr Hrs].
  destruct (IH Hrs) as [IH1 IH2].
  cbn [string_of_runes]. rewrite EncodeRune_ascii by exact Hr.
  simpl. rewrite byte_val_byte_of by lia. rewrite IH1, IH2.
  replace (r <? 128) with true by (symmetry; apply Z.ltb_lt; lia).
  split; reflexivity.
Qed.

Lemma runes_ascii_skipn (k : nat) (rs : list rune) :
  runes_ascii rs = true -> runes_ascii (skipn k rs) = true.
Proof.
  revert rs; induction k as [|k IH]; intros [|r rs] H; simpl; auto.
  apply IH. apply runes_ascii_cons in H. tauto.
Qed.

Lemma runes_ascii_firstn (k : nat) (rs : list rune) :
  runes_ascii rs = true -> runes_ascii (firstn k rs) = true.
Proof.
  revert rs; induction k as [|k IH]; intros [|r rs] H; simpl; auto.
  pose proof H as H'. apply runes_ascii_cons in H'. destruct H' as [_ H'].
  unfold runes_ascii in *. cbn [forallb] in *.
  apply andb_true_iff in H. destruct H as [H _].
  rewrite H. apply IH. exact H'.
Qed.

Lemma replace_loop_ascii (re : regex) (repl : string) (rs : list rune)
  (count : Z) (skip : nat) :
  is_ascii repl = true -> runes_ascii rs = true ->
  is_ascii (replace_loop re repl count skip rs) = true.
Proof.
  intros Hrepl. revert count skip; induction rs as [|x rs IH]; intros count skip H.
  - cbn [replace_loop]. destruct skip; [|reflexivity].
    destruct (match_at re []); [|reflexivity].
    destruct (count =? 0); [reflexivity | exact Hrepl].
  - cbn [replace_loop].
    pose proof H as H'. apply runes_ascii_cons in H'. destruct H' as [Hx Hrs].
    destruct skip as [|k]; [|now apply IH].
    destruct (count =? 0); [now apply string_of_runes_ascii|].
    assert (Ex : is_ascii (utf8.EncodeRune x) = true).
    { rewrite EncodeRune_ascii by exact Hx. simpl.
      rewrite byte_val_byte_of by lia.
      replace (x <? 128) with true by (symmetry; apply Z.ltb_lt; lia).
      reflexivity. }
    destruct (match_at re (x :: rs)) as [[|n]|].
    + rewrite !is_ascii_app, Hrepl, Ex. now apply IH.
    + rewrite is_ascii_app, Hrepl. now apply IH.
    + rewrite is_ascii_app, Ex. now apply IH.
Qed.

Lemma run_text (re : regex) (startAt : Z) (txt : list rune) (m : Match) :
  run re startAt txt = Some m -> text m = txt.
Proof.
  unfold run.
  destruct (Z.of_nat (List.length txt) <? (if startAt <? 0 then 0 else startAt));
    [discriminate|].
  destruct (scan re _ _) as [[i n]|]; [|discriminate].
  intros H; injection H as <-. reflexivity.
Qed.

(** On an ASCII string, [Replace] from an offset inside the string returns,
    and returns an ASCII string. *)
Lemma Replace_ascii (re : regex) (s repl : string) (startAt count : Z) :
  is_ascii s = true -> is_ascii repl = true ->
  0 <= startAt <= len s -> -1 <= count ->
  exists out, Replace re s repl startAt count = Ok out /\ is_ascii out = true.
Proof.
  intros Hs Hrepl Hk Hc. unfold Replace.
  replace (count <? -1) with false by (symmetry; apply Z.ltb_ge; lia).
  destruct (count =? 0); [exists ""; split; reflexivity|].
  rewrite FindStringMatchStartingAt_ascii by assumption. cbn [bind].
  destruct (run re startAt (byte_runes s)) as [m|] eqn:E;
    [|exists s; split; [reflexivity | exact Hs]].
  apply run_text in E. rewrite E.
  eexists. split; [reflexivity|].
  rewrite is_ascii_app.
  pose proof (byte_runes_ascii s Hs) as Hr.
  rewrite (proj1 (string_of_runes_ascii _ (runes_ascii_firstn _ _ Hr))).
  apply replace_loop_ascii; [exact Hrepl | now apply runes_ascii_skipn].
Qed.

End AsciiMatching.

Section MatchWidth.

Import regexp2.

Lemma bt_width (r : regex) :
  forall (w : nat), width r = Some w ->
  forall (s : list rune) (k : list rune -> option (list rune)) (rest : list rune),
    bt r s k = Some rest ->
    exists mid, List.length s = (w + List.length mid)%nat /\ k mid = Some rest.
Proof.
  induction r as [|c|c|cs|r1 IH1 r2 IH2|r1 IH1 r2 IH2|r1 IH1|r1 IH1];
    intros w Hw s k rest H; cbn [width bt] in *.
  - injection Hw as <-. exists s. split; [reflexivity | exact H].
  - injection Hw as <-. destruct s as [|x s]; [discriminate|].
    destruct (x =? c); [|discriminate]. exists s. split; [reflexivity | exact H].
  - injection Hw as <-. destruct s as [|x s]; [discriminate|].
    destruct (fold_case x =? c); [|discriminate].
    exists s. split; [reflexivity | exact H].
  - injection Hw as <-. destruct s as [|x s]; [discriminate|].
    destruct (in_class cs x); [|discriminate].
    exists s. split; [reflexivity | exact H].
  - destruct (width r1) as [w1|]; [|discriminate].
    destruct (width r2) as [w2|]; [|discriminate].
    injection Hw as <-.
    destruct (IH1 w1 eq_refl _ _ _ H) as (mid1 & L1 & K1).
    destruct (IH2 w2 eq_refl _ _ _ K1) as (mid & L2 & K2).
    exists mid. split; [lia | exact K2].
  - destruct (width r1) as [w1|]; [|discriminate].
    destruct (width r2) as [w2|]; [|discriminate].
    destruct (Nat.eqb_spec w1 w2) as [->|_]; [|discriminate].
    injection Hw as <-.
    destruct (bt r1 s k) as [e|] eqn:E.
    + injection H as ->. exact (IH1 w2 eq_refl _ _ _ E).
    + exact (IH2 w2 eq_refl _ _ _ H).
  - injection Hw as <-. destruct (bt r1 s Some); [discriminate|].
    exists s. split; [reflexivity | exact H].
  - exact (IH1 w Hw _ _ _ H).
Qed.

Lemma match_at_width (r : regex) (w n : nat) (s : list rune) :
  width r = Some w -> match_at r s = Some n ->
  n = w /\ (w <= List.length s)%nat.
Proof.
  intros Hw. unfold match_at.
  destruct (bt r s Some) as [rest|] eqn:E; [|discriminate].
  intros H; injection H as <-.
  destruct (bt_width r w Hw _ _ _ E) as (mid & L & K).
  injection K as ->. lia.
Qed.

Lemma scan_index (r : regex) (s : list rune) (i j n : Z) :
  scan r i s = Some (j, n) -> i <= j <= i + Z.of_nat (List.length s).
Proof.
  revert i; induction s as [|x s IH]; intros i; cbn [scan].
  - destruct (match_at r []); [|discriminate].
    intros H; injection H as <- _. simpl. lia.
  - destruct (match_at r (x :: s)).
    + intros H; injection H as <- _. lia.
    + intros H. apply IH in H. cbn [List.length]. lia.
Qed.

Lemma run_index (re : regex) (startAt : Z) (txt : list rune) (m : Match) :
  run re startAt txt = Some m ->
  0 <= Index m <= Z.of_nat (List.length txt).
Proof.
  unfold run.
  set (st := if startAt <? 0 then 0 else startAt).
  assert (Hst : 0 <= st).
  { subst st. destruct (startAt <? 0) eqn:E; [lia|]. apply Z.ltb_ge in E. lia. }
  destruct (Z.of_nat (List.length txt) <? st) eqn:E; [discriminate|].
  apply Z.ltb_ge in E.
  destruct (scan re st (skipn (Z.to_nat st) txt)) as [[i n]|] eqn:S; [|discriminate].
  intros H; injection H as <-. simpl.
  apply scan_index in S. rewrite length_skipn in S. lia.
Qed.

(** A first match at index 0 is a match of the whole text. *)
Lemma run_at_zero (re : regex) (txt : list rune) (m : Match) :
  run re (-1) txt = Some m -> Index m = 0 ->
  exists n, match_at re txt = Some n.
Proof.
  unfold run. change (-1 <? 0) with true. cbv iota.
  destruct (Z.of_nat (List.length txt) <? 0); [discriminate|].
  change (skipn (Z.to_nat 0) txt) with txt.
  destruct (scan re 0 txt) as [[i n]|] eqn:S; [|discriminate].
  intros H; injection H as <-. simpl. intros ->.
  destruct txt as [|x txt]; cbn [scan] in S.
  - destruct (match_at re []) as [n'|]; [exists n'; reflexivity | discriminate].
  - destruct (match_at re (x :: txt)) as [n'|]; [exists n'; reflexivity|].
    apply scan_index in S. lia.
Qed.

Lemma run_from_zero (re : regex) (txt : list rune) (n : nat) :
  match_at re txt = Some n ->
  run re 0 txt = Some (mkMatch txt 0 (Z.of_nat n)).
Proof.
  intros H. unfold run. change (0 <? 0) with false. cbv iota.
  replace (Z.of_nat (List.length txt) <? 0) with false
    by (symmetry; apply Z.ltb_ge; lia).
  change (skipn (Z.to_nat 0) txt) with txt.
  destruct txt as [|x txt]; cbn [scan]; rewrite H; reflexivity.
Qed.

Lemma length_app_string (a b : string) :
  String.length (a ++ b) = (String.length a + String.length b)%nat.
Proof.
  induction a as [|c a IH]; simpl; [|rewrite IH]; reflexivity.
Qed.

Lemma replace_loop_zero (re : regex) (repl : string) (rs : list rune) (k : nat) :
  replace_loop re repl 0 k rs = string_of_runes (skipn k rs).
Proof.
  revert k; induction rs as [|x rs IH]; intros k.
  - cbn [replace_loop]. destruct k; [|reflexivity].
    destruct (match_at re []); reflexivity.
  - destruct k as [|k]; [reflexivity|]. cbn [replace_loop skipn]. apply IH.
Qed.

(** One replacement whose text is as long as the match keeps the length. *)
Lemma replace_once_length (re : regex) (repl : string) (rs : list rune) (w : nat) :
  runes_ascii rs = true -> match_at re rs = Some w ->
  (w <= List.length rs)%nat -> String.length repl = w ->
  String.length (replace_loop re repl 1 0 rs) = List.length rs.
Proof.
  intros Hrs Hm Hw Hl. destruct rs as [|x rs].
  - cbn [replace_loop]. rewrite Hm. simpl in *. lia.
  - cbn [replace_loop]. change (1 =? 0) with false. cbv iota.
    rewrite Hm. change (1 - 1) with 0.
    pose proof Hrs as Hrs'. apply runes_ascii_cons in Hrs'.
    destruct Hrs' as [Hx Hrs'].
    destruct w as [|n].
    + rewrite !length_app_string, replace_loop_zero.
      rewrite EncodeRune_ascii by exact Hx.
      rewrite (proj2 (string_of_runes_ascii _ (runes_ascii_skipn 0 _ Hrs'))).
      simpl. lia.
    + rewrite length_app_string, replace_loop_zero.
      rewrite (proj2 (string_of_runes_ascii _ (runes_ascii_skipn n _ Hrs'))).
      rewrite length_skipn. cbn [List.length] in *. lia.
Qed.

Lemma Replace_first_length (re : regex) (s repl : string) (w : nat) :
  is_ascii s = true -> is_ascii repl = true ->
  match_at re (byte_runes s) = Some w -> (w <= String.length s)%nat ->
  String.length repl = w ->
  exists out, Replace re s repl 0 1 = Ok out
              /\ is_ascii out = true /\ len out = len s.
Proof.
  intros Hs Hrepl Hm Hw Hl. unfold Replace.
  change (1 <? -1) with false. change (1 =? 0) with false. cbv iota.
  assert (H0 : 0 <= 0 <= len s) by (unfold len; lia).
  rewrite FindStringMatchStartingAt_ascii by assumption.
  rewrite (run_from_zero _ _ _ Hm). cbn [bind text].
  rewrite getRunesAndStart_ascii by assumption.
  change (firstn (Z.to_nat (snd (byte_runes s, 0))) (byte_runes s)) with (@nil rune).
  change (skipn (Z.to_nat (snd (byte_runes s, 0))) (byte_runes s)) with (byte_runes s).
  pose proof (byte_runes_ascii s Hs) as Hr.
  eexists. split; [reflexivity|]. split.
  - apply replace_loop_ascii; assumption.
  - unfold len. cbn [string_of_runes append]. f_equal.
    rewrite (replace_once_length re repl _ w Hr Hm); [|now rewrite length_byte_runes|exact Hl].
    apply length_byte_runes.
Qed.

End MatchWidth.

Lemma initialisms_well_formed : forallb well_formed_rule initialisms = true.
Proof. vm_compute. reflexivity. Qed.

Section RuleOnAscii.

Variable t : initialismTranslator.
Hypothesis t_ok : well_formed_rule t = true.

Lemma lower_ascii : is_ascii (lower t) = true.
Proof.
  unfold well_formed_rule in t_ok.
  apply andb_true_iff in t_ok. destruct t_ok as [H _].
  apply andb_true_iff in H. tauto.
Qed.

Lemma upper_ascii : is_ascii (upper t) = true.
Proof.
  unfold well_formed_rule in t_ok.
  apply andb_true_iff in t_ok. destruct t_ok as [H _].
  apply andb_true_iff in H. tauto.
Qed.

Lemma matcher_width (r : regexp2.regex) :
  re t = Some r -> width r = Some (String.length (lower t)).
Proof.
  intros Hr. unfold well_formed_rule in t_ok.
  apply andb_true_iff in t_ok. destruct t_ok as [_ H].
  rewrite Hr in H. destruct (width r) as [w|]; [|discriminate].
  apply Nat.eqb_eq in H. now subst.
Qed.

Lemma delimited_ascii (x : string) :
  is_ascii x = true -> is_ascii ("_" ++ x ++ "_") = true.
Proof.
  intros H. rewrite !is_ascii_app, H. reflexivity.
Qed.

Lemma replaceFrom_ascii (r : regexp2.regex) (snake : bool) (result : string)
  (startFrom : Z) :
  is_ascii result = true -> 0 <= startFrom <= len result ->
  exists result', replaceFrom t r snake result startFrom = Continue result'
                  /\ is_ascii result' = true.
Proof.
  intros Hs Hk. unfold replaceFrom.
  assert (Hrepl : is_ascii (if snake then "_" ++ lower t ++ "_" else upper t) = true).
  { destruct snake; [apply delimited_ascii, lower_ascii | apply upper_ascii]. }
  destruct (Replace_ascii r result _ startFrom (-1) Hs Hrepl Hk ltac:(lia))
    as (out & -> & Hout).
  exists out. split; [reflexivity | exact Hout].
Qed.

(** On an ASCII string a rule goes on to the next rule, with an ASCII
    string. *)
Lemma applyInitialism_ascii (lowerFirst snake : bool) (result : string) :
  is_ascii result = true ->
  exists result', applyInitialism t lowerFirst snake result = Continue result'
                  /\ is_ascii result' = true.
Proof.
  intros Hs. unfold applyInitialism.
  pose proof lower_ascii as Hl. pose proof upper_ascii as Hu.
  destruct (re t) as [r|] eqn:Hre.
  - unfold regexp2.FindStringMatch. rewrite runes_of_ascii by exact Hs.
    destruct (regexp2.run r (-1) (byte_runes result)) as [m|] eqn:E;
      [|exists result; split; [reflexivity | exact Hs]].
    pose proof (run_index _ _ _ _ E) as Hi. rewrite length_byte_runes in Hi.
    destruct (lowerFirst && (regexp2.Index m =? 0)) eqn:G;
      [|now apply replaceFrom_ascii].
    apply andb_true_iff in G. destruct G as [_ G]. apply Z.eqb_eq in G.
    destruct (run_at_zero _ _ _ E G) as (n & Hn).
    destruct (match_at_width _ _ _ _ (matcher_width r Hre) Hn) as [-> Hle].
    rewrite length_byte_runes in Hle.
    destruct (Replace_first_length r result (lower t) _ Hs Hl Hn Hle eq_refl)
      as (out & -> & Hout & Hlen).
    assert (Hnext : exists o, regexp2.FindNextMatch r m = Ok o
                              /\ forall m2, o = Some m2 ->
                                   0 <= regexp2.Index m2 <= len out).
    { pose proof (run_text _ _ _ _ E) as Ht.
      assert (B : forall st m2, regexp2.run r st (regexp2.text m) = Some m2 ->
                                0 <= regexp2.Index m2 <= len out).
      { intros st m2 R. apply run_index in R.
        rewrite Ht, length_byte_runes in R. rewrite Hlen. exact R. }
      unfold regexp2.FindNextMatch.
      destruct (regexp2.Length m =? 0).
      - destruct (regexp2.textpos m =? Z.of_nat (List.length (regexp2.text m))).
        + exists None. split; [reflexivity | discriminate].
        + eexists. split; [reflexivity|]. intros m2. apply B.
      - eexists. split; [reflexivity|]. intros m2. apply B. }
    destruct Hnext as (o & -> & Ho).
    destruct o as [m2|]; [|exists out; split; [reflexivity | exact Hout]].
    apply replaceFrom_ascii; [exact Hout | now apply Ho].
  - destruct snake.
    + eexists. split; [reflexivity|].
      apply strings_Replace_ascii; [now apply delimited_ascii|].
      apply strings_Replace_ascii; [now apply delimited_ascii | exact Hs].
    + eexists. split; [reflexivity|].
      assert (H1 : is_ascii (lowerLeadingUpper t lowerFirst result) = true).
      { unfold lowerLeadingUpper.
        destruct (lowerFirst && _); [now apply strings_Replace_ascii | exact Hs]. }
      unfold replaceCamel. cbv zeta.
      destruct (_ =? -1); [exact H1|].
      destruct (_ =? 0).
      * apply strings_Replace_ascii; [exact Hu|].
        destruct lowerFirst; [now apply strings_Replace_ascii | exact H1].
      * now apply strings_Replace_ascii.
Qed.

End RuleOnAscii.

Lemma applyInitialisms_ascii (rules : list initialismTranslator)
  (lowerFirst snake : bool) (result : string) :
  forallb well_formed_rule rules = true -> is_ascii result = true ->
  exists result', applyInitialisms rules lowerFirst snake result = Continue result'
                  /\ is_ascii result' = true.
Proof.
  revert result; induction rules as [|t rules IH]; intros result Hok Hs.
  - exists result. split; [reflexivity | exact Hs].
  - cbn [forallb] in Hok. apply andb_true_iff in Hok. destruct Hok as [Ht Hok].
    cbn [applyInitialisms].
    destruct (applyInitialism_ascii t Ht lowerFirst snake result Hs)
      as (r1 & -> & H1).
    exact (IH r1 Hok H1).
Qed.

(** The normalizer returns on every ASCII string. *)
Lemma normalizeInitialisms_ascii (s : string) (lowerFirst snake : bool) :
  is_ascii s = true -> exists r, normalizeInitialisms s lowerFirst snake = Ok r.
Proof.
  intros Hs. unfold normalizeInitialisms.
  destruct (applyInitialisms_ascii initialisms lowerFirst snake s
              initialisms_well_formed Hs) as (r & -> & _).
  eexists. reflexivity.
Qed.

(** Without [lowerFirst] the name goes through [strcase.ToCamel] first, which
    only lets ASCII letters and digits through: [goName] returns on every
    string. *)
Lemma goName_upper_total (raw : string) (snake : bool) :
  exists r, goName raw false snake = Ok r.
Proof.
  unfold goName. cbn [negb].
  destruct (normalizeInitialisms_ascii (strcase.ToCamel raw) false snake
              (toCamelInitCase_ascii raw true)) as (r & ->).
  eexists. reflexivity.
Qed.

Lemma goName_ascii_total (raw : string) (lowerFirst snake : bool) :
  is_ascii raw = true -> exists r, goName raw lowerFirst snake = Ok r.
Proof.
  intros Hs. destruct lowerFirst; [|apply goName_upper_total].
  unfold goName. cbn [negb].
  destruct (normalizeInitialisms_ascii raw true snake Hs) as (r1 & ->).
  cbn [bind].
  destruct (normalizeInitialisms_ascii (strcase.ToLowerCamel r1) true snake
              (toCamelInitCase_ascii r1 false)) as (r2 & ->).
  eexists. reflexivity.
Qed.

(** [New] returns on every ASCII name. *)
Theorem New_ascii_total (raw : string) :
  is_ascii raw = true -> exists n, New raw = Ok n.
Proof.
  intros Hs. unfold New.
  destruct (goName_upper_total raw false) as (c & ->).
  destruct (goName_ascii_total raw true false Hs) as (cl & ->).
  destruct (goName_upper_total raw true) as (sn & ->).
  eexists. reflexivity.
Qed.

(** * Further properties of package [names] *)

(** ** The keyword guard *)

(** What [guard] returns is not a Go keyword. *)
Lemma guard_not_keyword (s : string) :
  strutil.InStrings (guard s) goKeywords = false.
Proof.
  unfold guard. destruct (strutil.InStrings s goKeywords) eqn:E; [|exact E].
  apply InStrings_In in E. unfold goKeywords in E.
  repeat (destruct E as [<-|E]; [vm_compute; reflexivity|]).
  destruct E.
Qed.

(** No variant that [goName] returns is a Go keyword. *)
Theorem goName_never_keyword (raw r : string) (lowerFirst snake : bool) :
  goName raw lowerFirst snake = Ok r -> ~ In r goKeywords.
Proof.
  rewrite goName_casing.
  destruct (casing raw lowerFirst snake) as [c|e]; cbn [bind]; [|discriminate].
  intros H; injection H as <-. intros K.
  apply InStrings_In in K. rewrite guard_not_keyword in K. discriminate.
Qed.

Lemma goName_never_keyword_at_Package :
  ~ In "package_" goKeywords.
Proof.
  apply (goName_never_keyword "Package" "package_" true false).
  vm_compute. reflexivity.
Defined.

(** ** The snake-mode cleanup, when no three delimiters are adjacent *)

Section Cleanup.

Lemma collapse_cons (a : ascii) (s : string) :
  collapse (String a s) =
  if prefix "__" (String a s)
  then String "_" (strings.replace_scan "__" "_" (-1 - 1) 1 s)
  else String a (collapse s).
Proof. reflexivity. Qed.

(** A negative count stands for "no limit", whatever its value. *)
Lemma replace_scan_unlimited (old new s : string) (n m : Z) (k : nat) :
  n < 0 -> m < 0 ->
  strings.replace_scan old new n k s = strings.replace_scan old new m k s.
Proof.
  revert n m k; induction s as [|c s IH]; intros n m k Hn Hm; [reflexivity|].
  cbn [strings.replace_scan]. destruct k as [|k]; [|now apply IH].
  replace (n =? 0) with false by (symmetry; apply Z.eqb_neq; lia).
  replace (m =? 0) with false by (symmetry; apply Z.eqb_neq; lia).
  destruct (prefix old (String c s)); f_equal; apply IH; lia.
Qed.

Lemma collapse_pair (b : ascii) (t : string) :
  strings.replace_scan "__" "_" (-1 - 1) 1 (String b t) = collapse t.
Proof.
  cbn [strings.replace_scan]. apply replace_scan_unlimited; lia.
Qed.

Lemma prefix_pair (a b : ascii) (t : string) :
  prefix "__" (String a (String b t)) = is_delim a && is_delim b.
Proof.
  unfold is_delim. cbn [prefix].
  destruct (ascii_dec "_" a) as [<-|Ha].
  - destruct (ascii_dec "_" b) as [<-|Hb]; [destruct t; reflexivity|].
    rewrite Ascii.eqb_refl. cbn [andb]. symmetry.
    apply Ascii.eqb_neq. congruence.
  - replace (Ascii.eqb a "_") with false; [reflexivity|].
    symmetry. apply Ascii.eqb_neq. congruence.
Qed.

(** [collapse] keeps the first byte. *)
Lemma collapse_first (s : string) : first_byte (collapse s) = first_byte s.
Proof.
  destruct s as [|a [|b t]]; [reflexivity| |].
  { rewrite collapse_cons. cbn [prefix].
    destruct (ascii_dec "_" a); reflexivity. }
  rewrite collapse_cons, prefix_pair.
  destruct (is_delim a && is_delim b) eqn:E; [|reflexivity].
  apply andb_true_iff in E. destruct E as [E _].
  unfold is_delim in E. apply Ascii.eqb_eq in E. now subst.
Qed.

Lemma no_double_cons (a : ascii) (s : string) :
  no_double_delim (String a s) =
  match first_byte s with
  | Some b => negb (is_delim a && is_delim b) && no_double_delim s
  | None => true
  end.
Proof. destruct s; reflexivity. Qed.

Lemma no_triple_tail (a : ascii) (s : string) :
  no_triple_delim (String a s) = true -> no_triple_delim s = true.
Proof.
  destruct s as [|b [|c t]]; try reflexivity.
  change (no_triple_delim (String a (String b (String c t))))
    with (negb (is_delim a && is_delim b && is_delim c)
          && no_triple_delim (String b (String c t))).
  intros H. apply andb_true_iff in H. tauto.
Qed.

Lemma collapse_no_double (s : string) :
  (no_triple_delim s = true -> no_double_delim (collapse s) = true)
  /\ (forall a, no_triple_delim (String a s) = true ->
                no_double_delim (collapse (String a s)) = true).
Proof.
  induction s as [|b t [IHt IHbt]].
  - split; [reflexivity|]. intros a _. rewrite collapse_cons. cbn [prefix].
    destruct (ascii_dec "_" a); reflexivity.
  - split; [apply IHbt|].
    intros a H.
    rewrite collapse_cons, prefix_pair.
    destruct (is_delim a && is_delim b) eqn:E.
    + rewrite collapse_pair, no_double_cons, collapse_first.
      destruct t as [|c t']; [reflexivity|]. cbn [first_byte].
      change (negb (is_delim a && is_delim b && is_delim c)
              && no_triple_delim (String b (String c t')) = true) in H.
      apply andb_true_iff in H. destruct H as [H1 H2].
      rewrite E in H1. cbn [andb] in H1.
      apply negb_true_iff in H1.
      replace (is_delim "_") with true by reflexivity.
      rewrite H1. cbn [andb negb].
      apply IHt. now apply no_triple_tail in H2.
    + rewrite no_double_cons, collapse_first. cbn [first_byte].
      rewrite E. cbn [negb andb].
      apply IHbt. now apply no_triple_tail in H.
Qed.

Lemma no_double_tail (a : ascii) (s : string) :
  no_double_delim (String a s) = true -> no_double_delim s = true.
Proof.
  destruct s as [|b t]; [reflexivity|].
  change (no_double_delim (String a (String b t)))
    with (negb (is_delim a && is_delim b) && no_double_delim (String b t)).
  intros H. apply andb_true_iff in H. tauto.
Qed.

Lemma TrimLeft_no_double (s cutset : string) :
  no_double_delim s = true -> no_double_delim (strings.TrimLeft s cutset) = true.
Proof.
  induction s as [|a s IH]; [reflexivity|]. intros H. cbn [strings.TrimLeft].
  destruct (strings.mem_byte a cutset); [|exact H].
  apply IH. now apply no_double_tail in H.
Qed.

Lemma TrimRight_no_double (s cutset : string) :
  no_double_delim s = true -> no_double_delim (strings.TrimRight s cutset) = true.
Proof.
  induction s as [|a s IH]; [reflexivity|]. intros H.
  pose proof (TrimRight_first s cutset) as F.
  cbn [strings.TrimRight].
  destruct (strings.TrimRight s cutset) as [|d r] eqn:E.
  - destruct (strings.mem_byte a cutset); reflexivity.
  - rewrite no_double_cons in H. rewrite (F d eq_refl) in H.
    apply andb_true_iff in H. destruct H as [H1 H2].
    change (no_double_delim (String a (String d r)))
      with (negb (is_delim a && is_delim d) && no_double_delim (String d r)).
    rewrite H1. exact (IH H2).
Qed.

(** When the rules leave no three adjacent delimiters, the cleanup leaves no
    two: the single pass of [Replace "__" "_"] is enough exactly then. *)
Theorem snakeCleanup_no_double (s : string) :
  no_triple_delim s = true -> no_double_delim (snakeCleanup s) = true.
Proof.
  intros H. unfold snakeCleanup, strings.Trim.
  apply TrimRight_no_double, TrimLeft_no_double.
  exact (proj1 (collapse_no_double s) H).
Qed.

End Cleanup.

Lemma snakeCleanup_no_double_at_db_instance_id :
  no_double_delim (snakeCleanup "_db__Instance__id_") = true.
Proof.
  apply snakeCleanup_no_double. vm_compute. reflexivity.
Defined.

(** ** The bytes of the variants *)

Section BytesOfVariants.

Variable P : ascii -> bool.

Lemma all_bytes_app (a b : string) :
  all_bytes P (a ++ b) = all_bytes P a && all_bytes P b.
Proof.
  induction a as [|c a IH]; simpl; [reflexivity|].
  rewrite IH. apply andb_assoc.
Qed.

Lemma all_bytes_tail (c : ascii) (s : string) :
  all_bytes P (String c s) = true -> P c = true /\ all_bytes P s = true.
Proof. simpl. intros H. apply andb_true_iff in H. exact H. Qed.

Lemma strings_Replace_bytes (s old new : string) (n : Z) :
  all_bytes P new = true -> all_bytes P s = true ->
  all_bytes P (strings.Replace s old new n) = true.
Proof.
  intros Hnew Hs. unfold strings.Replace.
  destruct old as [|o old']; [exact Hs|].
  generalize (String o old') as old0. intros old0.
  generalize 0%nat as k. revert n Hs.
  induction s as [|c s IH]; intros n Hs k; [reflexivity|].
  cbn [strings.replace_scan].
  destruct (all_bytes_tail _ _ Hs) as [Hc Hrest].
  destruct k as [|k]; [|now apply IH].
  destruct (n =? 0); [exact Hs|].
  destruct (prefix old0 (String c s)).
  - rewrite all_bytes_app, Hnew. now apply IH.
  - simpl. rewrite Hc. now apply IH.
Qed.

Lemma TrimLeft_bytes (s cutset : string) :
  all_bytes P s = true -> all_bytes P (strings.TrimLeft s cutset) = true.
Proof.
  induction s as [|c s IH]; [reflexivity|]. intros H. cbn [strings.TrimLeft].
  destruct (strings.mem_byte c cutset); [|exact H].
  apply IH. now apply all_bytes_tail in H.
Qed.

Lemma TrimRight_bytes (s cutset : string) :
  all_bytes P s = true -> all_bytes P (strings.TrimRight s cutset) = true.
Proof.
  induction s as [|c s IH]; [reflexivity|]. intros H.
  destruct (all_bytes_tail _ _ H) as [Hc Hs]. specialize (IH Hs).
  cbn [strings.TrimRight].
  destruct (strings.TrimRight s cutset) as [|d r].
  - destruct (strings.mem_byte c cutset); [reflexivity|]. simpl. now rewrite Hc.
  - change (P c && all_bytes P (String d r) = true). now rewrite Hc.
Qed.

Lemma rev_onto_bytes (s acc : string) :
  all_bytes P s = true -> all_bytes P acc = true ->
  all_bytes P (rev_onto s acc) = true.
Proof.
  revert acc; induction s as [|c s IH]; intros acc Hs Hacc; [exact Hacc|].
  destruct (all_bytes_tail _ _ Hs) as [Hc Hs'].
  cbn [rev_onto]. apply IH; [exact Hs'|]. simpl. now rewrite Hc.
Qed.

Lemma trim_space_left_bytes (b : bool) (k : nat) (s : string) :
  all_bytes P s = true -> all_bytes P (strings.trim_space_left b k s) = true.
Proof.
  revert k; induction s as [|c s IH]; intros k H; [reflexivity|].
  destruct (all_bytes_tail _ _ H) as [_ Hs].
  cbn [strings.trim_space_left].
  destruct k as [|k]; [|now apply IH].
  destruct (strings.space_prefix b (String c s)); [exact H | now apply IH].
Qed.

Lemma TrimSpace_bytes (s : string) :
  all_bytes P s = true -> all_bytes P (strings.TrimSpace s) = true.
Proof.
  intros H. unfold strings.TrimSpace, rev_string.
  apply rev_onto_bytes; [|reflexivity].
  apply trim_space_left_bytes, rev_onto_bytes; [|reflexivity].
  now apply trim_space_left_bytes.
Qed.

(** From here on [P] only holds of ASCII bytes. *)
Hypothesis P_ascii : forall c, P c = true -> (byte_val c <? 128) = true.

Lemma all_bytes_ascii (s : string) : all_bytes P s = true -> is_ascii s = true.
Proof.
  induction s as [|c s IH]; [reflexivity|]. intros H.
  destruct (all_bytes_tail _ _ H) as [Hc Hs].
  simpl. now rewrite (P_ascii c Hc), IH.
Qed.

Lemma byte_of_byte_val (c : ascii) : byte_of (byte_val c) = c.
Proof.
  unfold byte_of, byte_val. rewrite N2Z.id. apply ascii_N_embedding.
Qed.

Lemma byte_runes_sat (s : string) :
  all_bytes P s = true -> runes_sat P (byte_runes s) = true.
Proof.
  induction s as [|c s IH]; [reflexivity|]. intros H.
  destruct (all_bytes_tail _ _ H) as [Hc Hs].
  cbn [byte_runes runes_sat forallb]. fold (runes_sat P (byte_runes s)).
  rewrite (IH Hs), byte_of_byte_val, Hc, (P_ascii c Hc).
  pose proof (byte_val_range c).
  replace (0 <=? byte_val c) with true by (symmetry; apply Z.leb_le; lia).
  reflexivity.
Qed.

Lemma runes_sat_cons (r : rune) (rs : list rune) :
  runes_sat P (r :: rs) = true ->
  0 <= r < 128 /\ P (byte_of r) = true /\ runes_sat P rs = true.
Proof.
  unfold runes_sat. cbn [forallb]. intros H.
  apply andb_true_iff in H. destruct H as [H1 H2].
  apply andb_true_iff in H1. destruct H1 as [H1 H3].
  apply andb_true_iff in H1. destruct H1 as [H0 H1].
  apply Z.leb_le in H0. apply Z.ltb_lt in H1. auto.
Qed.

Lemma runes_sat_skipn (k : nat) (rs : list rune) :
  runes_sat P rs = true -> runes_sat P (skipn k rs) = true.
Proof.
  revert rs; induction k as [|k IH]; intros [|r rs] H; simpl; auto.
  apply IH. apply runes_sat_cons in H. tauto.
Qed.

Lemma runes_sat_firstn (k : nat) (rs : list rune) :
  runes_sat P rs = true -> runes_sat P (firstn k rs) = true.
Proof.
  revert rs; induction k as [|k IH]; intros [|r rs] H; simpl; auto.
  pose proof H as H'. apply runes_sat_cons in H'. destruct H' as (_ & _ & H').
  unfold runes_sat in *. cbn [forallb] in *.
  apply andb_true_iff in H. destruct H as [H _].
  rewrite H. apply IH. exact H'.
Qed.

Lemma EncodeRune_sat (r : rune) :
  0 <= r < 128 -> P (byte_of r) = true -> all_bytes P (utf8.EncodeRune r) = true.
Proof.
  intros Hr Hp. rewrite EncodeRune_ascii by exact Hr. simpl. now rewrite Hp.
Qed.

Lemma string_of_runes_sat (rs : list rune) :
  runes_sat P rs = true -> all_bytes P (string_of_runes rs) = true.
Proof.
  induction rs as [|r rs IH]; intros H; [reflexivity|].
  apply runes_sat_cons in H. destruct H as (Hr & Hp & Hrs).
  cbn [string_of_runes]. rewrite all_bytes_app, EncodeRune_sat, IH; auto.
Qed.

Lemma replace_loop_sat (re : regex) (repl : string) (rs : list rune)
  (count : Z) (skip : nat) :
  all_bytes P repl = true -> runes_sat P rs = true ->
  all_bytes P (replace_loop re repl count skip rs) = true.
Proof.
  intros Hrepl. revert count skip; induction rs as [|x rs IH]; intros count skip H.
  - cbn [replace_loop]. destruct skip; [|reflexivity].
    destruct (match_at re []); [|reflexivity].
    destruct (count =? 0); [reflexivity | exact Hrepl].
  - cbn [replace_loop].
    pose proof H as H'. apply runes_sat_cons in H'. destruct H' as (Hx & Hp & Hrs).
    destruct skip as [|k]; [|now apply IH].
    destruct (count =? 0); [now apply string_of_runes_sat|].
    pose proof (EncodeRune_sat x Hx Hp) as Ex.
    destruct (match_at re (x :: rs)) as [[|n]|].
    + rewrite !all_bytes_app, Hrepl, Ex. now apply IH.
    + rewrite all_bytes_app, Hrepl. now apply IH.
    + rewrite all_bytes_app, Ex. now apply IH.
Qed.

(** What [Replace] returns on a string of [P]-bytes, for a replacement of
    [P]-bytes, is a string of [P]-bytes. *)
Lemma Replace_bytes (re : regex) (s repl out : string) (startAt count : Z) :
  all_bytes P s = true -> all_bytes P repl = true ->
  0 <= startAt <= len s ->
  Replace re s repl startAt count = Ok out -> all_bytes P out = true.
Proof.
  intros Hs Hrepl Hk. unfold Replace.
  destruct (count <? -1); [discriminate|].
  destruct (count =? 0); [intros H; injection H as <-; reflexivity|].
  rewrite FindStringMatchStartingAt_ascii by (auto using all_bytes_ascii).
  cbn [bind].
  destruct (run re startAt (byte_runes s)) as [m|] eqn:E;
    [|intros H; injection H as <-; exact Hs].
  apply run_text in E. rewrite E.
  intros H; injection H as <-.
  pose proof (byte_runes_sat s Hs) as Hr.
  rewrite all_bytes_app, string_of_runes_sat by (now apply runes_sat_firstn).
  apply replace_loop_sat; [exact Hrepl | now apply runes_sat_skipn].
Qed.

End BytesOfVariants.

Lemma all_bytes_weaken (P Q : ascii -> bool) (s : string) :
  (forall c, P c = true -> Q c = true) ->
  all_bytes P s = true -> all_bytes Q s = true.
Proof.
  intros PQ. induction s as [|c s IH]; [reflexivity|]. simpl. intros H.
  apply andb_true_iff in H. destruct H as [Hc Hs]. now rewrite (PQ c Hc), IH.
Qed.

Lemma isAlphaNum_ascii (c : ascii) : isAlphaNum c = true -> (byte_val c <? 128) = true.
Proof.
  unfold isAlphaNum, isLow, isCap, isNum. intros H.
  apply orb_true_iff in H. destruct H as [H|H];
    [apply orb_true_iff in H; destruct H as [H|H]|];
    revert H; apply in_range_ascii; lia.
Qed.

Lemma is_ident_byte_ascii (c : ascii) :
  is_ident_byte c = true -> (byte_val c <? 128) = true.
Proof.
  unfold is_ident_byte. intros H. apply orb_true_iff in H.
  destruct H as [H|H]; [now apply isAlphaNum_ascii|].
  unfold is_delim in H. apply Ascii.eqb_eq in H. now subst.
Qed.

Section RuleBytes.

Variable P : ascii -> bool.
Hypothesis P_ascii : forall c, P c = true -> (byte_val c <? 128) = true.

Variable t : initialismTranslator.
Hypothesis t_wf : well_formed_rule t = true.

Lemma written_lower_bytes (lowerFirst snake : bool) :
  forms_ok P lowerFirst snake t = true ->
  snake = true \/ lowerFirst = true -> all_bytes P (lower t) = true.
Proof.
  unfold forms_ok. intros F [-> | ->].
  - apply andb_true_iff in F. tauto.
  - destruct snake; apply andb_true_iff in F; tauto.
Qed.

Lemma written_delimited_bytes (lowerFirst : bool) :
  forms_ok P lowerFirst true t = true ->
  all_bytes P ("_" ++ lower t ++ "_") = true.
Proof.
  intros F. rewrite !all_bytes_app.
  rewrite (written_lower_bytes _ _ F (or_introl eq_refl)).
  unfold forms_ok in F. apply andb_true_iff in F. destruct F as [Hd _].
  simpl. now rewrite Hd.
Qed.

Lemma written_upper_bytes (lowerFirst : bool) :
  forms_ok P lowerFirst false t = true -> all_bytes P (upper t) = true.
Proof.
  unfold forms_ok. intros F. apply andb_true_iff in F. tauto.
Qed.

Lemma replaceFrom_bytes (lowerFirst snake : bool) (r : regex)
  (result result' : string) (startFrom : Z) :
  forms_ok P lowerFirst snake t = true ->
  all_bytes P result = true -> 0 <= startFrom <= len result ->
  replaceFrom t r snake result startFrom = Continue result' ->
  all_bytes P result' = true.
Proof.
  intros F Hs Hk. unfold replaceFrom.
  destruct (Replace r result _ startFrom (-1)) as [out|e] eqn:E; [|discriminate].
  intros H; injection H as <-.
  refine (Replace_bytes P P_ascii r result _ out startFrom (-1) Hs _ Hk E).
  destruct snake;
    [exact (written_delimited_bytes _ F) | exact (written_upper_bytes _ F)].
Qed.

(** A rule applied to a string of [P]-bytes leaves a string of [P]-bytes. *)
Lemma applyInitialism_bytes (lowerFirst snake : bool) (result result' : string) :
  forms_ok P lowerFirst snake t = true ->
  all_bytes P result = true ->
  applyInitialism t lowerFirst snake result = Continue result' ->
  all_bytes P result' = true.
Proof.
  intros F Hs. pose proof (all_bytes_ascii P P_ascii result Hs) as Ha.
  unfold applyInitialism.
  destruct (names.re t) as [r|] eqn:Hre.
  - unfold FindStringMatch. rewrite runes_of_ascii by exact Ha.
    destruct (run r (-1) (byte_runes result)) as [m|] eqn:E;
      [|intros H; injection H as <-; exact Hs].
    pose proof (run_index _ _ _ _ E) as Hi. rewrite length_byte_runes in Hi.
    destruct (lowerFirst && (Index m =? 0)) eqn:G;
      [|now apply (replaceFrom_bytes lowerFirst)].
    apply andb_true_iff in G. destruct G as [Hlf G]. apply Z.eqb_eq in G.
    assert (Hl : all_bytes P (lower t) = true)
      by (apply (written_lower_bytes _ _ F); now right).
    destruct (run_at_zero _ _ _ E G) as (n & Hn).
    destruct (match_at_width _ _ _ _ (matcher_width t t_wf r Hre) Hn) as [-> Hle].
    rewrite length_byte_runes in Hle.
    destruct (Replace_first_length r result (lower t) _ Ha
                (all_bytes_ascii P P_ascii _ Hl) Hn Hle eq_refl)
      as (out & Eout & _ & Hlen).
    rewrite Eout.
    assert (Hout : all_bytes P out = true).
    { refine (Replace_bytes P P_ascii r result _ out 0 1 Hs Hl _ Eout).
      unfold len. lia. }
    pose proof (run_text _ _ _ _ E) as Ht.
    assert (B : forall st m2, run r st (text m) = Some m2 ->
                              0 <= Index m2 <= len out).
    { intros st m2 R. apply run_index in R.
      rewrite Ht, length_byte_runes in R. rewrite Hlen. exact R. }
    unfold FindNextMatch.
    destruct (Length m =? 0).
    + destruct (textpos m =? Z.of_nat (List.length (text m)));
        [intros H; injection H as <-; exact Hout|].
      destruct (run r (textpos m + 1) (text m)) as [m2|] eqn:E2;
        [|intros H; injection H as <-; exact Hout].
      apply (replaceFrom_bytes lowerFirst); [exact F | exact Hout | exact (B _ _ E2)].
    + destruct (run r (textpos m) (text m)) as [m2|] eqn:E2;
        [|intros H; injection H as <-; exact Hout].
      apply (replaceFrom_bytes lowerFirst); [exact F | exact Hout | exact (B _ _ E2)].
  - destruct snake.
    + intros H; injection H as <-.
      pose proof (written_delimited_bytes _ F) as Hd.
      now repeat apply strings_Replace_bytes.
    + intros H; injection H as <-.
      pose proof (written_upper_bytes _ F) as Hu.
      assert (H1 : all_bytes P (lowerLeadingUpper t lowerFirst result) = true).
      { unfold lowerLeadingUpper.
        destruct lowerFirst; [|exact Hs]. cbn [andb].
        destruct (_ =? 0); [|exact Hs].
        apply strings_Replace_bytes; [|exact Hs].
        apply (written_lower_bytes _ _ F). now right. }
      unfold replaceCamel. cbv zeta.
      destruct (_ =? -1); [exact H1|].
      destruct (_ =? 0).
      * apply strings_Replace_bytes; [exact Hu|].
        destruct lowerFirst; [|exact H1].
        apply strings_Replace_bytes; [|exact H1].
        apply (written_lower_bytes _ _ F). now right.
      * now apply strings_Replace_bytes.
Qed.

End RuleBytes.

Section NormalizerBytes.

Variable P : ascii -> bool.
Hypothesis P_ascii : forall c, P c = true -> (byte_val c <? 128) = true.
Variables lowerFirst snake : bool.

Lemma applyInitialisms_bytes (rules : list initialismTranslator)
  (result result' : string) :
  forallb well_formed_rule rules = true ->
  forallb (forms_ok P lowerFirst snake) rules = true ->
  all_bytes P result = true ->
  applyInitialisms rules lowerFirst snake result = Continue result' ->
  all_bytes P result' = true.
Proof.
  revert result; induction rules as [|t rules IH]; intros result Hwf Hok Hs.
  - intros H; injection H as <-. exact Hs.
  - cbn [forallb] in Hwf, Hok.
    apply andb_true_iff in Hwf. destruct Hwf as [Ht Hwf].
    apply andb_true_iff in Hok. destruct Hok as [Hf Hok].
    cbn [applyInitialisms].
    destruct (applyInitialism t lowerFirst snake result) as [r1|] eqn:E;
      [|discriminate].
    apply (IH r1 Hwf Hok).
    exact (applyInitialism_bytes P P_ascii t Ht lowerFirst snake _ _ Hf Hs E).
Qed.

(** The normalizer turns a string of [P]-bytes into a string of [P]-bytes,
    when the forms it can write are made of [P]-bytes. *)
Lemma normalizeInitialisms_bytes (s r : string) :
  forallb (forms_ok P lowerFirst snake) initialisms = true ->
  all_bytes P s = true ->
  normalizeInitialisms s lowerFirst snake = Ok r ->
  all_bytes P r = true.
Proof.
  intros Hok Hs. unfold normalizeInitialisms.
  destruct (applyInitialisms initialisms lowerFirst snake s) as [s'|r'] eqn:E.
  - pose proof (applyInitialisms_bytes _ _ _ initialisms_well_formed Hok Hs E)
      as Hs'.
    intros H; injection H as <-. clear E.
    revert Hok. destruct snake; intros Hok; [|exact Hs'].
    unfold snakeCleanup, strings.Trim.
    apply TrimRight_bytes, TrimLeft_bytes, strings_Replace_bytes; [|exact Hs'].
    cbn [initialisms forallb] in Hok. apply andb_true_iff in Hok.
    destruct Hok as [Hok _]. unfold forms_ok in Hok.
    apply andb_true_iff in Hok. destruct Hok as [Hd _].
    simpl. now rewrite Hd.
  - intros ->. apply applyInitialisms_return in E.
    destruct E as [E|[e E]]; [|discriminate].
    injection E as ->. reflexivity.
Qed.

End NormalizerBytes.

Lemma upperByte_isCap (v : ascii) : isLow v = true -> isCap (upperByte v) = true.
Proof.
  unfold isLow, isCap, in_range, upperByte. intros H.
  apply andb_true_iff in H. destruct H as [H1 H2]. apply Z.leb_le in H1, H2.
  rewrite Z.mod_small by lia. rewrite byte_val_byte_of by lia.
  apply andb_true_iff. split; apply Z.leb_le; lia.
Qed.

Lemma lowerByte_isLow (v : ascii) : isCap v = true -> isLow (lowerByte v) = true.
Proof.
  unfold isLow, isCap, in_range, lowerByte. intros H.
  apply andb_true_iff in H. destruct H as [H1 H2]. apply Z.leb_le in H1, H2.
  rewrite Z.mod_small by lia. rewrite byte_val_byte_of by lia.
  apply andb_true_iff. split; apply Z.leb_le; lia.
Qed.

(** The caser only writes ASCII letters and digits. *)
Lemma camel_loop_alnum (s : string) (capNext first : bool) :
  all_bytes isAlphaNum (strcase.camel_loop capNext first s) = true.
Proof.
  revert capNext first; induction s as [|v s IH]; intros capNext first;
    [reflexivity|].
  cbn [strcase.camel_loop].
  assert (V : isCap v || isLow v || isNum v = true ->
              isAlphaNum
                (if capNext then if isLow v then upperByte v else v
                 else if first then if isCap v then lowerByte v else v else v)
              = true).
  { intros K.
    assert (Hv : isAlphaNum v = true).
    { unfold isAlphaNum. destruct (isCap v), (isLow v), (isNum v);
        try reflexivity; discriminate K. }
    destruct capNext.
    - destruct (isLow v) eqn:E; [|exact Hv].
      unfold isAlphaNum. rewrite (upperByte_isCap v E). apply orb_true_iff.
      left. apply orb_true_r.
    - destruct first; [|exact Hv].
      destruct (isCap v) eqn:E; [|exact Hv].
      unfold isAlphaNum. now rewrite (lowerByte_isLow v E). }
  destruct (isCap v || isLow v) eqn:E1.
  - simpl. rewrite V, IH; reflexivity.
  - destruct (isNum v) eqn:E2; [|apply IH].
    simpl. rewrite V, IH; [reflexivity | apply orb_true_r].
Qed.

Lemma toCamelInitCase_alnum (s : string) (initCase : bool) :
  all_bytes isAlphaNum (strcase.toCamelInitCase s initCase) = true.
Proof.
  unfold strcase.toCamelInitCase.
  destruct (String.eqb_spec (strings.TrimSpace s) "") as [->|_]; [reflexivity|].
  apply camel_loop_alnum.
Qed.

(** [ToSnake] turns identifier bytes into snake-case bytes. *)
Lemma delimited_loop_snake (s : string) (prev : option ascii) :
  all_bytes is_ident_byte s = true ->
  all_bytes is_snake_byte (strcase.delimited_loop "_" "" false prev s) = true.
Proof.
  revert prev; induction s as [|v0 s IH]; intros prev H; [reflexivity|].
  destruct (all_bytes_tail _ _ _ H) as [Hv Hs].
  specialize (IH (Some v0) Hs).
  cbn [strcase.delimited_loop].
  rewrite (andb_false_r (isLow v0)). cbn [negb]. rewrite (andb_true_r (isCap v0)).
  set (v := if isCap v0 then lowerByte v0 else v0).
  assert (Sv : is_snake_byte v = true).
  { subst v. unfold is_snake_byte. destruct (isCap v0) eqn:E.
    - now rewrite (lowerByte_isLow v0 E).
    - unfold is_ident_byte, isAlphaNum in Hv. rewrite E in Hv.
      destruct (isLow v0), (isNum v0), (is_delim v0);
        try reflexivity; discriminate Hv. }
  assert (Sd : is_snake_byte "_" = true) by reflexivity.
  set (rest := strcase.delimited_loop "_" "" false (Some v0) s) in *.
  assert (Plain : all_bytes is_snake_byte
                    (if strcase.is_sep v && negb (strings.mem_byte v "")
                     then String "_" rest else String v rest) = true).
  { destruct (strcase.is_sep v && negb (strings.mem_byte v ""));
      simpl; [now rewrite IH | now rewrite Sv, IH]. }
  destruct s as [|next s']; [exact Plain|].
  repeat match goal with
         | |- context [if ?c then _ else _] => destruct c
         end;
    try exact Plain; simpl; rewrite ?Sv, ?IH; reflexivity.
Qed.

Lemma ToSnake_snake (s : string) :
  all_bytes is_ident_byte s = true ->
  all_bytes is_snake_byte (strcase.ToSnake s) = true.
Proof.
  intros H. unfold strcase.ToSnake, strcase.ToDelimited, strcase.ToScreamingDelimited.
  apply delimited_loop_snake. now apply TrimSpace_bytes.
Qed.

Lemma guard_bytes (P : ascii -> bool) (s : string) :
  P "_"%char = true -> all_bytes P s = true -> all_bytes P (guard s) = true.
Proof.
  intros Hd Hs. unfold guard.
  destruct (strutil.InStrings s goKeywords); [|exact Hs].
  rewrite all_bytes_app, Hs. simpl. now rewrite Hd.
Qed.

Lemma keepAlphaNum_snake (s : string) :
  all_bytes is_snake_byte s = true ->
  all_bytes (fun c => isLow c || isNum c) (keepAlphaNum s) = true.
Proof.
  induction s as [|c s IH]; [reflexivity|]. intros H.
  destruct (all_bytes_tail _ _ _ H) as [Hc Hs]. specialize (IH Hs).
  cbn [keepAlphaNum]. destruct (isAlphaNum c) eqn:E; [|exact IH].
  simpl. rewrite IH, andb_true_r.
  unfold is_snake_byte in Hc. apply orb_true_iff in Hc.
  destruct Hc as [Hc|Hc]; [exact Hc|].
  unfold is_delim in Hc. apply Ascii.eqb_eq in Hc. subst c. discriminate E.
Qed.

Lemma forms_alnum :
  forallb (forms_ok isAlphaNum false false) initialisms = true.
Proof. vm_compute. reflexivity. Qed.

Lemma forms_ident_lower :
  forallb (forms_ok is_ident_byte true false) initialisms = true.
Proof. vm_compute. reflexivity. Qed.

Lemma forms_ident_snake :
  forallb (forms_ok is_ident_byte false true) initialisms = true.
Proof. vm_compute. reflexivity. Qed.

Lemma SnakeStripped_keepAlphaNum (raw : string) (n : Names) :
  New raw = Ok n -> SnakeStripped n = keepAlphaNum (Snake n).
Proof.
  intros H. apply New_fields in H. destruct H as (_ & _ & _ & H & _).
  rewrite H. apply replace_runs_empty.
Qed.

(** Whatever the raw name is made of, the variants that [New] returns are
    made of identifier bytes: Camel is the keyword guard of a string of ASCII
    letters and digits, CamelLower has ASCII letters, digits and underscores,
    Snake has lower-case ASCII letters, digits and underscores, and
    SnakeStripped has lower-case ASCII letters and digits. *)
Theorem New_variant_bytes (raw : string) (n : Names) :
  New raw = Ok n ->
  (exists r, Camel n = guard r /\ all_bytes isAlphaNum r = true)
  /\ all_bytes is_ident_byte (CamelLower n) = true
  /\ all_bytes is_snake_byte (Snake n) = true
  /\ all_bytes (fun c => isLow c || isNum c) (SnakeStripped n) = true.
Proof.
  intros H. pose proof (SnakeStripped_keepAlphaNum raw n H) as Hstrip.
  apply New_fields in H. destruct H as (Hc & Hl & Hs & _).
  assert (Sn : all_bytes is_snake_byte (Snake n) = true).
  { unfold goName in Hs. cbn [negb] in Hs.
    destruct (normalizeInitialisms (strcase.ToCamel raw) false true) as [r|] eqn:E;
      [|discriminate]. cbn [bind] in Hs. injection Hs as <-.
    apply guard_bytes; [reflexivity|]. apply ToSnake_snake.
    refine (normalizeInitialisms_bytes is_ident_byte is_ident_byte_ascii
              false true _ r forms_ident_snake _ E).
    apply (all_bytes_weaken isAlphaNum); [|apply toCamelInitCase_alnum].
    intros c K. unfold is_ident_byte. now rewrite K. }
  split; [|split; [|split]].
  - unfold goName in Hc. cbn [negb] in Hc.
    destruct (normalizeInitialisms (strcase.ToCamel raw) false false) as [r|] eqn:E;
      [|discriminate]. cbn [bind] in Hc. injection Hc as <-.
    exists r. split; [reflexivity|].
    exact (normalizeInitialisms_bytes isAlphaNum isAlphaNum_ascii false false
             _ r forms_alnum (toCamelInitCase_alnum raw true) E).
  - unfold goName in Hl. cbn [negb] in Hl.
    destruct (normalizeInitialisms raw true false) as [r1|]; [|discriminate].
    cbn [bind] in Hl.
    destruct (normalizeInitialisms (strcase.ToLowerCamel r1) true false)
      as [r2|] eqn:E; [|discriminate]. cbn [bind] in Hl. injection Hl as <-.
    apply guard_bytes; [reflexivity|].
    refine (normalizeInitialisms_bytes is_ident_byte is_ident_byte_ascii
              true false _ r2 forms_ident_lower _ E).
    apply (all_bytes_weaken isAlphaNum); [|apply toCamelInitCase_alnum].
    intros c K. unfold is_ident_byte. now rewrite K.
  - exact Sn.
  - rewrite Hstrip. now apply keepAlphaNum_snake.
Qed.

Lemma New_variant_bytes_at_DbInstanceId :
  exists n, New "DbInstanceId" = Ok n
            /\ all_bytes is_snake_byte (Snake n) = true.
Proof.
  eexists. split; [vm_compute; reflexivity|].
  apply (New_variant_bytes "DbInstanceId"). vm_compute. reflexivity.
Defined.

(** ** Lookaheads that exclude nothing *)

Section LeadingLookahead.

(** A negative lookahead in front of a pattern changes nothing when the two
    cannot match at the same place. *)
Lemma not_ahead_vacuous (a b : regex) (rs : list rune) :
  (bt a rs Some <> None -> bt b rs Some = None) ->
  bt (Cat (NotAhead a) b) rs Some = bt b rs Some.
Proof.
  intros H. cbn [bt]. destruct (bt a rs Some) as [e|]; [|reflexivity].
  symmetry. apply H. discriminate.
Qed.

Lemma idsRe_core (rs : list rune) : bt idsRe rs Some = bt idsCore rs Some.
Proof.
  apply not_ahead_vacuous. destruct rs as [|x rs]; [intros H; now elim H|].
  unfold idsCore. rewrite bt_lit.
  change (starts_with (lit_runes "Ids") (x :: rs))
    with ((x =? 73) && starts_with (lit_runes "ds") rs).
  cbn -[Z.leb]. unfold in_range.
  destruct (x =? 73) eqn:E; [|reflexivity].
  apply Z.eqb_eq in E. subst x. intros H. now elim H.
Qed.

Lemma ecrRe_core (rs : list rune) : bt ecrRe rs Some = bt ecrCore rs Some.
Proof.
  apply not_ahead_vacuous. destruct rs as [|x rs]; [intros H; now elim H|].
  unfold ecrCore. cbn [bt lit one_of in_class existsb fst snd].
  unfold in_range.
  destruct (x =? byte_val "S") eqn:E1;
    [apply Z.eqb_eq in E1; subst x; reflexivity|].
  destruct (x =? byte_val "s") eqn:E2;
    [apply Z.eqb_eq in E2; subst x; reflexivity|].
  destruct (x =? byte_val "D") eqn:E3;
    [apply Z.eqb_eq in E3; subst x; reflexivity|].
  destruct (x =? byte_val "d") eqn:E4;
    [apply Z.eqb_eq in E4; subst x; reflexivity|].
  intros H. now elim H.
Qed.

Lemma ttlRe_core (rs : list rune) : bt ttlRe rs Some = bt ttlCore rs Some.
Proof.
  apply not_ahead_vacuous. rewrite bt_lit.
  destruct rs as [|x [|y rs]]; try (intros H; now elim H).
  { cbn -[Z.eqb]. rewrite andb_false_r. intros H. now elim H. }
  change (starts_with (lit_runes "Thro") (x :: y :: rs))
    with ((x =? 84) && ((y =? 104) && starts_with (lit_runes "ro") rs)).
  destruct (x =? 84) eqn:Ex; [|intros H; now elim H].
  destruct (y =? 104) eqn:Ey; [|intros H; now elim H].
  apply Z.eqb_eq in Ex, Ey. subst x y. intros _. reflexivity.
Qed.

Lemma uriRe_core (rs : list rune) :
  bt uriRe rs Some = bt uriRe_without_lookahead rs Some.
Proof.
  unfold uriRe, uriRe_without_lookahead.
  cbn [bt]. change (match bt (lit "sec") rs Some with
                    | Some _ => None
                    | None => bt uriCore rs Some
                    end) with (bt (Cat (NotAhead (lit "sec")) uriCore) rs Some).
  rewrite not_ahead_vacuous; [reflexivity|].
  rewrite bt_lit. unfold uriCore. cbn [bt]. rewrite bt_lit.
  destruct rs as [|x rs]; [intros H; now elim H|].
  change (starts_with (lit_runes "sec") (x :: rs))
    with ((x =? 115) && starts_with (lit_runes "ec") rs).
  change (starts_with (lit_runes "uri") (x :: rs))
    with ((x =? 117) && starts_with (lit_runes "ri") rs).
  destruct (x =? 115) eqn:E; [|intros H; now elim H].
  apply Z.eqb_eq in E. subst x. intros _. reflexivity.
Qed.

End LeadingLookahead.

(** The lookahead that starts the matchers of the "Ids", "Ecr", "Ttl" and
    "Uri" rules is evaluated at the first character of the initialism itself
    and never excludes a match: each of these matchers matches exactly where
    it would without it (so "Secret" and "Throttle" are kept intact by the
    lookaheads that end the patterns alone). *)
Theorem leading_lookaheads_exclude_nothing :
  (names.re (rule 0) = Some idsRe /\ names.re (rule 38) = Some ecrRe
   /\ names.re (rule 90) = Some ttlRe /\ names.re (rule 92) = Some uriRe)
  /\ forall rs : list rune,
      match_at idsRe rs = match_at idsCore rs
      /\ match_at ecrRe rs = match_at ecrCore rs
      /\ match_at ttlRe rs = match_at ttlCore rs
      /\ match_at uriRe rs = match_at uriRe_without_lookahead rs.
Proof.
  split; [repeat split; vm_compute; reflexivity|].
  intros rs. unfold match_at.
  rewrite idsRe_core, ecrRe_core, ttlRe_core, uriRe_core. repeat split.
Qed.

(** ** Where the variants are always computed *)

(** The Camel and Snake variants are computed for every string: without
    [lowerFirst], [goName] never panics. *)
Theorem Camel_Snake_total (raw : string) :
  exists c sn, goName raw false false = Ok c /\ goName raw false true = Ok sn.
Proof.
  destruct (goName_upper_total raw false) as (c & Hc).
  destruct (goName_upper_total raw true) as (sn & Hsn).
  exists c, sn. split; assumption.
Qed.

Lemma New_ascii_total_at_KeyId : exists n, New "KeyId" = Ok n.
Proof.
  apply (New_ascii_total "KeyId"). vm_compute. reflexivity.
Defined.

Lemma normalizeInitialisms_snake_trimmed_at_KeyId :
  first_byte "Key_id" <> Some "_"%char /\ last_byte "Key_id" <> Some "_"%char.
Proof.
  apply (normalizeInitialisms_snake_trimmed "KeyId" "Key_id" false).
  vm_compute. reflexivity.
Defined.

(** * Package [strutil] *)

(** [InStrings] decides membership. *)
Theorem InStrings_iff_In (subject : string) (collection : list string) :
  strutil.InStrings subject collection = true <-> In subject collection.
Proof. apply InStrings_In. Qed.

(** On pointers none of which is nil before the end of [l], [InStringPs]
    answers as [InStrings] does on what they point to; a nil pointer that
    comes before any pointer to [subject] makes it panic, one that comes
    after is never looked at. *)
Theorem InStringPs_nil_pointer (subject : string) (l : list string)
  (rest : list (option string)) :
  strutil.InStringPs subject (map Some l) = Some (strutil.InStrings subject l)
  /\ strutil.InStringPs subject (map Some l ++ None :: rest)%list
     = if strutil.InStrings subject l then Some true else None.
Proof.
  induction l as [|item l [IH1 IH2]]; [split; reflexivity|].
  cbn [map app strutil.InStringPs strutil.InStrings].
  destruct (String.eqb subject item); [split; reflexivity|].
  split; assumption.
Qed.

(** * Package [scalar] *)

Section ScalarFacts.

Variable s : Type.
Variable eqb : s -> s -> bool.
Variable zero : s.

(** Strict equality implies equality. *)
Theorem EqualPStrict_EqualP (x y : option s) :
  scalar.EqualPStrict s eqb x y = true -> scalar.EqualP s eqb zero x y = true.
Proof.
  destruct x as [vx|], y as [vy|]; simpl; intros H;
    [exact H | discriminate | discriminate | reflexivity].
Qed.

(** The two differ exactly when one pointer is nil and the other points to
    the zero value. *)
Theorem EqualP_beyond_strict (x y : option s) :
  (scalar.EqualP s eqb zero x y = true /\ scalar.EqualPStrict s eqb x y = false)
  <-> ((x = None /\ exists v, y = Some v /\ eqb v zero = true)
       \/ (y = None /\ exists v, x = Some v /\ eqb v zero = true)).
Proof.
  destruct x as [vx|], y as [vy|]; simpl; split.
  - intros [H1 H2]. congruence.
  - intros [[H _]|[H _]]; discriminate.
  - intros [H _]. right. split; [reflexivity|]. exists vx. auto.
  - intros [[H _]|[_ (v & Hv & E)]]; [discriminate|].
    injection Hv as <-. auto.
  - intros [H _]. left. split; [reflexivity|]. exists vy. auto.
  - intros [[_ (v & Hv & E)]|[H _]]; [|discriminate].
    injection Hv as <-. auto.
  - intros [_ H]. discriminate.
  - intros [[_ (v & Hv & _)]|[_ (v & Hv & _)]]; discriminate.
Qed.

(** When [==] holds of the zero value with itself and does not depend on the
    side the zero value is on, [EqualP] compares the values pointed to, a nil
    pointer standing for the zero value. *)
Theorem EqualP_nil_as_zero (x y : option s) :
  eqb zero zero = true -> (forall v, eqb zero v = eqb v zero) ->
  scalar.EqualP s eqb zero x y
  = eqb (match x with Some v => v | None => zero end)
        (match y with Some v => v | None => zero end).
Proof.
  intros Hz Hs. destruct x as [vx|], y as [vy|]; simpl; auto.
Qed.

End ScalarFacts.

Lemma EqualPStrict_EqualP_at_int :
  scalar.EqualP Z Z.eqb 0 (Some 128) (Some 128) = true.
Proof.
  apply (EqualPStrict_EqualP Z Z.eqb 0 (Some 128) (Some 128)). reflexivity.
Defined.

Lemma EqualP_nil_as_zero_at_int :
  scalar.EqualP Z Z.eqb 0 None (Some 0) = (0 =? 0).
Proof.
  apply (EqualP_nil_as_zero Z Z.eqb 0 None (Some 0)).
  - reflexivity.
  - intros v. apply Z.eqb_sym.
Defined.

(** * Package [util] *)

(** What [EnsureSemverPrefix] returns starts with exactly one 'v': it is "v"
    followed by the argument without all its leading 'v'. *)
Theorem EnsureSemverPrefix_single_v (s : string) :
  exists t, util.EnsureSemverPrefix s = String "v" t
            /\ t = strings.TrimLeft s "v"
            /\ first_byte t <> Some "v"%char.
Proof.
  exists (strings.TrimLeft s "v"). split; [reflexivity|]. split; [reflexivity|].
  intros H. apply TrimLeft_first in H. discriminate H.
Qed.

Lemma TrimLeft_idempotent (s cutset : string) :
  strings.TrimLeft (strings.TrimLeft s cutset) cutset = strings.TrimLeft s cutset.
Proof.
  induction s as [|c s IH]; [reflexivity|]. cbn [strings.TrimLeft].
  destruct (strings.mem_byte c cutset) eqn:E; [exact IH|].
  cbn [strings.TrimLeft]. now rewrite E.
Qed.

(** [EnsureSemverPrefix] is idempotent, and the number of leading 'v' of its
    argument does not matter. *)
Theorem EnsureSemverPrefix_idempotent (s : string) :
  util.EnsureSemverPrefix (util.EnsureSemverPrefix s) = util.EnsureSemverPrefix s
  /\ util.EnsureSemverPrefix (String "v" s) = util.EnsureSemverPrefix s.
Proof.
  split; [|reflexivity].
  unfold util.EnsureSemverPrefix.
  change (strings.TrimLeft ("v" ++ strings.TrimLeft s "v") "v")
    with (strings.TrimLeft (strings.TrimLeft s "v") "v").
  now rewrite TrimLeft_idempotent.
Qed.

(** * Package [fieldpath] *)

Import fieldpath.

(** ** [strings.Split] and [strings.Join] *)

Lemma prefix_drop (sep s : string) :
  prefix sep s = true -> s = sep ++ drop (String.length sep) s.
Proof.
  revert s; induction sep as [|c sep IH]; intros s H; [reflexivity|].
  destruct s as [|d s]; [discriminate|]. cbn [prefix] in H.
  destruct (ascii_dec c d) as [->|]; [|discriminate].
  change (String d s = String d (sep ++ drop (String.length sep) s)).
  f_equal. exact (IH s H).
Qed.

Lemma Join_cons (a : string) (l : list string) (sep : string) :
  strings.Join (a :: l) sep =
  match l with
  | [] => a
  | _ :: _ => a ++ sep ++ strings.Join l sep
  end.
Proof. destruct l; reflexivity. Qed.

Lemma append_assoc (a b c : string) : (a ++ b) ++ c = a ++ b ++ c.
Proof. induction a as [|x a IH]; simpl; [|rewrite IH]; reflexivity. Qed.

Lemma split_scan_join (sep : string) (s : string) (k : nat) :
  sep <> "" ->
  let r := strings.split_scan sep k s in
  strings.Join (fst r :: snd r) sep = drop k s.
Proof.
  intros Hsep. revert k; induction s as [|c s IH]; intros k.
  - destruct k; reflexivity.
  - cbn [strings.split_scan]. destruct k as [|k]; [|exact (IH k)].
    destruct (prefix sep (String c s)) eqn:E.
    + cbv zeta. cbn [fst snd]. rewrite Join_cons.
      specialize (IH (pred (String.length sep))). cbv zeta in IH. rewrite IH.
      change (sep ++ drop (pred (String.length sep)) s = String c s).
      etransitivity; [|symmetry; exact (prefix_drop _ _ E)].
      destruct sep as [|x sep']; [congruence | reflexivity].
    + cbv zeta. cbn [fst snd drop].
      specialize (IH 0%nat). cbv zeta in IH. cbn [drop] in IH.
      rewrite Join_cons in *.
      destruct (snd (strings.split_scan sep 0 s));
        apply (f_equal (String c)) in IH; exact IH.
Qed.

(** Joining the pieces of a split gives the string back. *)
Lemma Join_Split (s sep : string) : strings.Join (strings.Split s sep) sep = s.
Proof.
  unfold strings.Split. destruct sep as [|x sep'] eqn:E; [reflexivity|].
  rewrite <- E. apply (split_scan_join sep s 0). congruence.
Qed.

Lemma prefix_byte (c d : ascii) (s : string) :
  prefix (String c "") (String d s) = Ascii.eqb d c.
Proof.
  cbn [prefix]. destruct (ascii_dec c d) as [->|H].
  - rewrite Ascii.eqb_refl. destruct s; reflexivity.
  - symmetry. apply Ascii.eqb_neq. congruence.
Qed.

Lemma split_scan_count (c : ascii) (s : string) :
  List.length (snd (strings.split_scan (String c "") 0 s)) = count_byte c s.
Proof.
  induction s as [|d s IH]; [reflexivity|].
  cbn [strings.split_scan count_byte]. rewrite prefix_byte.
  destruct (Ascii.eqb d c); cbn [String.length pred snd List.length];
    now rewrite IH.
Qed.

(** ** Slices *)

Lemma length_set_nth (i : nat) (x : string) (l : list string) :
  List.length (set_nth i x l) = List.length l.
Proof.
  revert i; induction l as [|y l IH]; intros [|i]; simpl; auto.
Qed.

Lemma nth_set_array_same (a : nat) (arr : list string) (h : heap) :
  (a < List.length h)%nat -> nth a (set_array a arr h) [] = arr.
Proof.
  revert a; induction h as [|b h IH]; intros [|a] H; simpl in *; try lia; auto.
  apply IH. lia.
Qed.

Lemma nth_set_array_other (a b : nat) (arr : list string) (h : heap) :
  a <> b -> nth b (set_array a arr h) [] = nth b h [].
Proof.
  revert a b; induction h as [|c h IH]; intros [|a] [|b] H; simpl; auto;
    try congruence.
Qed.

Lemma length_set_array (a : nat) (arr : list string) (h : heap) :
  List.length (set_array a arr h) = List.length h.
Proof.
  revert a; induction h as [|b h IH]; intros [|a]; simpl; auto.
Qed.

(** Writing just after a window extends it by the element written. *)
Lemma window_set_nth (o n : nat) (x : string) (l : list string) :
  (o + n < List.length l)%nat ->
  firstn (S n) (skipn o (set_nth (o + n) x l))
  = (firstn n (skipn o l) ++ [x])%list.
Proof.
  revert l n; induction o as [|o IHo]; intros l n H.
  - cbn [skipn Nat.add]. revert l H; induction n as [|n IHn]; intros [|y l] H;
      simpl in *; try lia; [reflexivity|].
    f_equal. apply IHn. lia.
  - destruct l as [|y l]; [simpl in H; lia|].
    cbn [Nat.add set_nth skipn]. apply IHo. simpl in H. lia.
Qed.

(** Writing at a position leaves a window that ends before it as it is. *)
Lemma window_before_set_nth (o n i : nat) (x : string) (l : list string) :
  (o + n <= i)%nat ->
  firstn n (skipn o (set_nth i x l)) = firstn n (skipn o l).
Proof.
  revert l n i; induction o as [|o IHo]; intros l n i H.
  - cbn [skipn]. revert l i H; induction n as [|n IHn]; intros [|y l] [|i] H;
      simpl in *; try lia; try reflexivity.
    f_equal. apply IHn. lia.
  - destruct l as [|y l]; [destruct i; reflexivity|].
    destruct i as [|i]; [lia|]. cbn [set_nth skipn]. apply IHo. lia.
Qed.

Lemma backing_nonempty (h : heap) (s : slice) :
  (0 < List.length (backing h s))%nat -> (sarr s < List.length h)%nat.
Proof.
  unfold backing. intros H.
  destruct (Nat.lt_ge_cases (sarr s) (List.length h)) as [L|G]; [exact L|].
  rewrite nth_overflow in H by exact G. simpl in H. lia.
Qed.

Lemma length_elems (h : heap) (s : slice) :
  slice_ok h s -> List.length (elems h s) = slen s.
Proof.
  intros [H1 H2]. unfold elems.
  rewrite length_firstn, length_skipn. lia.
Qed.

Lemma get_elems (h : heap) (s : slice) (i : nat) :
  (i < slen s)%nat -> get h s i = nth i (elems h s) "".
Proof.
  intros H. unfold get, elems.
  rewrite nth_firstn.
  replace (i <? slen s)%nat with true by (symmetry; apply Nat.ltb_lt; lia).
  now rewrite nth_skipn.
Qed.

Lemma elems_reslice (h : heap) (s : slice) (lo hi : nat) :
  (hi <= slen s)%nat ->
  elems h (reslice s lo hi) = firstn (hi - lo) (skipn lo (elems h s)).
Proof.
  intros H. unfold elems, reslice, backing. cbn [sarr soff slen].
  rewrite skipn_firstn_comm, firstn_firstn, skipn_skipn.
  replace (Nat.min (hi - lo) (slen s - lo)) with (hi - lo)%nat by lia.
  now rewrite Nat.add_comm.
Qed.

Lemma reslice_ok (h : heap) (s : slice) (lo hi : nat) :
  slice_ok h s -> (lo <= hi <= slen s)%nat -> slice_ok h (reslice s lo hi).
Proof.
  intros [H1 H2] H. unfold slice_ok, reslice, backing in *.
  cbn [sarr soff slen scap]. lia.
Qed.

Lemma set_nth_split (k : nat) (x : string) (l : list string) :
  (k < List.length l)%nat ->
  set_nth k x l = (firstn k l ++ x :: skipn (S k) l)%list.
Proof.
  revert k; induction l as [|y l IH]; intros [|k] H; simpl in *; try lia;
    [reflexivity|].
  f_equal. apply IH. lia.
Qed.

Lemma skipn_set_nth (o k : nat) (x : string) (l : list string) :
  skipn o (set_nth (o + k) x l) = set_nth k x (skipn o l).
Proof.
  revert l; induction o as [|o IH]; intros l; [reflexivity|].
  destruct l as [|y l]; [destruct k; reflexivity|].
  cbn [Nat.add set_nth skipn]. apply IH.
Qed.

Lemma firstn_set_nth (n k : nat) (x : string) (l : list string) :
  (k < n)%nat -> firstn n (set_nth k x l) = set_nth k x (firstn n l).
Proof.
  revert n k; induction l as [|y l IH]; intros [|n] [|k] H; simpl; try lia;
    try reflexivity.
  f_equal. apply IH. lia.
Qed.

Section FieldpathFacts.

Variable growcap : nat -> nat -> nat.
Hypothesis growcap_enough : forall oldcap needed, (needed <= growcap oldcap needed)%nat.

(** [append] adds the element at the end, and the slice it returns fits the
    heap it returns. *)
Lemma append_elems (h : heap) (s : slice) (x : string) :
  slice_ok h s ->
  elems (fst (append growcap h s x)) (snd (append growcap h s x))
  = (elems h s ++ [x])%list
  /\ slice_ok (fst (append growcap h s x)) (snd (append growcap h s x)).
Proof.
  intros Hok. pose proof Hok as [H1 H2]. unfold append.
  destruct (Nat.ltb_spec (slen s) (scap s)) as [L|G]; cbn [fst snd].
  - assert (Ha : (sarr s < List.length h)%nat) by (apply backing_nonempty; lia).
    unfold elems, slice_ok, backing in *. cbn [sarr soff slen scap].
    rewrite nth_set_array_same by exact Ha.
    rewrite length_set_nth. split; [|lia].
    apply window_set_nth. lia.
  - pose proof (growcap_enough (scap s) (S (slen s))) as Hg.
    pose proof (length_elems h s Hok) as Hl.
    unfold elems at 1, slice_ok, backing. cbn [sarr soff slen scap skipn].
    rewrite nth_middle. split.
    + rewrite firstn_app, Hl. replace (S (slen s) - slen s)%nat with 1%nat by lia.
      rewrite firstn_all2 by lia. reflexivity.
    + rewrite length_app, Hl. cbn [List.length]. rewrite repeat_length. lia.
Qed.

Lemma PushBack_Pop_parts (h : heap) (p : Path) (part : string) :
  slice_ok h (parts p) ->
  let h1 := fst (PushBack growcap h p part) in
  let p1 := snd (PushBack growcap h p part) in
  parts_of h1 p1 = (parts_of h p ++ [part])%list
  /\ fst (Pop h1 p1) = part
  /\ parts_of h1 (snd (Pop h1 p1)) = parts_of h p.
Proof.
  intros Hok h1 p1.
  destruct (append_elems h (parts p) part Hok) as [He Hs].
  assert (E1 : parts_of h1 p1 = (parts_of h p ++ [part])%list) by exact He.
  assert (Hn : slen (parts p1) = S (slen (parts p))).
  { subst p1. unfold PushBack, append. cbn [snd parts].
    destruct (Nat.ltb (slen (parts p)) (scap (parts p))); reflexivity. }
  pose proof (length_elems h (parts p) Hok) as Hl.
  split; [exact E1|]. unfold Pop. rewrite Hn. cbn [Nat.ltb Nat.leb fst snd].
  replace (S (slen (parts p)) - 1)%nat with (slen (parts p)) by lia.
  split.
  - rewrite get_elems by lia. fold (parts_of h1 p1). rewrite E1.
    unfold parts_of. rewrite app_nth2 by lia. rewrite Hl, Nat.sub_diag.
    reflexivity.
  - unfold parts_of at 1. cbn [parts].
    rewrite elems_reslice by lia. fold (parts_of h1 p1). rewrite E1.
    cbn [skipn]. rewrite Nat.sub_0_r. unfold parts_of.
    rewrite firstn_app, Hl, Nat.sub_diag, firstn_all2 by lia.
    cbn [firstn]. apply app_nil_r.
Qed.

(** Pushing a part and popping gives the part back and the parts as they
    were. *)
Theorem PushBack_then_Pop (h : heap) (p : Path) (part : string) :
  slice_ok h (parts p) ->
  let h1 := fst (PushBack growcap h p part) in
  let p1 := snd (PushBack growcap h p part) in
  parts_of h1 p1 = (parts_of h p ++ [part])%list
  /\ fst (Pop h1 p1) = part
  /\ parts_of h1 (snd (Pop h1 p1)) = parts_of h p.
Proof. apply PushBack_Pop_parts. Qed.

(** A part pushed onto a copy made by [CopyAt] is written over the next
    part of the original Path, because the two share a backing array. *)
Theorem CopyAt_PushBack_overwrites (h : heap) (p q : Path) (index : Z)
  (part : string) :
  slice_ok h (parts p) ->
  0 <= index -> index + 1 < Size p ->
  CopyAt p index = Some q ->
  let h1 := fst (PushBack growcap h q part) in
  parts_of h q = firstn (Z.to_nat index + 1) (parts_of h p)
  /\ parts_of h1 p
     = (firstn (Z.to_nat index + 1) (parts_of h p)
        ++ part :: skipn (Z.to_nat index + 2) (parts_of h p))%list.
Proof.
  intros Hok Hi Hlt Hq h1. pose proof Hok as [H1 H2]. unfold Size in Hlt.
  unfold CopyAt in Hq.
  replace (index <? 0) with false in Hq by (symmetry; apply Z.ltb_ge; lia).
  replace (Z.of_nat (slen (parts p)) =? 0) with false in Hq
    by (symmetry; apply Z.eqb_neq; lia).
  replace (Z.of_nat (slen (parts p)) - 1 <? index) with false in Hq
    by (symmetry; apply Z.ltb_ge; lia).
  cbn [orb] in Hq. injection Hq as <-.
  set (k := (Z.to_nat index + 1)%nat) in *.
  assert (Hk : (k < slen (parts p))%nat) by lia.
  split.
  - unfold parts_of. cbn [parts]. rewrite elems_reslice by lia.
    now rewrite Nat.sub_0_r.
  - subst h1. unfold PushBack, append. cbn [parts reslice sarr soff slen scap].
    rewrite Nat.add_0_r, !Nat.sub_0_r.
    replace (Nat.ltb k (scap (parts p))) with true
      by (symmetry; apply Nat.ltb_lt; lia).
    cbn [fst].
    assert (Ha : (sarr (parts p) < List.length h)%nat)
      by (apply backing_nonempty; lia).
    unfold parts_of, elems, backing. cbn [sarr].
    rewrite nth_set_array_same by exact Ha.
    fold (backing h (parts p)).
    rewrite skipn_set_nth, firstn_set_nth by lia.
    change (nth (sarr (reslice (parts p) 0 k)) h []) with (backing h (parts p)).
    rewrite set_nth_split by (rewrite length_firstn, length_skipn; lia).
    replace (Z.to_nat index + 2)%nat with (S k) by lia. reflexivity.
Qed.

(** On a Path whose slice is full, as [FromString] makes them,
    [PushBack] allocates: no slice that fits the old heap changes. *)
Theorem PushBack_full_leaves_others (h : heap) (p : Path) (part : string)
  (s : slice) :
  slen (parts p) = scap (parts p) -> slice_ok h s ->
  elems (fst (PushBack growcap h p part)) s = elems h s
  /\ slice_ok (fst (PushBack growcap h p part)) s.
Proof.
  intros Hfull [H1 H2]. unfold PushBack, append. rewrite Hfull, Nat.ltb_irrefl.
  cbn [fst]. unfold elems, slice_ok, backing in *.
  destruct (Nat.lt_ge_cases (sarr s) (List.length h)) as [L|G].
  - rewrite app_nth1 by exact L. split; [reflexivity | lia].
  - rewrite (nth_overflow h) in * by exact G. cbn [List.length] in H1.
    assert (Z0 : slen s = 0%nat) by lia. rewrite Z0. split; [reflexivity | lia].
Qed.

End FieldpathFacts.

(** The dotted notation of the Path made from a string is that string. *)
Theorem FromString_String (h : heap) (dotted : string) :
  String_ (fst (FromString h dotted)) (snd (FromString h dotted)) = dotted.
Proof.
  unfold String_, FromString, elems, backing. cbn [fst snd parts sarr soff slen].
  rewrite nth_middle. cbn [skipn]. rewrite firstn_all. apply Join_Split.
Qed.

Lemma FromString_made (h : heap) (dotted : string) :
  let p := snd (FromString h dotted) in
  let h1 := fst (FromString h dotted) in
  parts_of h1 p = strings.Split dotted "."
  /\ Size p = 1 + Z.of_nat (count_byte "." dotted)
  /\ Empty p = false
  /\ slen (parts p) = scap (parts p)
  /\ slice_ok h1 (parts p).
Proof.
  cbv zeta. unfold parts_of, FromString, Size, Empty, slice_ok, elems, backing.
  cbn [fst snd parts sarr soff slen scap].
  rewrite nth_middle. cbn [skipn]. rewrite firstn_all.
  unfold strings.Split. cbn [List.length].
  rewrite (split_scan_count "." dotted).
  repeat split; lia.
Qed.

(** A Path made from a string has one part more than the string has
    dots, so it is never empty; its slice is full and fits the heap. *)
Theorem FromString_Size (h : heap) (dotted : string) :
  let p := snd (FromString h dotted) in
  let h1 := fst (FromString h dotted) in
  parts_of h1 p = strings.Split dotted "."
  /\ Size p = 1 + Z.of_nat (count_byte "." dotted)
  /\ Empty p = false
  /\ slen (parts p) = scap (parts p)
  /\ slice_ok h1 (parts p).
Proof. apply FromString_made. Qed.

(** [At] is the list lookup of the parts with the empty string outside
    the bounds, negative indices included; [Front] and [Back] are [At] at the
    two ends. *)
Theorem At_nth (h : heap) (p : Path) (index : Z) :
  slice_ok h (parts p) ->
  At h p index
  = (if index <? 0 then "" else nth (Z.to_nat index) (parts_of h p) "")
  /\ Front h p = At h p 0
  /\ Back h p = At h p (Size p - 1).
Proof.
  intros Hok. pose proof (length_elems h (parts p) Hok) as Hl.
  unfold At, Front, Back, Size, parts_of.
  split; [|split].
  - destruct (Z.ltb_spec index 0) as [N|N]; [reflexivity|]. cbn [orb].
    destruct (Z.eqb_spec (Z.of_nat (slen (parts p))) 0) as [E|E].
    + cbn [orb]. rewrite nth_overflow by lia. reflexivity.
    + cbn [orb].
      destruct (Z.ltb_spec (Z.of_nat (slen (parts p)) - 1) index) as [G|G].
      * rewrite nth_overflow by lia. reflexivity.
      * apply get_elems. lia.
  - destruct (Nat.eqb_spec (slen (parts p)) 0) as [E|E].
    + rewrite E. reflexivity.
    + replace (Z.of_nat (slen (parts p)) =? 0) with false
        by (symmetry; apply Z.eqb_neq; lia).
      replace (Z.of_nat (slen (parts p)) - 1 <? 0) with false
        by (symmetry; apply Z.ltb_ge; lia).
      reflexivity.
  - destruct (Nat.eqb_spec (slen (parts p)) 0) as [E|E].
    + rewrite E. reflexivity.
    + replace (Z.of_nat (slen (parts p)) - 1 <? 0) with false
        by (symmetry; apply Z.ltb_ge; lia).
      replace (Z.of_nat (slen (parts p)) =? 0) with false
        by (symmetry; apply Z.eqb_neq; lia).
      rewrite Z.ltb_irrefl. cbn [orb]. f_equal. lia.
Qed.

Lemma nth_pred_last (l : list string) :
  nth (List.length l - 1) l "" = last l "".
Proof.
  induction l as [|a l IH]; [reflexivity|].
  destruct l as [|b l]; [reflexivity|].
  change (last (a :: b :: l) "") with (last (b :: l) ""). rewrite <- IH.
  cbn [List.length].
  replace (S (S (List.length l)) - 1)%nat with (S (S (List.length l) - 1)) by lia.
  reflexivity.
Qed.

Lemma firstn_pred_removelast (l : list string) :
  firstn (List.length l - 1) l = removelast l.
Proof.
  rewrite removelast_firstn_len. f_equal. lia.
Qed.

(** [Pop] returns the last part and leaves the others, [PopFront] the
    first; on an empty Path both return the empty string and leave the Path
    empty. *)
Theorem Pop_PopFront_parts (h : heap) (p : Path) :
  slice_ok h (parts p) ->
  fst (Pop h p) = last (parts_of h p) ""
  /\ parts_of h (snd (Pop h p)) = removelast (parts_of h p)
  /\ fst (PopFront h p) = hd "" (parts_of h p)
  /\ parts_of h (snd (PopFront h p)) = tl (parts_of h p)
  /\ slice_ok h (parts (snd (Pop h p)))
  /\ slice_ok h (parts (snd (PopFront h p))).
Proof.
  intros Hok. pose proof (length_elems h (parts p) Hok) as Hl.
  unfold Pop, PopFront, parts_of.
  destruct (Nat.ltb_spec 0 (slen (parts p))) as [L|G]; cbn [fst snd parts].
  - assert (O1 : slice_ok h (reslice (parts p) 0 (slen (parts p) - 1)))
      by (apply reslice_ok; [exact Hok | lia]).
    assert (O2 : slice_ok h (reslice (parts p) 1 (slen (parts p))))
      by (apply reslice_ok; [exact Hok | lia]).
    refine (conj _ (conj _ (conj _ (conj _ (conj O1 O2))))).
    + rewrite get_elems by lia. rewrite <- Hl. apply nth_pred_last.
    + rewrite elems_reslice by lia. rewrite Nat.sub_0_r. cbn [skipn].
      rewrite <- Hl. apply firstn_pred_removelast.
    + rewrite get_elems by lia.
      destruct (elems h (parts p)); [simpl in Hl; lia | reflexivity].
    + rewrite elems_reslice by lia. rewrite <- Hl.
      destruct (elems h (parts p)) as [|a l]; [reflexivity|].
      cbn [skipn List.length].
      replace (S (List.length l) - 1)%nat with (List.length l) by lia.
      apply firstn_all.
  - assert (E : elems h (parts p) = []).
    { apply length_zero_iff_nil. lia. }
    rewrite E.
    split; [reflexivity|]. split; [reflexivity|]. split; [reflexivity|].
    split; [reflexivity|]. split; exact Hok.
Qed.

(** [CopyAt] returns nil exactly for an index outside the Path, and
    otherwise a Path with the parts up to and including the index. *)
Theorem CopyAt_parts (h : heap) (p : Path) (index : Z) :
  slice_ok h (parts p) ->
  (CopyAt p index = None <-> (index < 0 \/ Size p <= index))
  /\ (forall q, CopyAt p index = Some q ->
        parts_of h q = firstn (Z.to_nat index + 1) (parts_of h p)
        /\ Size q = index + 1
        /\ slice_ok h (parts q)).
Proof.
  intros Hok. unfold CopyAt, Size.
  destruct (Z.ltb_spec index 0) as [N|N]; cbn [orb].
  { split; [split; [lia | reflexivity] | discriminate]. }
  destruct (Z.eqb_spec (Z.of_nat (slen (parts p))) 0) as [E|E]; cbn [orb].
  { split; [split; [lia | reflexivity] | discriminate]. }
  destruct (Z.ltb_spec (Z.of_nat (slen (parts p)) - 1) index) as [G|G].
  { split; [split; [lia | reflexivity] | discriminate]. }
  split; [split; [discriminate | lia]|].
  intros q H; injection H as <-. unfold parts_of. cbn [parts].
  rewrite elems_reslice by lia. rewrite Nat.sub_0_r. cbn [skipn].
  split; [reflexivity|]. split.
  - cbn [reslice slen]. lia.
  - apply reslice_ok; [exact Hok | lia].
Qed.

Lemma skipn_nth_cons (l : list string) (i : nat) :
  (i < List.length l)%nat -> skipn i l = nth i l "" :: skipn (S i) l.
Proof.
  revert i; induction l as [|a l IH]; intros [|i] H; simpl in *; try lia; auto.
  apply IH. lia.
Qed.

Lemma prefix_loop_firstn (h : heap) (s : slice) (l : list string) (i : nat) :
  slice_ok h s -> (i + List.length l <= slen s)%nat ->
  prefix_loop h s i l = true <-> firstn (List.length l) (skipn i (elems h s)) = l.
Proof.
  intros Hok. pose proof (length_elems h s Hok) as Hl.
  revert i; induction l as [|x l IH]; intros i H; cbn [prefix_loop List.length].
  - split; reflexivity.
  - cbn [List.length] in H.
    rewrite get_elems by lia. rewrite skipn_nth_cons by lia. cbn [firstn].
    destruct (String.eqb_spec (nth i (elems h s) "") x) as [->|Hne]; cbn [negb].
    + rewrite (IH (S i)) by lia. split; [intros ->; reflexivity|].
      intros K; injection K as K; exact K.
    + split; [discriminate|]. intros K; injection K as K _. contradiction.
Qed.

Lemma HasPrefix_split (h : heap) (p : Path) (subject : string) :
  slice_ok h (parts p) ->
  (HasPrefix h p subject = true
   <-> exists rest, parts_of h p = (strings.Split subject "." ++ rest)%list)
  /\ (parts_of h p = [] -> HasPrefix h p subject = false).
Proof.
  intros Hok. pose proof (length_elems h (parts p) Hok) as Hl.
  assert (Hne : strings.Split subject "." <> []) by (unfold strings.Split; discriminate).
  assert (A : HasPrefix h p subject = true
              <-> exists rest, parts_of h p = (strings.Split subject "." ++ rest)%list).
  { unfold HasPrefix, parts_of. cbv zeta.
    destruct (Nat.ltb_spec (slen (parts p)) (List.length (strings.Split subject ".")))
      as [L|G].
    - split; [discriminate|]. intros [rest E].
      rewrite E, length_app in Hl. lia.
    - rewrite prefix_loop_firstn by (auto; lia). cbn [skipn]. split.
      + intros E.
        exists (skipn (List.length (strings.Split subject ".")) (elems h (parts p))).
        etransitivity; [symmetry; apply firstn_skipn|].
        f_equal. exact E.
      + intros [rest E]. rewrite E, firstn_app, Nat.sub_diag, firstn_all.
        cbn [firstn]. apply app_nil_r. }
  split; [exact A|].
  intros E. destruct (HasPrefix h p subject) eqn:K; [|reflexivity].
  destruct (proj1 A eq_refl) as [rest R]. rewrite E in R. rename R into K0.
  clear K. rename K0 into K.
  destruct (strings.Split subject "."); [congruence | discriminate].
Qed.

(** [HasPrefix] holds exactly when the parts of the Path start with the
    pieces of the subject between its dots; so no subject is a prefix of an
    empty Path, and the string a Path was made from is a prefix of it. *)
Theorem HasPrefix_parts (h : heap) (p : Path) (subject : string) :
  slice_ok h (parts p) ->
  (HasPrefix h p subject = true
   <-> exists rest, parts_of h p = (strings.Split subject "." ++ rest)%list)
  /\ (parts_of h p = [] -> HasPrefix h p subject = false).
Proof. apply HasPrefix_split. Qed.

Lemma HasPrefix_parts_at_Author_Name :
  HasPrefix [["Author"; "Name"]] (mkPath (mkSlice 0 0 2 2)) "Author" = true.
Proof.
  apply (HasPrefix_parts [["Author"; "Name"]] (mkPath (mkSlice 0 0 2 2)) "Author").
  - split; simpl; lia.
  - exists ["Name"]. reflexivity.
Defined.

(** The string a Path was made from is a prefix of it, and stays one when
    parts are pushed. *)
Theorem FromString_HasPrefix (growcap : nat -> nat -> nat) (h : heap)
  (dotted part : string) :
  (forall oldcap needed, (needed <= growcap oldcap needed)%nat) ->
  let h1 := fst (FromString h dotted) in
  let p1 := snd (FromString h dotted) in
  let h2 := fst (PushBack growcap h1 p1 part) in
  let p2 := snd (PushBack growcap h1 p1 part) in
  HasPrefix h1 p1 dotted = true /\ HasPrefix h2 p2 dotted = true.
Proof.
  intros Hg h1 p1 h2 p2.
  destruct (FromString_made h dotted) as (Hp & _ & _ & _ & Hok).
  fold h1 p1 in Hp, Hok.
  destruct (PushBack_Pop_parts growcap Hg h1 p1 part Hok) as (Hp2 & _ & _).
  fold h2 p2 in Hp2.
  pose proof (proj2 (append_elems growcap Hg h1 (parts p1) part Hok)) as Hok2.
  split.
  - apply (HasPrefix_split h1 p1 dotted Hok). exists []. rewrite Hp.
    symmetry. apply app_nil_r.
  - apply (HasPrefix_split h2 p2 dotted Hok2). exists [part]. now rewrite Hp2, Hp.
Qed.

(** The scenario of [TestBasics] and [TestHasPrefix], with a capacity policy
    that doubles. *)
Lemma TestBasics :
  let (h0, pname) := FromString [] "Author.Name" in
  let (h1, pstate) := FromString h0 "Author.Address.State" in
  let pauth := CopyAt pstate 0 in
  let (last_, pstate1) := Pop h1 pstate in
  let (h2, pstate2) := PushBack double_cap h1 pstate1 "Country" in
  let (front, pstate3) := PopFront h2 pstate2 in
  let pstate4 := snd (Pop h2 pstate3) in
  let pstate5 := snd (Pop h2 pstate4) in
  String_ h0 pname = "Author.Name"
  /\ String_ h1 pstate = "Author.Address.State"
  /\ Front h1 pstate = "Author" /\ Back h1 pstate = "State"
  /\ At h1 pstate 0 = "Author" /\ At h1 pstate 1 = "Address"
  /\ At h1 pstate 2 = "State" /\ At h1 pstate 3 = ""
  /\ option_map (String_ h1) pauth = Some "Author"
  /\ last_ = "State" /\ Back h1 pstate1 = "Address"
  /\ Back h2 pstate2 = "Country"
  /\ front = "Author" /\ Front h2 pstate3 = "Address"
  /\ Empty pstate3 = false /\ Empty pstate4 = false /\ Empty pstate5 = true
  /\ HasPrefix h0 pname "Author.Name" = true
  /\ HasPrefix h0 pname "Author" = true
  /\ HasPrefix h0 pname "Name" = false
  /\ HasPrefix h0 pname "Author.Address" = false
  /\ HasPrefix h0 pname "author" = false.
Proof. vm_compute. repeat split. Qed.

Lemma PushBack_then_Pop_at_Author :
  fst (Pop (fst (PushBack double_cap [["Author"]] (mkPath (mkSlice 0 0 1 1)) "Name"))
         (snd (PushBack double_cap [["Author"]] (mkPath (mkSlice 0 0 1 1)) "Name")))
  = "Name".
Proof.
  refine (proj1 (proj2 (PushBack_then_Pop double_cap _ [["Author"]]
                          (mkPath (mkSlice 0 0 1 1)) "Name" _))).
  - intros oldcap needed. unfold double_cap. lia.
  - split; simpl; lia.
Defined.

Lemma CopyAt_PushBack_overwrites_at_X_Y :
  parts_of (fst (PushBack double_cap [["X"; "Y"]] (mkPath (mkSlice 0 0 1 2)) "Z"))
    (mkPath (mkSlice 0 0 2 2))
  = ["X"; "Z"].
Proof.
  refine (proj2 (CopyAt_PushBack_overwrites double_cap [["X"; "Y"]]
                   (mkPath (mkSlice 0 0 2 2)) (mkPath (mkSlice 0 0 1 2)) 0 "Z"
                   _ _ _ _)).
  - split; simpl; lia.
  - lia.
  - reflexivity.
  - reflexivity.
Defined.

Lemma PushBack_full_leaves_others_at_X_Y :
  elems (fst (PushBack double_cap [["X"; "Y"]] (mkPath (mkSlice 0 0 2 2)) "Z"))
    (mkSlice 0 0 2 2)
  = ["X"; "Y"].
Proof.
  refine (proj1 (PushBack_full_leaves_others double_cap [["X"; "Y"]]
                   (mkPath (mkSlice 0 0 2 2)) "Z" (mkSlice 0 0 2 2) _ _)).
  - reflexivity.
  - split; simpl; lia.
Defined.

Lemma At_nth_at_Author :
  At [["Author"; "Name"]] (mkPath (mkSlice 0 0 2 2)) 5 = "".
Proof.
  refine (proj1 (At_nth [["Author"; "Name"]] (mkPath (mkSlice 0 0 2 2)) 5 _)).
  split; simpl; lia.
Defined.

Lemma Pop_PopFront_parts_at_Author :
  fst (Pop [["Author"; "Name"]] (mkPath (mkSlice 0 0 2 2))) = "Name".
Proof.
  refine (proj1 (Pop_PopFront_parts [["Author"; "Name"]] (mkPath (mkSlice 0 0 2 2)) _)).
  split; simpl; lia.
Defined.

Lemma CopyAt_parts_at_Author :
  CopyAt (mkPath (mkSlice 0 0 2 2)) 2 = None.
Proof.
  refine (proj2 (proj1 (CopyAt_parts [["Author"; "Name"]]
                          (mkPath (mkSlice 0 0 2 2)) 2 _)) _).
  - split; simpl; lia.
  - right. unfold Size. simpl. lia.
Defined.

Lemma FromString_HasPrefix_at_Author_Name :
  HasPrefix (fst (FromString [] "Author.Name")) (snd (FromString [] "Author.Name"))
    "Author.Name" = true.
Proof.
  refine (proj1 (FromString_HasPrefix double_cap [] "Author.Name" "State" _)).
  intros oldcap needed. unfold double_cap. lia.
Defined.

(** ** Prefixes up to case *)

Section FoldFacts.

Variable EqualFold : string -> string -> bool.
Hypothesis EqualFold_refl : forall a, EqualFold a a = true.

Lemma prefix_loop_fold (h : heap) (s : slice) (i : nat) (l : list string) :
  prefix_loop h s i l = true -> prefix_fold_loop EqualFold h s i l = true.
Proof.
  revert i; induction l as [|x l IH]; intros i; [reflexivity|].
  cbn [prefix_loop prefix_fold_loop].
  destruct (String.eqb_spec (get h s i) x) as [->|_]; [|discriminate].
  cbn [negb]. rewrite EqualFold_refl. cbn [negb]. apply IH.
Qed.

(** Whatever [HasPrefix] accepts, [HasPrefixFold] accepts: the two differ
    only in the comparison of the parts, and a string is equal to itself
    under case folding. *)
Theorem HasPrefix_HasPrefixFold (h : heap) (p : Path) (subject : string) :
  HasPrefix h p subject = true -> HasPrefixFold EqualFold h p subject = true.
Proof.
  unfold HasPrefix, HasPrefixFold. cbv zeta.
  destruct (Nat.ltb _ _); [discriminate|]. apply prefix_loop_fold.
Qed.

End FoldFacts.

Lemma HasPrefix_HasPrefixFold_at_Author_Name :
  let EqualFold := fun a b => String.eqb (strings.ToLower a) (strings.ToLower b) in
  let hp := FromString [] "Author.Name" in
  HasPrefixFold EqualFold (fst hp) (snd hp) "Author" = true.
Proof.
  intros EqualFold hp.
  apply (HasPrefix_HasPrefixFold EqualFold).
  - intros a. apply String.eqb_refl.
  - vm_compute. reflexivity.
Defined.

(** * Package [names]: what the normalizer keeps *)

(** ** Names without initialisms *)

Lemma applyInitialism_idle (t : initialismTranslator) (lowerFirst snake : bool)
  (s : string) :
  rule_idle lowerFirst snake s t = true ->
  applyInitialism t lowerFirst snake s = Continue s.
Proof.
  unfold rule_idle, applyInitialism.
  destruct (names.re t) as [r|].
  - destruct (FindStringMatch r s) as [[m|]|e]; try discriminate. reflexivity.
  - destruct snake.
    + intros H. apply andb_true_iff in H. destruct H as [H1 H2].
      apply Z.eqb_eq in H1, H2.
      rewrite (Replace_absent _ _ _ H1), (Replace_absent _ _ _ H2). reflexivity.
    + intros H. apply andb_true_iff in H. destruct H as [H1 H2].
      apply negb_true_iff in H2.
      unfold lowerLeadingUpper, replaceCamel. now rewrite H2, H1.
Qed.

(** When no rule of the table finds anything to replace in a string, the
    normalizer returns the string as it is (after the delimiter cleanup, in
    snake mode). *)
Theorem normalizeInitialisms_idle (s : string) (lowerFirst snake : bool) :
  forallb (rule_idle lowerFirst snake s) initialisms = true ->
  normalizeInitialisms s lowerFirst snake
  = Ok (if snake then snakeCleanup s else s).
Proof.
  unfold normalizeInitialisms. generalize initialisms as rules.
  intros rules H.
  assert (E : applyInitialisms rules lowerFirst snake s = Continue s).
  { induction rules as [|t rules IH]; [reflexivity|].
    cbn [forallb] in H. apply andb_true_iff in H. destruct H as [Ht H].
    cbn [applyInitialisms]. rewrite (applyInitialism_idle _ _ _ _ Ht).
    exact (IH H). }
  now rewrite E.
Qed.

Lemma normalizeInitialisms_idle_at_Family :
  normalizeInitialisms "Family" false false = Ok "Family".
Proof.
  apply (normalizeInitialisms_idle "Family" false false).
  vm_compute. reflexivity.
Defined.

(** ** What a string spells *)

Lemma letters_app (a b : string) : letters (a ++ b) = letters a ++ letters b.
Proof.
  induction a as [|c a IH]; [reflexivity|].
  change (letters (String c (a ++ b)) = letters (String c a) ++ letters b).
  cbn [letters]. rewrite IH. destruct (isAlphaNum c); reflexivity.
Qed.

Lemma letters_cons (v : ascii) (s s' : string) :
  letters s = letters s' -> letters (String v s) = letters (String v s').
Proof. intros H. cbn [letters]. now rewrite H. Qed.

Lemma letters_delim (s : string) : letters (String "_" s) = letters s.
Proof. reflexivity. Qed.

Lemma letters_snoc_delim (s : string) : letters (s ++ "_") = letters s.
Proof.
  induction s as [|c s IH]; [reflexivity|].
  change (letters (String c (s ++ "_")) = letters (String c s)).
  now apply letters_cons.
Qed.

Lemma isCap_not_isLow (v : ascii) : isCap v = true -> isLow v = false.
Proof.
  unfold isCap, isLow, in_range. intros H.
  apply andb_true_iff in H. destruct H as [_ H]. apply Z.leb_le in H.
  apply andb_false_iff. left. apply Z.leb_gt. lia.
Qed.

Lemma lowerByte_upperByte (v : ascii) : isLow v = true -> lowerByte (upperByte v) = v.
Proof.
  unfold isLow, in_range, lowerByte, upperByte. intros H.
  apply andb_true_iff in H. destruct H as [H1 H2]. apply Z.leb_le in H1, H2.
  rewrite (Z.mod_small (byte_val v + 65 - 97)) by lia.
  rewrite byte_val_byte_of by lia.
  replace (byte_val v + 65 - 97 + 97 - 65) with (byte_val v) by lia.
  pose proof (byte_val_range v).
  rewrite Z.mod_small by lia. apply byte_of_byte_val.
Qed.

(** A byte written in the other case spells the same. *)
Lemma letters_upperByte (v : ascii) (s : string) :
  isLow v = true -> letters (String (upperByte v) s) = letters (String v s).
Proof.
  intros H. pose proof (upperByte_isCap v H) as HC.
  cbn [letters]. unfold isAlphaNum.
  rewrite HC, H, (lowerByte_upperByte v H), orb_true_r.
  destruct (isCap v) eqn:E; [|reflexivity].
  apply isCap_not_isLow in E. congruence.
Qed.

Lemma letters_lowerByte (v : ascii) (s : string) :
  isCap v = true -> letters (String (lowerByte v) s) = letters (String v s).
Proof.
  intros H. pose proof (lowerByte_isLow v H) as HL.
  cbn [letters]. unfold isAlphaNum.
  rewrite HL, H, orb_true_r.
  destruct (isCap (lowerByte v)) eqn:E; [|reflexivity].
  apply isCap_not_isLow in E. congruence.
Qed.

(** ** The caser *)

Lemma rev_onto_rev_onto (s a b : string) :
  rev_onto (rev_onto s a) b = rev_onto a (s ++ b).
Proof.
  revert a b; induction s as [|c s IH]; intros a b; [reflexivity|].
  cbn [rev_onto]. rewrite IH. reflexivity.
Qed.

Lemma append_empty (s : string) : s ++ "" = s.
Proof. induction s as [|c s IH]; simpl; [|rewrite IH]; reflexivity. Qed.

Lemma rev_string_involutive (s : string) : rev_string (rev_string s) = s.
Proof.
  unfold rev_string. rewrite rev_onto_rev_onto. apply append_empty.
Qed.

Lemma letters_rev_onto (s acc : string) :
  letters (rev_onto s acc) = rev_onto (letters s) (letters acc).
Proof.
  revert acc; induction s as [|c s IH]; intros acc; [reflexivity|].
  cbn [rev_onto letters]. rewrite IH. cbn [letters].
  destruct (isAlphaNum c); reflexivity.
Qed.

Lemma letters_rev_string (s : string) :
  letters (rev_string s) = rev_string (letters s).
Proof. apply letters_rev_onto. Qed.

(** No byte of the encoding of a white-space rune is a letter or a digit. *)
Lemma spaces_spell_nothing :
  forallb (fun sp => String.eqb (letters (strings.bytes_to_string sp)) ""
                     && String.eqb (letters (strings.bytes_to_string (rev sp))) "")
    strings.spaces = true.
Proof. vm_compute. reflexivity. Qed.

Lemma space_prefix_letters (b : bool) (s : string) (k : nat) :
  strings.space_prefix b s = S k -> letters (drop (S k) s) = letters s.
Proof.
  unfold strings.space_prefix. pose proof spaces_spell_nothing as H.
  revert H. generalize strings.spaces as l.
  induction l as [|sp l IH]; intros H; cbn [fold_right forallb] in *;
    [discriminate|].
  apply andb_true_iff in H. destruct H as [Hsp H].
  apply andb_true_iff in Hsp. destruct Hsp as [H1 H2].
  apply String.eqb_eq in H1, H2.
  set (enc := strings.bytes_to_string (if b then rev sp else sp)).
  assert (He : letters enc = "") by (subst enc; destruct b; assumption).
  destruct (prefix enc s) eqn:E; [|exact (IH H)].
  intros <-. rewrite (prefix_drop _ _ E) at 2.
  now rewrite letters_app, He.
Qed.

Lemma trim_space_left_letters (b : bool) (k : nat) (s : string) :
  letters (strings.trim_space_left b k s) = letters (drop k s).
Proof.
  revert k; induction s as [|c s IH]; intros k; [now destruct k|].
  cbn [strings.trim_space_left].
  destruct k as [|k]; [|apply IH].
  destruct (strings.space_prefix b (String c s)) as [|j] eqn:E; [reflexivity|].
  rewrite IH. exact (space_prefix_letters b _ j E).
Qed.

Lemma letters_TrimSpace (s : string) : letters (strings.TrimSpace s) = letters s.
Proof.
  unfold strings.TrimSpace.
  rewrite letters_rev_string, trim_space_left_letters. cbn [drop].
  rewrite letters_rev_string, rev_string_involutive.
  apply (trim_space_left_letters false 0 s).
Qed.

Lemma letters_camel_loop (s : string) (capNext first : bool) :
  letters (strcase.camel_loop capNext first s) = letters s.
Proof.
  revert capNext first; induction s as [|v s IH]; intros capNext first;
    [reflexivity|].
  cbn [strcase.camel_loop].
  set (v' := if capNext then if isLow v then upperByte v else v
             else if first then if isCap v then lowerByte v else v else v).
  assert (V : forall x, letters (String v' x) = letters (String v x)).
  { intros x. subst v'. destruct capNext.
    - destruct (isLow v) eqn:E; [now apply letters_upperByte | reflexivity].
    - destruct first; [|reflexivity].
      destruct (isCap v) eqn:E; [now apply letters_lowerByte | reflexivity]. }
  destruct (isCap v || isLow v) eqn:E1.
  - rewrite V. apply letters_cons, IH.
  - destruct (isNum v) eqn:E2.
    + rewrite V. apply letters_cons, IH.
    + rewrite IH. cbn [letters]. unfold isAlphaNum.
      apply orb_false_iff in E1. destruct E1 as [-> ->]. now rewrite E2.
Qed.

Lemma letters_toCamelInitCase (s : string) (initCase : bool) :
  letters (strcase.toCamelInitCase s initCase) = letters s.
Proof.
  unfold strcase.toCamelInitCase.
  rewrite <- (letters_TrimSpace s).
  destruct (String.eqb_spec (strings.TrimSpace s) "") as [->|_]; [reflexivity|].
  unfold strcase.uppercaseAcronym.
  destruct (String.eqb_spec (strings.TrimSpace s) "ID") as [->|_];
    [rewrite letters_camel_loop; reflexivity | apply letters_camel_loop].
Qed.

Lemma is_sep_spells_nothing (v : ascii) (s : string) :
  strcase.is_sep v = true -> letters (String v s) = letters s.
Proof.
  unfold strcase.is_sep. cbn [strings.mem_byte]. intros H.
  repeat (apply orb_true_iff in H; destruct H as [H|H];
          [apply Ascii.eqb_eq in H; subst v; reflexivity|]).
  discriminate.
Qed.

Lemma letters_delimited_loop (s : string) (prev : option ascii) :
  letters (strcase.delimited_loop "_" "" false prev s) = letters s.
Proof.
  revert prev; induction s as [|v0 s IH]; intros prev; [reflexivity|].
  specialize (IH (Some v0)).
  cbn [strcase.delimited_loop].
  rewrite (andb_false_r (isLow v0)). cbn [negb]. rewrite (andb_true_r (isCap v0)).
  set (v := if isCap v0 then lowerByte v0 else v0).
  assert (V : forall x, letters (String v x) = letters (String v0 x)).
  { intros x. subst v. destruct (isCap v0) eqn:E;
      [now apply letters_lowerByte | reflexivity]. }
  set (rest := strcase.delimited_loop "_" "" false (Some v0) s) in *.
  assert (R : letters (String v rest) = letters (String v0 s))
    by (rewrite V; now apply letters_cons).
  assert (Plain : letters
                    (if strcase.is_sep v && negb (strings.mem_byte v "")
                     then String "_" rest else String v rest)
                  = letters (String v0 s)).
  { destruct (strcase.is_sep v) eqn:E; cbn [andb strings.mem_byte negb];
      [|exact R].
    rewrite letters_delim, <- R. symmetry. now apply is_sep_spells_nothing. }
  destruct s as [|next s']; [exact Plain|].
  repeat match goal with
         | |- context [if ?c then _ else _] => destruct c
         end;
    try exact Plain; rewrite ?letters_delim, ?V;
    try (apply letters_cons); rewrite ?letters_delim; exact IH.
Qed.

Lemma letters_ToSnake (s : string) : letters (strcase.ToSnake s) = letters s.
Proof.
  unfold strcase.ToSnake, strcase.ToDelimited, strcase.ToScreamingDelimited.
  rewrite letters_delimited_loop. apply letters_TrimSpace.
Qed.

Lemma letters_guard (s : string) : letters (guard s) = letters s.
Proof.
  unfold guard. destruct (strutil.InStrings s goKeywords); [|reflexivity].
  apply letters_snoc_delim.
Qed.

Lemma letters_keepAlphaNum (s : string) :
  all_bytes is_snake_byte s = true -> keepAlphaNum s = letters s.
Proof.
  induction s as [|c s IH]; [reflexivity|]. intros H.
  destruct (all_bytes_tail _ _ _ H) as [Hc Hs].
  cbn [keepAlphaNum letters]. rewrite (IH Hs).
  destruct (isAlphaNum c); [|reflexivity].
  destruct (isCap c) eqn:E; [|reflexivity].
  exfalso. unfold is_snake_byte in Hc.
  rewrite (isCap_not_isLow c E) in Hc. cbn [orb] in Hc.
  apply orb_true_iff in Hc. destruct Hc as [Hc|Hc].
  - unfold isNum, isCap, in_range in *.
    apply andb_true_iff in Hc, E. destruct Hc as [_ Hc]. destruct E as [E _].
    apply Z.leb_le in Hc, E. lia.
  - unfold is_delim in Hc. apply Ascii.eqb_eq in Hc. subst c. discriminate E.
Qed.

(** ** Replacements that keep the spelling *)

Lemma replace_scan_letters (old new : string) (s : string) (n : Z) (k : nat) :
  old <> "" -> letters old = letters new ->
  letters (strings.replace_scan old new n k s) = letters (drop k s).
Proof.
  intros Hne Hon. revert n k; induction s as [|c s IH]; intros n k;
    [now destruct k|].
  cbn [strings.replace_scan].
  destruct k as [|k]; [|apply IH].
  destruct (n =? 0); [reflexivity|].
  destruct (prefix old (String c s)) eqn:E.
  - rewrite letters_app, IH, <- Hon.
    cbn [drop]. rewrite (prefix_drop _ _ E) at 1.
    rewrite letters_app. destruct old as [|o old']; [contradiction|].
    reflexivity.
  - rewrite (letters_cons c _ s (IH n 0%nat)). reflexivity.
Qed.

Lemma strings_Replace_letters (s old new : string) (n : Z) :
  letters old = letters new -> letters (strings.Replace s old new n) = letters s.
Proof.
  intros H. unfold strings.Replace.
  destruct old as [|o old'] eqn:E; [reflexivity|].
  rewrite replace_scan_letters; [reflexivity | discriminate | exact H].
Qed.

Lemma TrimLeft_delim_letters (s : string) :
  letters (strings.TrimLeft s "_") = letters s.
Proof.
  induction s as [|c s IH]; [reflexivity|].
  cbn [strings.TrimLeft strings.mem_byte]. rewrite orb_false_r.
  destruct (Ascii.eqb_spec c "_") as [->|_]; [|reflexivity].
  rewrite IH. reflexivity.
Qed.

Lemma TrimRight_delim_letters (s : string) :
  letters (strings.TrimRight s "_") = letters s.
Proof.
  induction s as [|c s IH]; [reflexivity|].
  cbn [strings.TrimRight].
  destruct (strings.TrimRight s "_") as [|d r].
  - cbn [strings.mem_byte]. rewrite orb_false_r.
    destruct (Ascii.eqb_spec c "_") as [->|_].
    + rewrite letters_delim. exact IH.
    + now apply letters_cons.
  - now apply letters_cons.
Qed.

Lemma snakeCleanup_letters (s : string) : letters (snakeCleanup s) = letters s.
Proof.
  unfold snakeCleanup, strings.Trim.
  rewrite TrimRight_delim_letters, TrimLeft_delim_letters.
  now apply strings_Replace_letters.
Qed.

Section MatchSpelling.

Import regexp2.

Lemma string_of_runes_app (a b : list rune) :
  string_of_runes (a ++ b) = string_of_runes a ++ string_of_runes b.
Proof.
  induction a as [|x a IH]; [reflexivity|].
  cbn [app string_of_runes]. now rewrite IH, append_assoc.
Qed.

Lemma runes_ascii_app (a b : list rune) :
  runes_ascii (a ++ b) = true -> runes_ascii a = true /\ runes_ascii b = true.
Proof.
  unfold runes_ascii. rewrite forallb_app. apply andb_true_iff.
Qed.

Lemma string_of_byte_runes (s : string) :
  is_ascii s = true -> string_of_runes (byte_runes s) = s.
Proof.
  induction s as [|c s IH]; [reflexivity|]. intros H.
  cbn [is_ascii] in H. apply andb_true_iff in H. destruct H as [Hc Hs].
  cbn [byte_runes string_of_runes].
  pose proof (byte_val_range c). apply Z.ltb_lt in Hc.
  rewrite EncodeRune_ascii by lia.
  rewrite byte_of_byte_val, (IH Hs). reflexivity.
Qed.

Lemma letters_rune (x : rune) :
  0 <= x < 128 -> letters (string_of_runes [x]) = letter_of x.
Proof.
  intros H. cbn [string_of_runes]. now rewrite EncodeRune_ascii.
Qed.

(** A character and its case fold spell the same. *)
Lemma letter_of_fold_case (x : rune) :
  0 <= x < 128 -> letter_of (fold_case x) = letter_of x.
Proof.
  intros H. unfold fold_case.
  destruct (in_range 65 90 x) eqn:E; [|reflexivity].
  pose proof E as E'. unfold in_range in E'. apply andb_true_iff in E'.
  destruct E' as [E1 E2]. apply Z.leb_le in E1, E2.
  assert (C : isCap (byte_of x) = true)
    by (unfold isCap; now rewrite byte_val_byte_of by lia).
  unfold letter_of. rewrite <- (letters_lowerByte (byte_of x) "" C).
  unfold lowerByte. rewrite byte_val_byte_of by lia.
  rewrite Z.mod_small by lia.
  replace (x + 97 - 65) with (x + 32) by lia. reflexivity.
Qed.

Lemma in_class_letter (ranges : list (rune * rune)) (w : string) (x : rune) :
  word_of (Cls ranges) = Some w -> in_class ranges x = true -> letter_of x = w.
Proof.
  cbn [word_of]. destruct ranges as [|[lo hi] rest]; [discriminate|].
  destruct (forallb _ _) eqn:F; [|discriminate].
  intros H; injection H as <-. unfold in_class. intros H.
  apply existsb_exists in H. destruct H as ([a b] & Hin & Hr).
  rewrite forallb_forall in F. specialize (F _ Hin). cbn [fst snd] in *.
  apply andb_true_iff in F. destruct F as [F1 F2].
  apply Z.eqb_eq in F1. apply String.eqb_eq in F2. subst b.
  unfold in_range in Hr. apply andb_true_iff in Hr. destruct Hr as [H1 H2].
  apply Z.leb_le in H1, H2. replace x with a by lia. exact F2.
Qed.

(** What a match consumes spells the word of the pattern. *)
Lemma bt_word (r : regex) :
  forall (w : string), word_of r = Some w ->
  forall (s : list rune) (k : list rune -> option (list rune)) (rest : list rune),
    runes_ascii s = true -> bt r s k = Some rest ->
    exists pre mid, s = (pre ++ mid)%list
                    /\ letters (string_of_runes pre) = w
                    /\ k mid = Some rest.
Proof.
  induction r as [|c|c|cs|r1 IH1 r2 IH2|r1 IH1 r2 IH2|r1 IH1|r1 IH1];
    intros w Hw s k rest Hs H.
  - cbn [word_of bt] in *. injection Hw as <-. exists [], s. auto.
  - cbn [word_of bt] in *. injection Hw as <-.
    destruct s as [|x s]; [discriminate|].
    destruct (Z.eqb_spec x c) as [->|_]; [|discriminate].
    apply runes_ascii_cons in Hs. destruct Hs as [Hx _].
    exists [c], s. split; [reflexivity|]. split; [now apply letters_rune | exact H].
  - cbn [word_of bt] in *. injection Hw as <-.
    destruct s as [|x s]; [discriminate|].
    destruct (Z.eqb_spec (fold_case x) c) as [<-|_]; [|discriminate].
    apply runes_ascii_cons in Hs. destruct Hs as [Hx _].
    exists [x], s. split; [reflexivity|]. split; [|exact H].
    rewrite letters_rune by exact Hx. symmetry. now apply letter_of_fold_case.
  - cbn [bt] in H. destruct s as [|x s]; [discriminate|].
    destruct (in_class cs x) eqn:E; [|discriminate].
    apply runes_ascii_cons in Hs. destruct Hs as [Hx _].
    exists [x], s. split; [reflexivity|]. split; [|exact H].
    rewrite letters_rune by exact Hx. exact (in_class_letter _ _ _ Hw E).
  - cbn [word_of bt] in *.
    destruct (word_of r1) as [w1|]; [|discriminate].
    destruct (word_of r2) as [w2|]; [|discriminate].
    injection Hw as <-.
    destruct (IH1 w1 eq_refl s _ rest Hs H) as (p1 & m1 & -> & L1 & K1).
    destruct (runes_ascii_app _ _ Hs) as [_ Hm1].
    destruct (IH2 w2 eq_refl m1 k rest Hm1 K1) as (p2 & m2 & -> & L2 & K2).
    exists (p1 ++ p2)%list, m2. split; [now rewrite app_assoc|].
    split; [|exact K2]. now rewrite string_of_runes_app, letters_app, L1, L2.
  - cbn [word_of bt] in *.
    destruct (word_of r1) as [w1|]; [|discriminate].
    destruct (word_of r2) as [w2|]; [|discriminate].
    destruct (String.eqb_spec w1 w2) as [<-|_]; [|discriminate].
    injection Hw as <-.
    destruct (bt r1 s k) as [e|] eqn:E.
    + injection H as <-. exact (IH1 w1 eq_refl s k e Hs E).
    + exact (IH2 w1 eq_refl s k rest Hs H).
  - cbn [word_of bt] in *. injection Hw as <-.
    destruct (bt r1 s Some); [discriminate|]. exists [], s. auto.
  - cbn [word_of bt] in *. exact (IH1 w Hw s k rest Hs H).
Qed.

Lemma match_at_word (r : regex) (w : string) (s : list rune) (n : nat) :
  word_of r = Some w -> runes_ascii s = true -> match_at r s = Some n ->
  letters (string_of_runes (firstn n s)) = w.
Proof.
  intros Hw Hs. unfold match_at.
  destruct (bt r s Some) as [rest|] eqn:E; [|discriminate].
  intros H; injection H as <-.
  destruct (bt_word r w Hw s Some rest Hs E) as (pre & mid & -> & L & K).
  injection K as ->. rewrite length_app.
  replace (List.length pre + List.length rest - List.length rest)%nat
    with (List.length pre + 0)%nat by lia.
  now rewrite firstn_app_2, firstn_O, app_nil_r.
Qed.

Variable re : regex.
Variable repl : string.
Hypothesis re_spells : word_of re = Some (letters repl).

Lemma replace_loop_letters (rs : list rune) (count : Z) (skip : nat) :
  runes_ascii rs = true ->
  letters (replace_loop re repl count skip rs)
  = letters (string_of_runes (skipn skip rs)).
Proof.
  revert count skip; induction rs as [|x rs IH]; intros count skip H.
  - cbn [replace_loop]. rewrite skipn_nil.
    destruct skip; [|reflexivity].
    destruct (match_at re []) as [n|] eqn:E; [|reflexivity].
    destruct (count =? 0); [reflexivity|].
    rewrite <- (match_at_word _ _ _ _ re_spells H E). now rewrite firstn_nil.
  - cbn [replace_loop].
    pose proof H as H'. apply runes_ascii_cons in H'. destruct H' as [Hx Hrs].
    destruct skip as [|k]; [|now apply IH].
    destruct (count =? 0); [reflexivity|].
    cbn [skipn string_of_runes].
    destruct (match_at re (x :: rs)) as [[|n]|] eqn:E.
    + pose proof (match_at_word _ _ _ _ re_spells H E) as W.
      cbn [firstn string_of_runes letters] in W.
      rewrite !letters_app, <- W, (IH _ 0%nat Hrs). reflexivity.
    + pose proof (match_at_word _ _ _ _ re_spells H E) as W.
      rewrite letters_app, <- W, (IH _ n Hrs), <- !letters_app.
      rewrite <- string_of_runes_app.
      change (firstn (S n) (x :: rs) ++ skipn n rs)%list
        with (firstn (S n) (x :: rs) ++ skipn (S n) (x :: rs))%list.
      now rewrite firstn_skipn.
    + rewrite !letters_app, (IH _ 0%nat Hrs). reflexivity.
Qed.

(** [Replace] by a replacement that spells what the pattern matches keeps
    the spelling of an ASCII string. *)
Lemma Replace_letters (s out : string) (startAt count : Z) :
  is_ascii s = true -> 0 <= startAt <= len s -> count <> 0 ->
  Replace re s repl startAt count = Ok out -> letters out = letters s.
Proof.
  intros Hs Hk Hc. unfold Replace.
  destruct (count <? -1); [discriminate|].
  destruct (Z.eqb_spec count 0) as [->|_]; [contradiction|].
  rewrite FindStringMatchStartingAt_ascii by assumption. cbn [bind].
  destruct (run re startAt (byte_runes s)) as [m|] eqn:E;
    [|intros H; injection H as <-; reflexivity].
  apply run_text in E. rewrite E.
  intros H; injection H as <-.
  pose proof (byte_runes_ascii s Hs) as Hr.
  rewrite letters_app, replace_loop_letters by (now apply runes_ascii_skipn).
  cbn [skipn]. rewrite <- letters_app, <- string_of_runes_app, firstn_skipn.
  now rewrite string_of_byte_runes.
Qed.

End MatchSpelling.

(** ** The rules keep the spelling *)

Lemma FindNextMatch_returns (r : regex) (m : Match) :
  exists o, FindNextMatch r m = Ok o.
Proof.
  unfold FindNextMatch.
  destruct (Length m =? 0); [|eauto].
  destruct (textpos m =? Z.of_nat (List.length (text m))); eauto.
Qed.

(** The normalizer leaves its loop early only to report an error of the
    matcher. *)
Lemma applyInitialism_return_error (t : initialismTranslator)
  (lowerFirst snake : bool) (s : string) (r : Res string) :
  applyInitialism t lowerFirst snake s = Return r -> exists e, r = Err e.
Proof.
  unfold applyInitialism, replaceFrom.
  destruct (names.re t) as [rx|]; [|destruct snake; discriminate].
  destruct (FindStringMatch rx s) as [[m|]|e];
    [|discriminate | intros H; injection H as <-; eauto].
  destruct (FindNextMatch_returns rx m) as [o ->].
  repeat match goal with
         | |- context [match ?x with _ => _ end] => destruct x
         end;
    intros H; try discriminate; inversion H; subst; eauto.
Qed.

Lemma all_bytes_is_ascii (s : string) :
  all_bytes (fun c => byte_val c <? 128) s = is_ascii s.
Proof. induction s as [|c s IH]; [reflexivity|]. simpl. now rewrite IH. Qed.

Section RuleSpelling.

Variable P : ascii -> bool.
Hypothesis P_ascii : forall c, P c = true -> (byte_val c <? 128) = true.

Variable t : initialismTranslator.
Hypothesis t_wf : well_formed_rule t = true.
Hypothesis t_same : same_letters t = true.

Lemma lower_spells_upper : letters (lower t) = letters (upper t).
Proof.
  unfold same_letters in t_same. apply andb_true_iff in t_same.
  destruct t_same as [H _]. now apply String.eqb_eq in H.
Qed.

Lemma camel_spells_upper : names.re t = None -> letters (camel t) = letters (upper t).
Proof.
  intros Hre. unfold same_letters in t_same. rewrite Hre in t_same.
  apply andb_true_iff in t_same. destruct t_same as [_ H].
  now apply String.eqb_eq in H.
Qed.

Lemma matcher_spells_upper (r : regex) :
  names.re t = Some r -> word_of r = Some (letters (upper t)).
Proof.
  intros Hre. unfold same_letters in t_same. rewrite Hre in t_same.
  apply andb_true_iff in t_same. destruct t_same as [_ H].
  destruct (word_of r) as [w|]; [|discriminate].
  apply String.eqb_eq in H. now subst.
Qed.

Lemma delimited_spells_upper : letters ("_" ++ lower t ++ "_") = letters (upper t).
Proof.
  change ("_" ++ lower t ++ "_") with (String "_" (lower t ++ "_")).
  rewrite letters_delim, letters_snoc_delim. exact lower_spells_upper.
Qed.

Lemma replaceFrom_letters (snake : bool) (r : regex)
  (result result' : string) (startFrom : Z) :
  names.re t = Some r ->
  is_ascii result = true -> 0 <= startFrom <= len result ->
  replaceFrom t r snake result startFrom = Continue result' ->
  letters result' = letters result.
Proof.
  intros Hre Hs Hk. unfold replaceFrom.
  destruct (Replace r result _ startFrom (-1)) as [out|e] eqn:E; [|discriminate].
  intros H; injection H as <-.
  refine (Replace_letters r _ _ result out startFrom (-1) Hs Hk _ E);
    [|discriminate].
  rewrite (matcher_spells_upper r Hre). f_equal.
  destruct snake; [symmetry; exact delimited_spells_upper | reflexivity].
Qed.

(** A rule applied to a string of [P]-bytes keeps what the string spells. *)
Lemma applyInitialism_letters (lowerFirst snake : bool) (result result' : string) :
  forms_ok P lowerFirst snake t = true ->
  all_bytes P result = true ->
  applyInitialism t lowerFirst snake result = Continue result' ->
  letters result' = letters result.
Proof.
  intros F Hs. pose proof (all_bytes_ascii P P_ascii result Hs) as Ha.
  unfold applyInitialism.
  destruct (names.re t) as [r|] eqn:Hre.
  - unfold FindStringMatch. rewrite runes_of_ascii by exact Ha.
    destruct (run r (-1) (byte_runes result)) as [m|] eqn:E;
      [|intros H; injection H as <-; reflexivity].
    pose proof (run_index _ _ _ _ E) as Hi. rewrite length_byte_runes in Hi.
    destruct (lowerFirst && (Index m =? 0)) eqn:G;
      [|now apply (replaceFrom_letters snake r)].
    apply andb_true_iff in G. destruct G as [Hlf G]. apply Z.eqb_eq in G.
    assert (Hl : all_bytes P (lower t) = true)
      by (apply (written_lower_bytes P t _ _ F); now right).
    destruct (run_at_zero _ _ _ E G) as (n & Hn).
    destruct (match_at_width _ _ _ _ (matcher_width t t_wf r Hre) Hn) as [-> Hle].
    rewrite length_byte_runes in Hle.
    destruct (Replace_first_length r result (lower t) _ Ha
                (all_bytes_ascii P P_ascii _ Hl) Hn Hle eq_refl)
      as (out & Eout & Aout & Hlen).
    rewrite Eout.
    assert (Lout : letters out = letters result).
    { refine (Replace_letters r _ _ result out 0 1 Ha _ _ Eout);
        [|unfold len; lia | discriminate].
      rewrite (matcher_spells_upper r Hre). f_equal.
      symmetry. exact lower_spells_upper. }
    pose proof (run_text _ _ _ _ E) as Ht.
    assert (B : forall st m2, run r st (text m) = Some m2 ->
                              0 <= Index m2 <= len out).
    { intros st m2 R. apply run_index in R.
      rewrite Ht, length_byte_runes in R. rewrite Hlen. exact R. }
    rewrite <- Lout.
    unfold FindNextMatch.
    destruct (Length m =? 0).
    + destruct (textpos m =? Z.of_nat (List.length (text m)));
        [intros H; injection H as <-; reflexivity|].
      destruct (run r (textpos m + 1) (text m)) as [m2|] eqn:E2;
        [|intros H; injection H as <-; reflexivity].
      apply (replaceFrom_letters snake r); [exact Hre | exact Aout | exact (B _ _ E2)].
    + destruct (run r (textpos m) (text m)) as [m2|] eqn:E2;
        [|intros H; injection H as <-; reflexivity].
      apply (replaceFrom_letters snake r); [exact Hre | exact Aout | exact (B _ _ E2)].
  - pose proof (camel_spells_upper Hre) as Hcu.
    pose proof lower_spells_upper as Hlu.
    pose proof delimited_spells_upper as Hdu.
    destruct snake.
    + cbv zeta. intros H; injection H as <-.
      rewrite (strings_Replace_letters _ (upper t)) by (symmetry; exact Hdu).
      apply strings_Replace_letters. rewrite Hlu. symmetry. exact Hdu.
    + intros H; injection H as <-.
      assert (H1 : letters (lowerLeadingUpper t lowerFirst result) = letters result).
      { unfold lowerLeadingUpper.
        destruct (lowerFirst && _); [|reflexivity].
        apply strings_Replace_letters. congruence. }
      rewrite <- H1.
      unfold replaceCamel. cbv zeta.
      destruct (_ =? -1); [reflexivity|].
      destruct (_ =? 0).
      * rewrite strings_Replace_letters by exact Hcu.
        destruct lowerFirst; [|reflexivity].
        apply strings_Replace_letters. congruence.
      * now apply strings_Replace_letters.
Qed.

End RuleSpelling.

Lemma initialisms_same_letters : forallb same_letters initialisms = true.
Proof. vm_compute. reflexivity. Qed.

Section NormalizerSpelling.

Variable P : ascii -> bool.
Hypothesis P_ascii : forall c, P c = true -> (byte_val c <? 128) = true.
Variables lowerFirst snake : bool.

Lemma applyInitialisms_letters (rules : list initialismTranslator)
  (result result' : string) :
  forallb well_formed_rule rules = true ->
  forallb same_letters rules = true ->
  forallb (forms_ok P lowerFirst snake) rules = true ->
  all_bytes P result = true ->
  applyInitialisms rules lowerFirst snake result = Continue result' ->
  letters result' = letters result.
Proof.
  revert result; induction rules as [|t rules IH]; intros result Hwf Hsame Hok Hs.
  - intros H; injection H as <-. reflexivity.
  - cbn [forallb] in Hwf, Hsame, Hok.
    apply andb_true_iff in Hwf. destruct Hwf as [Ht Hwf].
    apply andb_true_iff in Hsame. destruct Hsame as [Hl Hsame].
    apply andb_true_iff in Hok. destruct Hok as [Hf Hok].
    cbn [applyInitialisms].
    destruct (applyInitialism t lowerFirst snake result) as [r1|] eqn:E;
      [|discriminate].
    intros H.
    rewrite <- (applyInitialism_letters P P_ascii t Ht Hl lowerFirst snake _ _ Hf Hs E).
    apply (IH r1 Hwf Hsame Hok); [|exact H].
    exact (applyInitialism_bytes P P_ascii t Ht lowerFirst snake _ _ Hf Hs E).
Qed.

(** The normalizer keeps what a string of [P]-bytes spells, when the forms
    it can write are made of [P]-bytes. *)
Lemma normalizeInitialisms_letters (s r : string) :
  forallb (forms_ok P lowerFirst snake) initialisms = true ->
  all_bytes P s = true ->
  normalizeInitialisms s lowerFirst snake = Ok r ->
  letters r = letters s.
Proof.
  intros Hok Hs. unfold normalizeInitialisms.
  destruct (applyInitialisms initialisms lowerFirst snake s) as [s'|r'] eqn:E.
  - intros H; injection H as <-.
    rewrite <- (applyInitialisms_letters _ _ _ initialisms_well_formed
                  initialisms_same_letters Hok Hs E).
    destruct snake; [apply snakeCleanup_letters | reflexivity].
  - intros ->. exfalso. revert E. generalize s. generalize initialisms as rules.
    induction rules as [|t rules IH]; intros s0; cbn [applyInitialisms];
      [discriminate|].
    destruct (applyInitialism t lowerFirst snake s0) as [s1|r1] eqn:E1; [apply IH|].
    intros H; injection H as ->.
    destruct (applyInitialism_return_error _ _ _ _ _ E1) as [e He]. discriminate.
Qed.

End NormalizerSpelling.

Lemma forms_ascii_lower :
  forallb (forms_ok (fun c => byte_val c <? 128) true false) initialisms = true.
Proof. vm_compute. reflexivity. Qed.

Lemma letters_alnum (s : string) :
  all_bytes isAlphaNum s = true -> letters s = strings.ToLower s.
Proof.
  induction s as [|c s IH]; [reflexivity|]. intros H.
  destruct (all_bytes_tail _ _ _ H) as [Hc Hs].
  cbn [letters]. unfold strings.ToLower. cbn [strings.map_bytes].
  rewrite Hc, (IH Hs). reflexivity.
Qed.

(** ** The variants spell the raw name *)

(** Every variant that [New] returns spells the raw name: the letters and
    digits of Camel and of Snake, lower-cased, are those of the raw name, in
    the same order; SnakeStripped is exactly that string; so is CamelLower's
    spelling when the raw name is ASCII.  For a raw name made of letters and
    digits only, SnakeStripped is therefore the Lower variant. *)
Theorem variants_spell_the_name (raw : string) (n : Names) :
  New raw = Ok n ->
  letters (Camel n) = letters raw
  /\ letters (Snake n) = letters raw
  /\ SnakeStripped n = letters raw
  /\ (is_ascii raw = true -> letters (CamelLower n) = letters raw)
  /\ (all_bytes isAlphaNum raw = true -> SnakeStripped n = Lower n).
Proof.
  intros H. pose proof (SnakeStripped_keepAlphaNum raw n H) as Hstrip.
  apply New_fields in H. destruct H as (Hc & Hl & Hs & _ & Hlow & _).
  assert (Ident : all_bytes is_ident_byte (strcase.ToCamel raw) = true).
  { apply (all_bytes_weaken isAlphaNum); [|apply toCamelInitCase_alnum].
    intros c K. unfold is_ident_byte. now rewrite K. }
  assert (Sn : letters (Snake n) = letters raw
               /\ all_bytes is_snake_byte (Snake n) = true).
  { unfold goName in Hs. cbn [negb] in Hs.
    destruct (normalizeInitialisms (strcase.ToCamel raw) false true) as [r|] eqn:E;
      [|discriminate]. cbn [bind] in Hs. injection Hs as <-. split.
    - rewrite letters_guard, letters_ToSnake.
      rewrite (normalizeInitialisms_letters is_ident_byte is_ident_byte_ascii
                 false true _ r forms_ident_snake Ident E).
      apply letters_toCamelInitCase.
    - apply guard_bytes; [reflexivity|]. apply ToSnake_snake.
      exact (normalizeInitialisms_bytes is_ident_byte is_ident_byte_ascii
               false true _ r forms_ident_snake Ident E). }
  destruct Sn as [Sn1 Sn2].
  assert (St : SnakeStripped n = letters raw)
    by (now rewrite Hstrip, (letters_keepAlphaNum _ Sn2)).
  split; [|split; [exact Sn1 | split; [exact St | split]]].
  - unfold goName in Hc. cbn [negb] in Hc.
    destruct (normalizeInitialisms (strcase.ToCamel raw) false false) as [r|] eqn:E;
      [|discriminate]. cbn [bind] in Hc. injection Hc as <-.
    rewrite letters_guard.
    rewrite (normalizeInitialisms_letters isAlphaNum isAlphaNum_ascii false false
               _ r forms_alnum (toCamelInitCase_alnum raw true) E).
    apply letters_toCamelInitCase.
  - intros Hraw. unfold goName in Hl. cbn [negb] in Hl.
    destruct (normalizeInitialisms raw true false) as [r1|] eqn:E1; [|discriminate].
    cbn [bind] in Hl.
    destruct (normalizeInitialisms (strcase.ToLowerCamel r1) true false)
      as [r2|] eqn:E2; [|discriminate]. cbn [bind] in Hl. injection Hl as <-.
    rewrite letters_guard.
    assert (Q : all_bytes is_ident_byte (strcase.ToLowerCamel r1) = true).
    { apply (all_bytes_weaken isAlphaNum); [|apply toCamelInitCase_alnum].
      intros c K. unfold is_ident_byte. now rewrite K. }
    rewrite (normalizeInitialisms_letters is_ident_byte is_ident_byte_ascii
               true false _ r2 forms_ident_lower Q E2).
    unfold strcase.ToLowerCamel. rewrite letters_toCamelInitCase.
    refine (normalizeInitialisms_letters (fun c => byte_val c <? 128)
              (fun c K => K) true false raw r1 forms_ascii_lower _ E1).
    now rewrite all_bytes_is_ascii.
  - intros Hraw. rewrite St, Hlow. now apply letters_alnum.
Qed.

Lemma variants_spell_the_name_at_DbInstanceId :
  exists n, New "DbInstanceId" = Ok n /\ SnakeStripped n = "dbinstanceid".
Proof.
  eexists. split; [vm_compute; reflexivity|].
  refine (proj1 (proj2 (proj2 (variants_spell_the_name "DbInstanceId" _ _)))).
  vm_compute. reflexivity.
Defined.
